(** * Account pool and safety controller: a shallow embedding

    This development embeds the two classes of the repository that carry
    the pool and safety logic,

    - [src/safety/CircuitBreaker.js]  (module [CircuitBreaker]) and
    - [src/wallet/WalletManager.js]   (module [WalletManager]),

    and proves properties of the embedded code (modules
    [CircuitBreakerFacts] and [WalletManagerFacts]).

    Conventions of the embedding.

    - JavaScript numbers that hold counters, lengths and lamport amounts
      ([BN], [BigInt]) are integers: [Z] (or [nat] for lengths and for
      the options that are sizes).
    - JavaScript numbers that hold fractions (rates, [Math.random()]
      draws, cooldowns in milliseconds) are exact rationals [Q].  Every
      binary64 value is a rational; what the embedding leaves out is the
      rounding of products and quotients.  Quotients that can be [NaN]
      or infinite are modelled explicitly ([JS.number]).  Module
      [Binary64] recomputes the worked examples in binary64.
    - An object is a record of its fields; a method takes the object and
      returns the object it leaves.  [Math.random()] and
      [Keypair.generate()] are read from the runtime by the number of
      calls made so far, which the object record carries along.
    - [async] methods are resumable computations ([Async.task]): the code
      between two [await]s is a state transformer over the object, and an
      [await] hands a request to the environment, which answers with a
      value or with a rejection.  Calls in flight at the same time
      ([Promise.allSettled]) interleave at their [await]s, in the order
      that the environment chooses.
    - Constants imported from [constants.js], and the functions of
      [utils.js] and of the Solana client library, are not part of the
      embedded sources; they are fields of the classes [Constants] and
      [Runtime]. *)

From Stdlib Require Import QArith Qround Qabs Lqa Floats.
From stdpp Require Import gmap strings list pretty.

Open Scope Z_scope.

(* ================================================================== *)
(** * JavaScript helpers *)
(* ================================================================== *)

Module JS.

(** [s || d] on strings: the empty string and [undefined] are falsy. *)
Definition or_string (s : option string) (d : string) : string :=
  match s with
  | Some v => if decide (v = "") then d else v
  | None => d
  end.

(** [b || false] for an optional boolean field. *)
Definition or_false (b : option bool) : bool :=
  match b with Some v => v | None => false end.

(** [n || 0] for a lookup in a [Map] of numbers. *)
Definition or_zero (n : option Z) : Z :=
  match n with Some v => v | None => 0 end.

(** [a % b]: the sign follows the dividend; [NaN] when [b] is 0. *)
Definition rem (a b : Z) : option Z :=
  if b =? 0 then None else Some (Z.rem a b).

(** [Math.floor] on a rational, as an integer. *)
Definition Math_floor (x : Q) : Z := Qfloor x.

(** The result of a division: a finite number, an infinity or [NaN]. *)
Inductive number : Type :=
| Num (q : Q)
| Infinity (negative : bool)
| NaN.

(** [a / b] on finite numbers. *)
Definition div (a b : Q) : number :=
  if Qeq_bool b 0 then
    if Qeq_bool a 0 then NaN else Infinity (negb (Qle_bool 0 a))
  else Num (a / b)%Q.

(** [x * c] for a finite constant [c > 0]. *)
Definition scale (x : number) (c : Q) : number :=
  match x with
  | Num q => Num (q * c)%Q
  | other => other
  end.

(** [x > y] for a finite [y]: false on [NaN]. *)
Definition gtb (x : number) (y : Q) : bool :=
  match x with
  | Num q => negb (Qle_bool q y)
  | Infinity negative => negb negative
  | NaN => false
  end.

(** Left padding of a digit string with zeros up to [n] characters. *)
Fixpoint zeros (n : nat) : string :=
  match n with
  | O => ""
  | S k => "0" +:+ zeros k
  end.

Definition pad_zeros (n : nat) (s : string) : string :=
  zeros (n - String.length s) +:+ s.

(** [Number.prototype.toFixed(digits)] for |x| < 10^21: the integer [n]
    nearest to |x| * 10^digits (the larger one on a tie), printed with a
    decimal point before its last [digits] digits. *)
Definition toFixedQ (digits : nat) (x : Q) : string :=
  let scale := 10 ^ Z.of_nat digits in
  let n := Qfloor (Qabs x * inject_Z scale + (1 # 2))%Q in
  let sign := if Qle_bool 0 x then "" else "-" in
  let int := pretty (n / scale) in
  match digits with
  | O => sign +:+ int
  | _ => sign +:+ int +:+ "." +:+ pad_zeros digits (pretty (n mod scale))
  end.

Definition toFixed (digits : nat) (x : number) : string :=
  match x with
  | Num q => toFixedQ digits q
  | Infinity negative => if negative then "-Infinity" else "Infinity"
  | NaN => "NaN"
  end.

(** [String(n)] / template interpolation of an integer. *)
Definition toString (n : Z) : string := pretty n.

(** [arr.slice(i, j)] for [0 <= i]. *)
Definition slice {A} (i j : nat) (l : list A) : list A :=
  take (j - i) (drop i l).

(** [arr.shift()]: drops the first element (no effect on [[]]). *)
Definition shift {A} (l : list A) : list A := drop 1 l.

End JS.

(* ================================================================== *)
(** * Data model *)
(* ================================================================== *)

(** A key pair of the client library: the base58 public key and the
    secret key bytes. *)
Record Keypair := {
  publicKey : string;
  secretKey : list Byte.byte;
}.

(** A record as the wallet file holds it (every field but the private
    key may be absent). *)
Record RawWallet := {
  raw_pubkey : option string;
  raw_publicKey : option string;
  raw_privateKey : list Byte.byte;
  raw_name : option string;
  raw_isSeasoned : option bool;
}.

(** A normalized pool record. *)
Record Wallet := {
  pubkey : string;
  privateKey : list Byte.byte;
  name : string;
  isSeasoned : bool;
}.

(** The options of [ConfigManager] the embedded code reads (and, for
    [concurrency] and [batchSize], writes). *)
Record Config := {
  enableCircuitBreaker : bool;
  maxConsecutiveFailures : Z;
  failureRateWindow : nat;
  maxFailureRate : Q;
  emergencyStopLoss : Q;
  numWalletsToGenerate : nat;
  fundAmount : Q;
  minWalletCooldownMs : Q;
  maxWalletCooldownMs : Q;
  autoScale : bool;
  concurrency : Z;
  batchSize : Z;
  sinkPrivateKey : option (list Byte.byte);
  relayerPrivateKeys : option (list (list Byte.byte));
}.

(** Constants of [constants.js] (not among the embedded sources). *)
Class Constants := {
  SINK_BALANCE_CHECK_INTERVAL : Z;
  MIN_SOL_BUFFER_LAMPORTS_BN : Z;
  PRIORITY_FEE_MICRO_LAMPORTS : Z;
  PERSONALITIES : list string;
}.

(** [LAMPORTS_PER_SOL] of the client library. *)
Definition LAMPORTS_PER_SOL : Z := 1000000000.

(** What the code takes from its runtime and libraries:
    - [Math_random k] is the result of the [k]-th call of [Math.random()];
    - [Keypair_generate k] is the [k]-th key pair of [Keypair.generate()];
    - [Keypair_fromSecretKey] is [None] when the library throws;
    - [getRandomNumberBetween min max k] ([utils.js]) is run when [k] calls
      of [Math.random()] have been made; it returns its result and the
      number of calls made when it returns. *)
Class Runtime := {
  Math_random : nat → Q;
  Keypair_generate : nat → Keypair;
  Keypair_fromSecretKey : list Byte.byte → option Keypair;
  getRandomNumberBetween : Q → Q → nat → Q * nat;
}.

(** The contract of [Math.random()]: a number in [0, 1). *)
Definition unit_interval (x : Q) : Prop := (0 <= x)%Q ∧ (x < 1)%Q.

(* ================================================================== *)
(** * Asynchronous computations *)
(* ================================================================== *)

Module Async.

(** A transaction as [fundSingleWallet] builds it: compute unit limit,
    compute unit price, and one transfer. *)
Record Transaction := {
  computeUnitLimit : Z;
  computeUnitPrice : Z;
  fromPubkey : string;
  toPubkey : string;
  lamports : Z;
}.

(** A settled promise. *)
Inductive settled (A : Type) : Type :=
| Fulfilled (a : A)
| Rejected (e : string).
Arguments Fulfilled {A} a.
Arguments Rejected {A} e.

(** What a suspended call waits for, indexed by the type of the answer.
    - The operations of the collaborators settle with a value or reject.
    - [Delay ms] is the promise of [timers/promises], which is given no
      abort signal here: it fulfils and cannot reject.
    - [Microtask] is the [await] of a value that is already there: the
      call is suspended for one turn of the job queue.
    - [Select a b] is what two calls in flight wait for together: the
      answer tells which of the two requests completed, and how. *)
Inductive request : Type → Type :=
| LoadWallets : request (settled (list RawWallet))
| WriteWallets (ws : list Wallet) : request (settled unit)
| GetBalance (pk : string) : request (settled Z)
| SendTransaction (tx : Transaction) (signer : Keypair)
    : request (settled string)
| ConfirmTransaction (sig : string) : request (settled unit)
| Delay (ms : Q) : request unit
| Microtask : request unit
| Select {A B : Type} (a : request A) (b : request B) : request (A + B).

(** An [async] call over an object of type [W]: either it has settled,
    or it is suspended at an [await].  When the answer [a] arrives, the
    code up to the next [await] runs on the then-current object [w]:
    [upd a w] is the object it leaves, [next a w] the rest of the call. *)
Inductive task (W A : Type) : Type :=
| Done (r : settled A)
| Suspend {R : Type} (rq : request R) (upd : R → W → W)
    (next : R → W → task W A).
Arguments Done {W A} r.
Arguments Suspend {W A R} rq upd next.

(** [await rq] followed by the segment [seg]. *)
Definition Await {W A R} (rq : request R) (seg : R → W → W * task W A)
  : task W A :=
  Suspend rq (λ a w, fst (seg a w)) (λ a w, snd (seg a w)).

(** [await f()] for an [async] method [f] of the same object: the first
    segment of the callee has run when the caller is suspended; the
    caller resumes, with the segment [seg], when the callee has settled. *)
Fixpoint await_call {W A B} (t : task W B)
  (seg : settled B → W → W * task W A) : task W A :=
  match t with
  | Done r => Await Microtask (λ _ w, seg r w)
  | Suspend rq upd next =>
      Suspend rq upd (λ a w, await_call (next a w) seg)
  end.

(** Two calls in flight, both awaited: whenever one of the pending
    requests completes, the call that waits for it runs its next
    segment; the pair settles when both calls have. *)
Fixpoint both {W A B} (t1 : task W A) : task W B → task W
    (settled A * settled B) :=
  fix both_r (t2 : task W B) : task W (settled A * settled B) :=
    match t1, t2 with
    | Done r1, Done r2 => Done (Fulfilled (r1, r2))
    | Done r1, Suspend rq2 upd2 next2 =>
        Suspend rq2 upd2 (λ a w, both_r (next2 a w))
    | Suspend rq1 upd1 next1, Done r2 =>
        Suspend rq1 upd1 (λ a w, both (next1 a w) (Done r2))
    | Suspend rq1 upd1 next1, Suspend rq2 upd2 next2 =>
        Suspend (Select rq1 rq2)
          (λ a w, match a with
                  | inl a1 => upd1 a1 w
                  | inr a2 => upd2 a2 w
                  end)
          (λ a w, match a with
                  | inl a1 => both (next1 a1 w) t2
                  | inr a2 => both_r (next2 a2 w)
                  end)
    end.

(** The result of a settled call, transformed. *)
Fixpoint then_ {W A B} (f : settled A → settled B) (t : task W A) : task W B :=
  match t with
  | Done r => Done (f r)
  | Suspend rq upd next => Suspend rq upd (λ a w, then_ f (next a w))
  end.

(** [Promise.allSettled(calls)]: fulfils, with the list of outcomes, when
    every call has settled. *)
Fixpoint allSettled {W A} (calls : list (task W A)) : task W
    (list (settled A)) :=
  match calls with
  | [] => Done (Fulfilled [])
  | t :: rest =>
      then_ (λ r, match r with
                  | Fulfilled (r1, Fulfilled rs) => Fulfilled (r1 :: rs)
                  | Fulfilled (_, Rejected e) => Rejected e
                  | Rejected e => Rejected e
                  end)
            (both t (allSettled rest))
  end.

(** [batch.map(x => this.f(x))] for an [async] method [f]: the first
    segment of every call runs, in order, before any of them resumes. *)
Fixpoint callAll {W A B} (f : A → W → W * task W B) (batch : list A) (w : W)
  : list (task W B) * W :=
  match batch with
  | [] => ([], w)
  | x :: rest =>
      let '(w, t) := f x w in
      let '(ts, w) := callAll f rest w in
      (t :: ts, w)
  end.

(** A completed operation of a collaborator. *)
Definition event : Type := { R : Type & request R }.
Definition Ev {R} (rq : request R) : event := existT R rq.

(** The operations that an answer completes: one, or none for a turn of
    the job queue. *)
Fixpoint completed {R} (rq : request R) : R → list event :=
  match rq in request R return R → list event with
  | Select a b => λ ans,
      match ans with
      | inl x => completed a x
      | inr y => completed b y
      end
  | Microtask => λ _, []
  | other => λ _, [Ev other]
  end.

(** The environment of a run: the answer given at the [n]-th resumption
    (which request completes, when several are pending, and how). *)
Definition oracle : Type := nat → ∀ R, request R → R.

(** A call run to its end against an environment, from the [n]-th
    resumption on: the final object, the outcome, and the completed
    operations in order. *)
Fixpoint run {W A} (env : oracle) (t : task W A) (w : W) (n : nat)
  : W * settled A * list event :=
  match t with
  | Done r => (w, r, [])
  | Suspend rq upd next =>
      let a := env n _ rq in
      let '(w', r, tr) := run env (next a w) (upd a w) (S n) in
      (w', r, completed rq a ++ tr)
  end.

(** The balance queries and the transfers among completed operations. *)
Definition is_GetBalance (e : event) : bool :=
  match projT2 e with GetBalance _ => true | _ => false end.

Definition sent (e : event) : option Z :=
  match projT2 e with SendTransaction tx _ => Some (lamports tx) | _ => None end.

End Async.

(* ================================================================== *)
(** * [src/safety/CircuitBreaker.js] *)
(* ================================================================== *)

Module CircuitBreaker.
Import Async.

(** The fields of a [CircuitBreaker] object (the logger is only stored). *)
Record CircuitBreaker := {
  config : Config;
  consecutiveFailures : Z;
  recentTrades : list bool;
  initialSinkBalance : Z;
  checkCounter : Z;
}.

Definition constructor (cfg : Config) : CircuitBreaker := {|
  config := cfg;
  consecutiveFailures := 0;
  recentTrades := [];
  initialSinkBalance := 0;
  checkCounter := 0;
|}.

(** The value every check returns: [{ tripped, reason }]. *)
Record CheckResult := {
  tripped : bool;
  reason : string;
}.

Definition not_tripped : CheckResult := {| tripped := false; reason := "" |}.

Definition recordTradeResult (success : bool) (this : CircuitBreaker)
  : CircuitBreaker :=
  if negb (enableCircuitBreaker (config this)) then this
  else
    let pushed := recentTrades this ++ [success] in
    let trades :=
      if (failureRateWindow (config this) <? length pushed)%nat
      then JS.shift pushed else pushed in
    {| config := config this;
       consecutiveFailures :=
         if success then 0 else consecutiveFailures this + 1;
       recentTrades := trades;
       initialSinkBalance := initialSinkBalance this;
       checkCounter := checkCounter this |}.

Definition checkConsecutiveFailures (this : CircuitBreaker) : CheckResult :=
  if maxConsecutiveFailures (config this) <=? consecutiveFailures this then
    {| tripped := true;
       reason := "Circuit Breaker: "
                 +:+ JS.toString (consecutiveFailures this)
                 +:+ " consecutive failures" |}
  else not_tripped.

(** [recentTrades.filter(r => !r).length]. *)
Definition failures (trades : list bool) : nat :=
  length (filter (λ r, r = false) trades).

Definition failureRate (this : CircuitBreaker) : JS.number :=
  JS.div (inject_Z (Z.of_nat (failures (recentTrades this))))
         (inject_Z (Z.of_nat (length (recentTrades this)))).

Definition checkFailureRate (this : CircuitBreaker) : CheckResult :=
  if (failureRateWindow (config this) <=? length (recentTrades this))%nat then
    if JS.gtb (failureRate this) (maxFailureRate (config this)) then
      {| tripped := true;
         reason := "Circuit Breaker: "
                   +:+ JS.toFixed 1 (JS.scale (failureRate this) 100)
                   +:+ "% failure rate (last "
                   +:+ JS.toString (Z.of_nat (failureRateWindow (config this)))
                   +:+ " trades)" |}
    else not_tripped
  else not_tripped.

Definition bump_checkCounter (this : CircuitBreaker) : CircuitBreaker :=
  {| config := config this;
     consecutiveFailures := consecutiveFailures this;
     recentTrades := recentTrades this;
     initialSinkBalance := initialSinkBalance this;
     checkCounter := checkCounter this + 1 |}.

(** [this.checkCounter % SINK_BALANCE_CHECK_INTERVAL === 0]. *)
Definition due {constants : Constants} (this : CircuitBreaker) : bool :=
  match JS.rem (checkCounter this) SINK_BALANCE_CHECK_INTERVAL with
  | Some r => r =? 0
  | None => false
  end.

Definition checkEmergencyStopLoss {constants : Constants}
    (sinkKeypair : option Keypair)
  (this : CircuitBreaker) : CircuitBreaker * task CircuitBreaker CheckResult :=
  let this := bump_checkCounter this in
  match sinkKeypair with
  | Some sink =>
      if (0 <? initialSinkBalance this) && due this then
        (this, Await (GetBalance (publicKey sink)) (λ answer this,
          match answer with
          | Rejected e => (this, Done (Rejected e))
          | Fulfilled currentBalance =>
              let lossDecimal :=
                JS.div (inject_Z (initialSinkBalance this - currentBalance))
                       (inject_Z (initialSinkBalance this)) in
              if JS.gtb lossDecimal (emergencyStopLoss (config this)) then
                (this, Done (Fulfilled
                  {| tripped := true;
                     reason := "Circuit Breaker: "
                               +:+ JS.toFixed 1 (JS.scale lossDecimal 100)
                               +:+ "% loss from initial balance" |}))
              else (this, Done (Fulfilled not_tripped))
          end))
      else (this, Done (Fulfilled not_tripped))
  | None => (this, Done (Fulfilled not_tripped))
  end.

(** The loop over the three checks, unrolled; each [await check()]
    suspends the call, also when the check is synchronous. *)
Definition checkCircuitBreakers {constants : Constants}
    (sinkKeypair : option Keypair)
  (this : CircuitBreaker) : CircuitBreaker * task CircuitBreaker CheckResult :=
  if negb (enableCircuitBreaker (config this)) then
    (this, Done (Fulfilled not_tripped))
  else
    let result := checkConsecutiveFailures this in
    (this, Await Microtask (λ _ this,
      if tripped result then (this, Done (Fulfilled result))
      else
        let result := checkFailureRate this in
        (this, Await Microtask (λ _ this,
          if tripped result then (this, Done (Fulfilled result))
          else
            let '(this, call) := checkEmergencyStopLoss sinkKeypair this in
            (this, await_call call (λ settled this,
              match settled with
              | Rejected e => (this, Done (Rejected e))
              | Fulfilled result =>
                  if tripped result then (this, Done (Fulfilled result))
                  else (this, Done (Fulfilled not_tripped))
              end)))))).

(** The object after a sequence of reported outcomes, oldest first. *)
Definition recordAll (outcomes : list bool) (this : CircuitBreaker)
  : CircuitBreaker :=
  foldl (λ this success, recordTradeResult success this) this outcomes.

End CircuitBreaker.

(* ================================================================== *)
(** * [src/wallet/WalletManager.js] *)
(* ================================================================== *)

Module WalletManager.
Import Async.

(** The methods of the class: loading, normalization, generation,
    funding, shuffling, cooldown lengths and personalities; at the end
    of the module, the cleanup of old entries and the selection of the
    active batch. *)

(** What the methods log, by call site. *)
Inductive LogEntry : Type :=
| LoadedExisting (count : nat)
| Generating (remaining : Z)
| Generated (count target : nat)
| SinkLoaded
| NoSinkKey
| RelayersLoaded (count : nat)
| NoRelayerKeys
| SkippingFunding
| CheckingFunding (count : nat)
| FundingProgress (checked total : nat)
| Funded (walletName sol : string)
| FailedToFund (walletName error : string)
| FailedToLoadOrGenerate (error : string).

(** An entry of [activeWallets]. *)
Record ActiveWallet := {
  keypair : Keypair;
  activeName : string;
  activePubkey : string;
}.

(** The fields of a [WalletManager] object, and below them the ambient
    state its methods advance: the number of calls of [Math.random()]
    and of [Keypair.generate()] made so far, and the log.

    [allPubkeys] is a [Set]: a duplicate-free list in insertion order
    (the order in which [forEach] visits it).  [walletPersonalities]
    stores [PERSONALITIES[i]], which is [undefined] ([None]) when [i]
    is not an index of the table. *)
Record WalletManager := {
  config : Config;
  walletData : list Wallet;
  allPubkeys : list string;
  funded : gset string;
  activeWallets : list ActiveWallet;
  walletCooldowns : gmap string Q;
  walletTradeCount : gmap string Z;
  walletPersonalities : gmap string (option string);
  sinkKeypair : option Keypair;
  relayerKeypairs : list Keypair;
  randomCalls : nat;
  keypairsGenerated : nat;
  logged : list LogEntry;
}.

Definition constructor (cfg : Config) : WalletManager := {|
  config := cfg;
  walletData := [];
  allPubkeys := [];
  funded := ∅;
  activeWallets := [];
  walletCooldowns := ∅;
  walletTradeCount := ∅;
  walletPersonalities := ∅;
  sinkKeypair := None;
  relayerKeypairs := [];
  randomCalls := 0;
  keypairsGenerated := 0;
  logged := [];
|}.

(** Field assignments. *)
Definition set_config (v : Config) (this : WalletManager) : WalletManager :=
  Build_WalletManager v (walletData this) (allPubkeys this) (funded this)
    (activeWallets this) (walletCooldowns this) (walletTradeCount this)
    (walletPersonalities this) (sinkKeypair this) (relayerKeypairs this)
    (randomCalls this) (keypairsGenerated this) (logged this).

Definition set_walletData (v : list Wallet) (this : WalletManager)
    : WalletManager :=
  Build_WalletManager (config this) v (allPubkeys this) (funded this)
    (activeWallets this) (walletCooldowns this) (walletTradeCount this)
    (walletPersonalities this) (sinkKeypair this) (relayerKeypairs this)
    (randomCalls this) (keypairsGenerated this) (logged this).

Definition set_allPubkeys (v : list string) (this : WalletManager)
    : WalletManager :=
  Build_WalletManager (config this) (walletData this) v (funded this)
    (activeWallets this) (walletCooldowns this) (walletTradeCount this)
    (walletPersonalities this) (sinkKeypair this) (relayerKeypairs this)
    (randomCalls this) (keypairsGenerated this) (logged this).

Definition set_funded (v : gset string) (this : WalletManager)
    : WalletManager :=
  Build_WalletManager (config this) (walletData this) (allPubkeys this) v
    (activeWallets this) (walletCooldowns this) (walletTradeCount this)
    (walletPersonalities this) (sinkKeypair this) (relayerKeypairs this)
    (randomCalls this) (keypairsGenerated this) (logged this).

Definition set_walletCooldowns (v : gmap string Q) (this : WalletManager)
    : WalletManager :=
  Build_WalletManager (config this) (walletData this) (allPubkeys this)
    (funded this) (activeWallets this) v (walletTradeCount this)
    (walletPersonalities this) (sinkKeypair this) (relayerKeypairs this)
    (randomCalls this) (keypairsGenerated this) (logged this).

Definition set_walletTradeCount (v : gmap string Z) (this : WalletManager)
    : WalletManager :=
  Build_WalletManager (config this) (walletData this) (allPubkeys this)
    (funded this) (activeWallets this) (walletCooldowns this) v
    (walletPersonalities this) (sinkKeypair this) (relayerKeypairs this)
    (randomCalls this) (keypairsGenerated this) (logged this).

Definition set_walletPersonalities (v : gmap string (option string))
  (this : WalletManager) : WalletManager :=
  Build_WalletManager (config this) (walletData this) (allPubkeys this)
    (funded this) (activeWallets this) (walletCooldowns this)
    (walletTradeCount this) v (sinkKeypair this) (relayerKeypairs this)
    (randomCalls this) (keypairsGenerated this) (logged this).

Definition set_sinkKeypair (v : option Keypair) (this : WalletManager)
    : WalletManager :=
  Build_WalletManager (config this) (walletData this) (allPubkeys this)
    (funded this) (activeWallets this) (walletCooldowns this)
    (walletTradeCount this) (walletPersonalities this) v (relayerKeypairs this)
    (randomCalls this) (keypairsGenerated this) (logged this).

Definition set_relayerKeypairs (v : list Keypair) (this : WalletManager)
    : WalletManager :=
  Build_WalletManager (config this) (walletData this) (allPubkeys this)
    (funded this) (activeWallets this) (walletCooldowns this)
    (walletTradeCount this) (walletPersonalities this) (sinkKeypair this) v
    (randomCalls this) (keypairsGenerated this) (logged this).

Definition set_randomCalls (v : nat) (this : WalletManager) : WalletManager :=
  Build_WalletManager (config this) (walletData this) (allPubkeys this)
    (funded this) (activeWallets this) (walletCooldowns this)
    (walletTradeCount this) (walletPersonalities this) (sinkKeypair this)
    (relayerKeypairs this) v (keypairsGenerated this) (logged this).

Definition set_keypairsGenerated (v : nat) (this : WalletManager)
    : WalletManager :=
  Build_WalletManager (config this) (walletData this) (allPubkeys this)
    (funded this) (activeWallets this) (walletCooldowns this)
    (walletTradeCount this) (walletPersonalities this) (sinkKeypair this)
    (relayerKeypairs this) (randomCalls this) v (logged this).

Definition log (entry : LogEntry) (this : WalletManager) : WalletManager :=
  Build_WalletManager (config this) (walletData this) (allPubkeys this)
    (funded this) (activeWallets this) (walletCooldowns this)
    (walletTradeCount this) (walletPersonalities this) (sinkKeypair this)
    (relayerKeypairs this) (randomCalls this) (keypairsGenerated this)
    (logged this ++ [entry]).

(** [Math.random()]. *)
Definition random {runtime : Runtime} (this : WalletManager)
    : Q * WalletManager :=
  (Math_random (randomCalls this), set_randomCalls (S (randomCalls this)) this).

(** [Keypair.generate()]. *)
Definition generate {runtime : Runtime} (this : WalletManager)
    : Keypair * WalletManager :=
  (Keypair_generate (keypairsGenerated this),
   set_keypairsGenerated (S (keypairsGenerated this)) this).

(** [set.add(x)] on a [Set] in insertion order. *)
Definition Set_add (x : string) (s : list string) : list string :=
  if decide (x ∈ s) then s else s ++ [x].

(** [new Set(xs)]. *)
Definition Set_of (xs : list string) : list string :=
  foldl (λ s x, Set_add x s) [] xs.

(** [arr[j]] for a number [j]: [undefined] outside the array. *)
Definition index {A} (l : list A) (j : Z) : option A :=
  if j <? 0 then None else l !! Z.to_nat j.

(** ** Normalization *)

(** One record of [normalizeWalletData]; [None] when the key pair cannot
    be derived from the private key (the library throws). *)
Definition normalize {runtime : Runtime} (w : RawWallet) : option Wallet :=
  let rest (pk : string) : Wallet :=
    {| pubkey := pk;
       privateKey := raw_privateKey w;
       name := JS.or_string (raw_name w) "Wallet";
       isSeasoned := JS.or_false (raw_isSeasoned w) |} in
  let first := JS.or_string (raw_pubkey w) (JS.or_string (raw_publicKey w) "") in
  if decide (first = "") then
    kp ← Keypair_fromSecretKey (raw_privateKey w);
    Some (rest (publicKey kp))
  else Some (rest first).

(** [normalizeWalletData] on the records just loaded. *)
Definition normalizeWalletData {runtime : Runtime} (loaded : list RawWallet)
  (this : WalletManager) : option WalletManager :=
  ws ← mapM normalize loaded;
  Some (set_walletData ws this).

(** ** Special wallets and scaling *)

(** The error of [Keypair.fromSecretKey] on a malformed key. *)
Definition bad_secret_key : string := "bad secret key size".

(** [loadSpecialWallets]: the object it leaves, and the error when a key
    of the configuration is malformed (the method throws). *)
Definition loadSpecialWallets {runtime : Runtime} (this : WalletManager)
  : WalletManager * option string :=
  let sink :=
    match sinkPrivateKey (config this) with
    | Some key =>
        match Keypair_fromSecretKey key with
        | Some kp => (log SinkLoaded (set_sinkKeypair (Some kp) this), None)
        | None => (this, Some bad_secret_key)
        end
    | None => (log NoSinkKey this, None)
    end in
  match sink with
  | (this, Some e) => (this, Some e)
  | (this, None) =>
      match relayerPrivateKeys (config this) with
      | Some (key :: keys) =>
          match mapM Keypair_fromSecretKey (key :: keys) with
          | Some kps =>
              (log (RelayersLoaded (length kps)) (set_relayerKeypairs kps this),
               None)
          | None => (this, Some bad_secret_key)
          end
      | _ => (log NoRelayerKeys this, None)
      end
  end.

Definition adjustConcurrency (this : WalletManager) : WalletManager :=
  let n := Z.of_nat (length (walletData this)) in
  let cfg := config this in
  let cfg := {|
    enableCircuitBreaker := enableCircuitBreaker cfg;
    maxConsecutiveFailures := maxConsecutiveFailures cfg;
    failureRateWindow := failureRateWindow cfg;
    maxFailureRate := maxFailureRate cfg;
    emergencyStopLoss := emergencyStopLoss cfg;
    numWalletsToGenerate := numWalletsToGenerate cfg;
    fundAmount := fundAmount cfg;
    minWalletCooldownMs := minWalletCooldownMs cfg;
    maxWalletCooldownMs := maxWalletCooldownMs cfg;
    autoScale := autoScale cfg;
    concurrency := Z.min 50 (Z.max 3 (n / 200 + 3));
    batchSize := Z.min 20 (Z.max 2 (n / 300 + 2));
    sinkPrivateKey := sinkPrivateKey cfg;
    relayerPrivateKeys := relayerPrivateKeys cfg;
  |} in
  set_config cfg this.

(** ** Funding parts *)

(** [calculateFundingPart(remaining, remainingParts)].  [BN] arithmetic is
    integer arithmetic; [div] truncates.  ([remainingParts] is never 0
    where the method is called.) *)
Definition calculateFundingPart {constants : Constants} {runtime : Runtime}
    (remaining remainingParts : Z)
  (this : WalletManager) : Z * WalletManager :=
  let '(r, this) := random this in
  let factor := JS.Math_floor ((0.6 + r * 0.8) * 1000)%Q in
  let basePart := (remaining * factor) ÷ 1000 ÷ remainingParts in
  let partNum := Z.max basePart MIN_SOL_BUFFER_LAMPORTS_BN in
  (Z.min partNum remaining, this).

(** ** Shuffling *)

(** Arrays are mutable objects: a store maps the address of an array to
    its elements, so that a copy and its original can be told apart. *)
Abbreviation store A := (gmap nat (list A)) (only parsing).

(** [[a[i], a[j]] = [a[j], a[i]]] on the elements of an array, for two
    indices of the array.  (An index outside the array would store
    [undefined] and could grow the array; arrays of the embedding have
    no holes: [None].) *)
Definition swap {A} (a : list A) (i : nat) (j : Z) : option (list A) :=
  x ← a !! i;
  y ← index a j;
  Some (<[Z.to_nat j := x]> (<[i := y]> a)).

(** The loop of [shuffleArray] on the array at address [shuffled], from
    index [i] down to 1. *)
Fixpoint shuffleFrom {runtime : Runtime} {A} (i : nat) (shuffled : nat)
    (arrays : store A)
  (this : WalletManager) : option (store A) * WalletManager :=
  match i with
  | O => (Some arrays, this)
  | S i' =>
      let '(r, this) := random this in
      let j := JS.Math_floor (r * inject_Z (Z.of_nat i + 1))%Q in
      match arrays !! shuffled ≫= λ a, swap a i j with
      | Some a => shuffleFrom i' shuffled (<[shuffled := a]> arrays) this
      | None => (None, this)
      end
  end.

(** [shuffleArray(array)] for the array at address [array]: the address
    of the result and the store it leaves.  [[...array]] allocates the
    copy at an address not in use. *)
Definition shuffleArray {runtime : Runtime} {A} (array : nat) (arrays : store A)
  (this : WalletManager) : option (nat * store A) * WalletManager :=
  match arrays !! array with
  | None => (None, this)
  | Some a =>
      let shuffled := fresh (dom arrays) in
      let arrays := <[shuffled := a]> arrays in
      match shuffleFrom (length a - 1) shuffled arrays this with
      | (Some arrays, this) => (Some (shuffled, arrays), this)
      | (None, this) => (None, this)
      end
  end.

(** ** Cooldowns *)

Definition getWalletCooldown {runtime : Runtime} (walletKey : string)
    (this : WalletManager)
  : Z * WalletManager :=
  let tradeCount := JS.or_zero (walletTradeCount this !! walletKey) in
  let cooldownMultiplier := (1 + inject_Z (Z.rem tradeCount 5) * 0.2)%Q in
  let '(baseCooldown, calls) :=
    getRandomNumberBetween (minWalletCooldownMs (config this))
      (maxWalletCooldownMs (config this)) (randomCalls this) in
  (JS.Math_floor (baseCooldown * cooldownMultiplier)%Q, set_randomCalls calls this).

(** [markWalletUsed(wallet)], at time [now = Date.now()]. *)
Definition markWalletUsed (wallet : ActiveWallet) (now : Q)
    (this : WalletManager)
  : WalletManager :=
  let walletKey := publicKey (keypair wallet) in
  let this := set_walletCooldowns (<[walletKey := now]> (walletCooldowns this)) this in
  set_walletTradeCount
    (<[walletKey := JS.or_zero (walletTradeCount this !! walletKey) + 1]>
       (walletTradeCount this)) this.

(** ** Personalities *)

Definition assignPersonality {constants : Constants} {runtime : Runtime}
    (this : WalletManager)
  (pubkey : string) : WalletManager :=
  let '(r, this) := random this in
  let i := JS.Math_floor (r * inject_Z (Z.of_nat (length PERSONALITIES)))%Q in
  set_walletPersonalities
    (<[pubkey := index PERSONALITIES i]> (walletPersonalities this)) this.

Definition assignPersonalities {constants : Constants} {runtime : Runtime}
    (this : WalletManager)
  : WalletManager :=
  foldl assignPersonality this (allPubkeys this).

Definition getPersonality (pubkey : string) (this : WalletManager) : string :=
  JS.or_string (mjoin (walletPersonalities this !! pubkey)) "flipper".

(** ** Generation *)

(** [Array.from({ length: size }, () => ...)]: [size] fresh records, all
    named by the expression evaluated before the batch is pushed. *)
Fixpoint newWallets {runtime : Runtime} (size : nat) (walletName : string)
  (this : WalletManager) : list Wallet * WalletManager :=
  match size with
  | O => ([], this)
  | S size' =>
      let '(kp, this) := generate this in
      let '(rest, this) := newWallets size' walletName this in
      ({| pubkey := publicKey kp;
          privateKey := secretKey kp;
          name := walletName;
          isSeasoned := false |} :: rest, this)
  end.

(** [await this.walletDataLoader.writeWallets(this.walletData)]. *)
Definition writeWallets (this : WalletManager)
  : WalletManager * task WalletManager unit :=
  (this, Await (WriteWallets (walletData this)) (λ answer this,
    match answer with
    | Rejected e => (this, Done (Rejected e))
    | Fulfilled _ => (this, Done (Fulfilled tt))
    end)).

(** One iteration of the loop of [generateWallets], at offset [i], up to
    its [await]. *)
Definition generateBatch {runtime : Runtime} (i remaining : Z)
  (this : WalletManager) : WalletManager :=
  let batchSize := 1000 in
  let size := Z.min batchSize (remaining - i) in
  let walletName :=
    "Wallet" +:+ JS.toString (Z.of_nat (length (walletData this)) + i + 1) in
  let '(batch, this) := newWallets (Z.to_nat size) walletName this in
  let this :=
    set_allPubkeys
      (foldl (λ s w, Set_add (pubkey w) s) (allPubkeys this) batch) this in
  let this := set_walletData (walletData this ++ batch) this in
  log (Generated (length (walletData this))
         (numWalletsToGenerate (config this))) this.

(** The loop of [generateWallets] from offset [i] on.  [fuel] bounds the
    number of iterations; [generateWallets] passes [remaining], and the
    offset grows by 1000 per iteration. *)
Fixpoint generateBatches {runtime : Runtime} (fuel : nat) (i remaining : Z)
  (this : WalletManager) : WalletManager * task WalletManager unit :=
  match fuel with
  | O => writeWallets this
  | S fuel' =>
      if i <? remaining then
        (generateBatch i remaining this, Await (Delay 10) (λ _ this,
          generateBatches fuel' (i + 1000) remaining this))
      else writeWallets this
  end.

Definition generateWallets {runtime : Runtime} (this : WalletManager)
  : WalletManager * task WalletManager unit :=
  let remaining :=
    Z.of_nat (numWalletsToGenerate (config this))
    - Z.of_nat (length (walletData this)) in
  let this := log (Generating remaining) this in
  generateBatches (Z.to_nat remaining) 0 remaining this.

(** ** Funding *)

(** The [catch] block of [fundSingleWallet]: the failure is logged and
    the call fulfils; the funded set is left as it is. *)
Definition failedToFund (wallet : Wallet) (e : string) (this : WalletManager)
  : WalletManager * task WalletManager unit :=
  (log (FailedToFund (name wallet) e) this, Done (Fulfilled tt)).

(** Errors thrown inside the [try] block by the libraries. *)
Definition no_relayer : string := "Cannot read properties of undefined".
Definition unsafe_number
    : string := "Number can only safely store up to 53 bits".

(** The loop of [fundSingleWallet] with [left = parts - p] iterations to
    go. *)
Fixpoint fundParts {constants : Constants} {runtime : Runtime} (wallet : Wallet)
    (kp : Keypair)
  (left : nat) (remaining : Z) (this : WalletManager)
  : WalletManager * task WalletManager unit :=
  match left with
  | O => (this, Done (Fulfilled tt))
  | S left' =>
      if MIN_SOL_BUFFER_LAMPORTS_BN <? remaining then
        let '(cappedPart, this) :=
          calculateFundingPart remaining (Z.of_nat left) this in
        let '(r, this) := random this in
        let i := JS.Math_floor (r * inject_Z (Z.of_nat (length (relayerKeypairs this))))%Q in
        match index (relayerKeypairs this) i with
        | None => failedToFund wallet no_relayer this
        | Some relayer =>
            let tx := {|
              computeUnitLimit := 25000;
              computeUnitPrice := PRIORITY_FEE_MICRO_LAMPORTS;
              fromPubkey := publicKey relayer;
              toPubkey := publicKey kp;
              lamports := cappedPart;
            |} in
            (this, Await (SendTransaction tx relayer) (λ answer this,
              match answer with
              | Rejected e => failedToFund wallet e this
              | Fulfilled sig =>
                (this, Await (ConfirmTransaction sig) (λ answer this,
                  match answer with
                  | Rejected e => failedToFund wallet e this
                  | Fulfilled _ =>
                    (* [cappedPart.toNumber()] throws from 2^53 on *)
                    if 2 ^ 53 <=? Z.abs cappedPart then
                      failedToFund wallet unsafe_number this
                    else
                      let sol :=
                        JS.toFixedQ 4 (inject_Z cappedPart / inject_Z LAMPORTS_PER_SOL)%Q in
                      let this := log (Funded (name wallet) sol) this in
                      let remaining := remaining - cappedPart in
                      let '(r, this) := random this in
                      (this, Await (Delay (1000 + r * 2000)%Q) (λ _ this,
                        fundParts wallet kp left' remaining this))
                  end))
              end))
        end
      else (this, Done (Fulfilled tt))
  end.

(** [fundAmount], in lamports. *)
Definition fundAmountLamports (this : WalletManager) : Z :=
  JS.Math_floor (fundAmount (config this) * inject_Z LAMPORTS_PER_SOL)%Q.

Definition fundSingleWallet {constants : Constants} {runtime : Runtime}
    (wallet : Wallet)
  (this : WalletManager) : WalletManager * task WalletManager unit :=
  if decide (pubkey wallet ∈ funded this) then (this, Done (Fulfilled tt))
  else
    let this := set_funded ({[pubkey wallet]} ∪ funded this) this in
    match Keypair_fromSecretKey (privateKey wallet) with
    | None => (this, Done (Rejected bad_secret_key))
    | Some kp =>
        (this, Await (GetBalance (publicKey kp)) (λ answer this,
          match answer with
          | Rejected e => failedToFund wallet e this
          | Fulfilled balance =>
              let threshold := (fundAmountLamports this * 8) ÷ 10 in
              if threshold <=? balance then (this, Done (Fulfilled tt))
              else
                let remaining := fundAmountLamports this - balance in
                let '(r, this) := random this in
                let parts := JS.Math_floor (r * 4)%Q + 1 in
                fundParts wallet kp (Z.to_nat parts) remaining this
          end))
    end.

(** One iteration of the loop of [fundWalletsInParallel], at offset [i],
    up to its [await]: the calls for the batch, and the object their
    first segments leave. *)
Definition fundBatch {constants : Constants} {runtime : Runtime} (i : nat)
  (toCheck : list Wallet) (this : WalletManager)
  : list (task WalletManager unit) * WalletManager :=
  let fundBatchSize := 50%nat in
  let batch := JS.slice i (i + fundBatchSize) toCheck in
  callAll fundSingleWallet batch this.

(** The loop of [fundWalletsInParallel] from offset [i] on; [fuel] bounds
    the number of iterations ([fundWalletsInParallel] passes the length
    of [toCheck], and the offset grows by 50 per iteration). *)
Fixpoint fundBatches {constants : Constants} {runtime : Runtime} (fuel i : nat)
  (toCheck : list Wallet) (this : WalletManager)
  : WalletManager * task WalletManager unit :=
  match fuel with
  | O => (this, Done (Fulfilled tt))
  | S fuel' =>
      if (i <? length toCheck)%nat then
        ((fundBatch i toCheck this).2,
         await_call (allSettled (fundBatch i toCheck this).1) (λ _ this,
           let this :=
             log (FundingProgress (Nat.min (i + 50) (length toCheck))
                    (length toCheck)) this in
           fundBatches fuel' (i + 50)%nat toCheck this))
      else (this, Done (Fulfilled tt))
  end.

Definition fundWalletsInParallel {constants : Constants} {runtime : Runtime}
    (this : WalletManager)
  : WalletManager * task WalletManager unit :=
  match relayerKeypairs this with
  | [] => (log SkippingFunding this, Done (Fulfilled tt))
  | _ =>
      let this := log (CheckingFunding (length (walletData this))) this in
      let toCheck := filter (λ w, pubkey w ∉ funded this) (walletData this) in
      fundBatches (length toCheck) 0 toCheck this
  end.

(** ** Loading *)

(** The [catch] block of [loadOrGenerateWallets]: log and rethrow. *)
Definition failedToLoad (e : string) (this : WalletManager)
  : WalletManager * task WalletManager unit :=
  (log (FailedToLoadOrGenerate e) this, Done (Rejected e)).

(** [loadOrGenerateWallets] from [loadSpecialWallets()] on. *)
Definition loadRest {constants : Constants} {runtime : Runtime}
    (this : WalletManager)
  : WalletManager * task WalletManager unit :=
  match loadSpecialWallets this with
  | (this, Some e) => failedToLoad e this
  | (this, None) =>
      let this := if autoScale (config this) then adjustConcurrency this else this in
      let '(this, call) := fundWalletsInParallel this in
      (this, await_call call (λ outcome this,
        match outcome with
        | Rejected e => failedToLoad e this
        | Fulfilled _ => (this, Done (Fulfilled tt))
        end))
  end.

(** [loadOrGenerateWallets].  (When normalization throws, the records
    stay in [walletData] as they were loaded; the embedding, whose
    [walletData] holds normalized records only, leaves the field as it
    was.) *)
Definition loadOrGenerateWallets {constants : Constants} {runtime : Runtime}
    (this : WalletManager)
  : WalletManager * task WalletManager unit :=
  (this, Await LoadWallets (λ answer this,
    match answer with
    | Rejected e => failedToLoad e this
    | Fulfilled loaded =>
        match normalizeWalletData loaded this with
        | None => failedToLoad bad_secret_key this
        | Some this =>
            let this := set_allPubkeys (Set_of (map pubkey (walletData this))) this in
            let this := log (LoadedExisting (length (walletData this))) this in
            if (length (walletData this) <? numWalletsToGenerate (config this))%nat then
              let '(this, call) := generateWallets this in
              (this, await_call call (λ outcome this,
                match outcome with
                | Rejected e => failedToLoad e this
                | Fulfilled _ => loadRest this
                end))
            else loadRest this
        end
    end)).

(** ** Cleaning up *)

(** Two more constants of [constants.js]. *)
Class CleanupConstants := {
  MAX_COOLDOWN_AGE_MS : Q;
  WALLET_CLEANUP_CHANCE : Q;
}.

(** The two options of [ConfigManager] that only [loadActiveBatch]
    reads ([this.config.enableSeasoning], [this.config.shuffleWallets]);
    no method assigns them. *)
Record BatchOptions := {
  enableSeasoning : bool;
  shuffleWallets : bool;
}.

(** What [cleanupOldCooldowns] and [loadActiveBatch] log, by call site;
    the methods below return the entries they log. *)
Inductive BatchLogEntry : Type :=
| CleanedTradeCounts (cleanedWallets totalWallets : nat)
| DeepCleanup (removedWallets remainingActive : nat)
| NeedSeasoning (totalWallets unseasonedWallets seasonedWallets : nat)
| NoWalletsReady
| LoadedBatch (count pool total : nat) (requireSeasoning : bool)
    (seasonedWallets unseasonedEligible : nat).

Definition set_activeWallets (v : list ActiveWallet) (this : WalletManager)
    : WalletManager :=
  Build_WalletManager (config this) (walletData this) (allPubkeys this)
    (funded this) v (walletCooldowns this) (walletTradeCount this)
    (walletPersonalities this) (sinkKeypair this) (relayerKeypairs this)
    (randomCalls this) (keypairsGenerated this) (logged this).

(** [a > b], [a < b] and [a >= b] on finite numbers. *)
Definition above (a b : Q) : bool := negb (Qle_bool a b).
Definition below (a b : Q) : bool := above b a.
Definition atLeast (a b : Q) : bool := Qle_bool b a.

(** The loop that collects the keys whose time stamp is more than
    [threshold] before [now].  (A [Map] is visited in the order of
    insertion, which a [gmap] does not keep; the methods use the keys
    collected only to delete them and to count them.) *)
Definition olderThan (threshold now : Q) (stamps : gmap string Q)
    : list string :=
  (filter (λ entry, above (now - entry.2) threshold = true)
     (map_to_list stamps)).*1.

(** [for (const key of keys) map.delete(key)]. *)
Definition deleteAll {V} (keys : list string) (m : gmap string V)
    : gmap string V :=
  foldl (λ m key, delete key m) m keys.

(** The loop over the trade counts: a count above 1000 is set to 1000;
    the map it leaves and the number of counts it has set. *)
Definition capTradeCounts (counts : gmap string Z) : gmap string Z * nat :=
  foldl (λ '(m, cleanedCount) '(key, count),
           if 1000 <? count then (<[key := 1000]> m, S cleanedCount)
           else (m, cleanedCount))
        (counts, 0%nat) (map_to_list counts).

(** [cleanupOldCooldowns(now)]: the object it leaves and what it logs. *)
Definition cleanupOldCooldowns {cleanup : CleanupConstants}
    {runtime : Runtime} (now : Q) (this : WalletManager)
  : WalletManager * list BatchLogEntry :=
  let cleanupThreshold := MAX_COOLDOWN_AGE_MS in
  let entriesToDelete := olderThan cleanupThreshold now (walletCooldowns this) in
  let this :=
    set_walletCooldowns (deleteAll entriesToDelete (walletCooldowns this)) this in
  let '(r, this) := random this in
  let '(this, entries) :=
    if below r WALLET_CLEANUP_CHANCE then
      let '(counts, cleanedCount) := capTradeCounts (walletTradeCount this) in
      let this := set_walletTradeCount counts this in
      (this,
       if (10 <? cleanedCount)%nat
       then [CleanedTradeCounts cleanedCount (size (walletTradeCount this))]
       else [])
    else (this, []) in
  let '(r, this) := random this in
  if below r 0.001%Q then
    let inactiveThreshold := (7 * 24 * 60 * 60 * 1000)%Q in
    let inactiveWallets :=
      olderThan inactiveThreshold now (walletCooldowns this) in
    if (100 <? length inactiveWallets)%nat then
      let this :=
        set_walletCooldowns
          (deleteAll inactiveWallets (walletCooldowns this)) this in
      let this :=
        set_walletTradeCount
          (deleteAll inactiveWallets (walletTradeCount this)) this in
      (this,
       entries ++ [DeepCleanup (length inactiveWallets)
                     (size (walletCooldowns this))])
    else (this, entries)
  else (this, entries).

(** ** Active batches *)

(** The callback of [walletData.filter] in [loadActiveBatch]:
    [getWalletCooldown] is called for every record, seasoned or not. *)
Definition isReady {runtime : Runtime} (requireSeasoning : bool) (now : Q)
    (w : Wallet) (this : WalletManager) : bool * WalletManager :=
  let lastTrade := default 0%Q (walletCooldowns this !! pubkey w) in
  let '(cooldown, this) := getWalletCooldown (pubkey w) this in
  let cooldownPassed := atLeast (now - lastTrade) (inject_Z cooldown) in
  let isSeasoned := negb requireSeasoning || isSeasoned w in
  (cooldownPassed && isSeasoned, this).

(** [walletData.filter(w => ...)] with that callback. *)
Fixpoint filterReady {runtime : Runtime} (requireSeasoning : bool) (now : Q)
    (ws : list Wallet) (this : WalletManager) : list Wallet * WalletManager :=
  match ws with
  | [] => ([], this)
  | w :: rest =>
      let '(keep, this) := isReady requireSeasoning now w this in
      let '(kept, this) := filterReady requireSeasoning now rest this in
      (if keep then w :: kept else kept, this)
  end.

(** [arr.slice(0, end)] for an integer [end]: a negative [end] counts
    from the end of the array. *)
Definition sliceTo {A} (e : Z) (l : list A) : list A :=
  if e <? 0 then take (Z.to_nat (Z.of_nat (length l) + e)) l
  else take (Z.to_nat e) l.

(** The callback of [selected.map] in [loadActiveBatch]; [None] when the
    library throws on the private key. *)
Definition activate {runtime : Runtime} (w : Wallet) : option ActiveWallet :=
  kp ← Keypair_fromSecretKey (privateKey w);
  Some {| keypair := kp;
          activeName := JS.or_string (Some (name w))
                          (String.substring 0 6 (pubkey w));
          activePubkey := pubkey w |}.

(** [loadActiveBatch()], called at time [now = Date.now()]: the object
    it leaves, the outcome of the promise it returns (the method awaits
    nothing: the promise is settled when the call returns), and what it
    logs.  The result is [None] where [shuffleArray] is (a draw that is
    no index of the array). *)
Definition loadActiveBatch {cleanup : CleanupConstants} {runtime : Runtime}
    (options : BatchOptions) (now : Q) (this : WalletManager)
  : option (WalletManager * settled (list ActiveWallet) * list BatchLogEntry) :=
  let '(this, entries) := cleanupOldCooldowns now this in
  let requireSeasoning := enableSeasoning options in
  let '(ready, this) :=
    filterReady requireSeasoning now (walletData this) this in
  match ready with
  | [] =>
      let entry :=
        if requireSeasoning then
          let unseasonedCount :=
            length (filter (λ w, isSeasoned w = false) (walletData this)) in
          NeedSeasoning (length (walletData this)) unseasonedCount
            (length (walletData this) - unseasonedCount)
        else NoWalletsReady in
      Some (this, Fulfilled [], entries ++ [entry])
  | _ =>
      let '(shuffled, this) :=
        if shuffleWallets options then
          match shuffleArray 0 {[ 0%nat := ready ]} this with
          | (Some (address, arrays), this) => (arrays !! address, this)
          | (None, this) => (None, this)
          end
        else (Some ready, this) in
      shuffled ← shuffled;
      let selected := sliceTo (batchSize (config this)) shuffled in
      match mapM activate selected with
      | None => Some (this, Rejected bad_secret_key, entries)
      | Some active =>
          let this := set_activeWallets active this in
          Some (this, Fulfilled active,
                entries
                ++ [LoadedBatch (length active) (length ready)
                      (length (walletData this)) requireSeasoning
                      (length (filter (λ w, isSeasoned w = true) ready))
                      (length (filter (λ w, isSeasoned w = false) ready))])
      end
  end.

End WalletManager.

(* ================================================================== *)
(** * Environments and constants for concrete runs *)
(* ================================================================== *)

Module Scenarios.
Import Async.

(** An environment in which every operation succeeds (with balance 0),
    and the first of two pending requests completes first. *)
Fixpoint succeed {R} (rq : request R) : R :=
  match rq in request R return R with
  | LoadWallets => Fulfilled []
  | WriteWallets _ => Fulfilled tt
  | GetBalance _ => Fulfilled 0
  | SendTransaction _ _ => Fulfilled "signature"
  | ConfirmTransaction _ => Fulfilled tt
  | Delay _ => tt
  | Microtask => tt
  | Select a _ => inl (succeed a)
  end.

Definition calm : oracle := λ _ R rq, succeed rq.

Definition sample_constants : Constants := {|
  SINK_BALANCE_CHECK_INTERVAL := 10;
  MIN_SOL_BUFFER_LAMPORTS_BN := 10;
  PRIORITY_FEE_MICRO_LAMPORTS := 1000;
  PERSONALITIES := ["flipper"; "hodler"];
|}.

(** A runtime whose random draws are all [r], whose [k]-th generated key
    is named after [k], which derives the public key [pk] from every
    secret key, and whose [getRandomNumberBetween] makes one draw and
    returns [min + r * (max - min)]. *)
Definition constant_runtime (r : Q) (pk : string) : Runtime := {|
  Math_random := λ _, r;
  Keypair_generate := λ k : nat,
    {| publicKey := "key" +:+ pretty k; secretKey := [] |};
  Keypair_fromSecretKey := λ key, Some {| publicKey := pk; secretKey := key |};
  getRandomNumberBetween := λ min max calls, ((min + r * (max - min))%Q, S calls);
|}.

(** A configuration of the wallet manager: the target pool size, the
    funding target in SOL, the cooldown bounds and the relayer keys. *)
Definition pool_config (target : nat) (fund lo hi : Q)
    (relayers : option (list (list Byte.byte))) : Config := {|
  enableCircuitBreaker := true;
  maxConsecutiveFailures := 5;
  failureRateWindow := 10;
  maxFailureRate := 0.3;
  emergencyStopLoss := 0.5;
  numWalletsToGenerate := target;
  fundAmount := fund;
  minWalletCooldownMs := lo;
  maxWalletCooldownMs := hi;
  autoScale := true;
  concurrency := 3;
  batchSize := 2;
  sinkPrivateKey := None;
  relayerPrivateKeys := relayers;
|}.

End Scenarios.

(* ================================================================== *)
(** * Properties of the circuit breaker *)
(* ================================================================== *)

Module CircuitBreakerFacts.
Import Async CircuitBreaker Scenarios.

(** ** Arithmetic of the number model *)

Lemma gtb_Num (q y : Q) : JS.gtb (JS.Num q) y = true ↔ (y < q)%Q.
Proof.
  unfold JS.gtb. rewrite negb_true_iff, <- not_true_iff_false, Qle_bool_iff.
  split; [apply Qnot_le_lt | apply Qlt_not_le].
Qed.

Lemma div_by_length (f n : nat) :
  JS.div (inject_Z (Z.of_nat f)) (inject_Z (Z.of_nat n))
  = match n with
    | O => if decide (f = O) then JS.NaN else JS.Infinity false
    | S _ => JS.Num (inject_Z (Z.of_nat f) / inject_Z (Z.of_nat n))
    end.
Proof.
  unfold JS.div, Qeq_bool, Qle_bool. cbn [Qnum Qden inject_Z].
  destruct n as [|n].
  - destruct f; [done|]. by rewrite !Z.mul_1_r.
  - rewrite Z.mul_1_r. change (0 * 1) with 0.
    by destruct (Z.eqb_spec (Z.of_nat (S n)) 0); [lia|].
Qed.

(** ** Reported outcomes *)

Lemma recordAll_snoc (outcomes : list bool) (success : bool)
    (this : CircuitBreaker) :
  recordAll (outcomes ++ [success]) this
  = recordTradeResult success (recordAll outcomes this).
Proof. unfold recordAll. by rewrite foldl_app. Qed.

Lemma recordTradeResult_config (success : bool) (this : CircuitBreaker) :
  config (recordTradeResult success this) = config this.
Proof. unfold recordTradeResult. by destruct (negb _). Qed.

Lemma recordAll_config (outcomes : list bool) (this : CircuitBreaker) :
  config (recordAll outcomes this) = config this.
Proof.
  induction outcomes as [|x l IH] using rev_ind; [done|].
  by rewrite recordAll_snoc, recordTradeResult_config.
Qed.

(** The buffer after [outcomes] have been reported to a new breaker. *)
Lemma recentTrades_recordAll (cfg : Config) (outcomes : list bool) :
  enableCircuitBreaker cfg = true →
  recentTrades (recordAll outcomes (constructor cfg))
  = drop (length outcomes - failureRateWindow cfg) outcomes.
Proof.
  intros enabled.
  induction outcomes as [|x l IH] using rev_ind; [done|].
  rewrite recordAll_snoc. unfold recordTradeResult.
  rewrite recordAll_config. cbn [config constructor]. rewrite enabled.
  cbn [negb recentTrades]. rewrite IH, !length_app, length_drop. cbn [length].
  destruct (Nat.ltb_spec (failureRateWindow cfg)
              (length l - (length l - failureRateWindow cfg) + 1)) as [Hfull|Hroom].
  - unfold JS.shift. rewrite <- drop_app_le by lia.
    rewrite drop_drop. f_equal. lia.
  - replace (length l + 1 - failureRateWindow cfg)%nat
      with (length l - failureRateWindow cfg)%nat by lia.
    rewrite drop_app_le by lia. done.
Qed.

(** The counter after [outcomes]: the length of the trailing run of
    failures. *)
Fixpoint trailing_failures (reversed : list bool) : Z :=
  match reversed with
  | false :: rest => trailing_failures rest + 1
  | _ => 0
  end.

Lemma consecutiveFailures_recordAll (cfg : Config) (outcomes : list bool) :
  enableCircuitBreaker cfg = true →
  consecutiveFailures (recordAll outcomes (constructor cfg))
  = trailing_failures (reverse outcomes).
Proof.
  intros enabled.
  induction outcomes as [|x l IH] using rev_ind; [done|].
  rewrite recordAll_snoc, reverse_snoc. unfold recordTradeResult.
  rewrite recordAll_config. cbn [config constructor]. rewrite enabled.
  cbn [negb consecutiveFailures trailing_failures]. rewrite IH. by destruct x.
Qed.

(** ** Scenarios *)

(** A configuration with the breaker on. *)
Definition breaker_config (maxFailures : Z) (window : nat) (rate : Q)
    : Config := {|
  enableCircuitBreaker := true;
  maxConsecutiveFailures := maxFailures;
  failureRateWindow := window;
  maxFailureRate := rate;
  emergencyStopLoss := 0.5;
  numWalletsToGenerate := 0;
  fundAmount := 0;
  minWalletCooldownMs := 0;
  maxWalletCooldownMs := 0;
  autoScale := false;
  concurrency := 3;
  batchSize := 2;
  sinkPrivateKey := None;
  relayerPrivateKeys := None;
|}.

(** Four failures in a row with a threshold of three. *)
Definition four_failures : CircuitBreaker :=
  recordAll [false; false; false; false] (constructor (breaker_config 3 10 0.3)).



(** ** The consecutive-failure check *)

(** C1, as stated, fails: with a threshold of three, the check trips at
    a counter of four, which is not equal to the threshold. *)
Lemma consecutive_check_trips_above_threshold :
  enableCircuitBreaker (config four_failures) = true
  ∧ maxConsecutiveFailures (config four_failures) = 3
  ∧ consecutiveFailures four_failures = 4
  ∧ tripped (checkConsecutiveFailures four_failures) = true.
Proof. vm_compute. done. Qed.

(** C1, amended: with the breaker enabled, the consecutive-failure check
    trips if and only if the counter has reached the threshold
    ([consecutiveFailures >= maxConsecutiveFailures]): never for a
    smaller counter, at equality, and at every larger counter.  When it
    trips, [checkCircuitBreakers] fulfils with its result, which names
    the counter, without running another check. *)
Theorem consecutive_check_trips_iff_reached {constants : Constants}
    (this : CircuitBreaker)
    (sink : option Keypair) (env : oracle) (n : nat) :
  enableCircuitBreaker (config this) = true →
  (tripped (checkConsecutiveFailures this) = true
   ↔ maxConsecutiveFailures (config this) ≤ consecutiveFailures this)
  ∧ (maxConsecutiveFailures (config this) ≤ consecutiveFailures this →
     run env (snd (checkCircuitBreakers sink this))
       (fst (checkCircuitBreakers sink this)) n
     = (this,
        Fulfilled {| tripped := true;
                     reason := "Circuit Breaker: "
                               +:+ JS.toString (consecutiveFailures this)
                               +:+ " consecutive failures" |},
        [])).
Proof.
  intros enabled. split.
  - unfold checkConsecutiveFailures.
    destruct (Z.leb_spec (maxConsecutiveFailures (config this))
                (consecutiveFailures this)); cbn; split; (done || lia).
  - intros reached. unfold checkCircuitBreakers. rewrite enabled.
    unfold checkConsecutiveFailures.
    destruct (Z.leb_spec (maxConsecutiveFailures (config this))
                (consecutiveFailures this)); [|lia].
    reflexivity.
Qed.

Lemma consecutive_check_trips_iff_reached_witness :
  tripped (checkConsecutiveFailures four_failures) = true
  ∧ run calm (snd (checkCircuitBreakers (constants := sample_constants) None four_failures))
      four_failures 0
    = (four_failures,
       Fulfilled {| tripped := true;
                    reason := "Circuit Breaker: 4 consecutive failures" |},
       []).
Proof.
  destruct (consecutive_check_trips_iff_reached (constants := sample_constants)
              four_failures None calm 0 eq_refl) as [trips fulfils].
  split.
  - apply trips. vm_compute. discriminate.
  - apply fulfils. vm_compute. discriminate.
Defined.

(** ** The sliding window *)

(** C4: after any sequence of outcomes reported to a new breaker that is
    enabled, the buffer is never longer than the window and holds
    exactly the last [min n W] outcomes, in the order reported. *)
Theorem recentTrades_last_window (cfg : Config) (outcomes : list bool) :
  enableCircuitBreaker cfg = true →
  let this := recordAll outcomes (constructor cfg) in
  (length (recentTrades this) ≤ failureRateWindow cfg)%nat
  ∧ length (recentTrades this)
    = Nat.min (length outcomes) (failureRateWindow cfg)
  ∧ recentTrades this
    = drop (length outcomes - failureRateWindow cfg) outcomes.
Proof.
  intros enabled this. subst this.
  rewrite recentTrades_recordAll by done. rewrite length_drop.
  repeat split; lia.
Qed.

Lemma recentTrades_last_window_witness :
  let this := recordAll [true; false; false; true; false]
                (constructor (breaker_config 3 3 0.3)) in
  (length (recentTrades this) ≤ 3)%nat
  ∧ length (recentTrades this) = 3%nat
  ∧ recentTrades this = [false; true; false].
Proof.
  exact (recentTrades_last_window (breaker_config 3 3 0.3)
           [true; false; false; true; false] eq_refl).
Defined.

(** ** The failure-rate check *)

Lemma failures_le_length (trades : list bool) :
  (failures trades ≤ length trades)%nat.
Proof. apply length_filter. Qed.



(** ** A breaker that is switched off *)

Lemma recordAll_disabled (outcomes : list bool) (this : CircuitBreaker) :
  enableCircuitBreaker (config this) = false → recordAll outcomes this = this.
Proof.
  intros disabled. induction outcomes as [|x l IH] using rev_ind; [done|].
  rewrite recordAll_snoc, IH. unfold recordTradeResult. by rewrite disabled.
Qed.

(** A configuration with the breaker off, and thresholds that every
    state exceeds. *)
Definition switched_off : Config := {|
  enableCircuitBreaker := false;
  maxConsecutiveFailures := 0;
  failureRateWindow := 0;
  maxFailureRate := 0;
  emergencyStopLoss := 0;
  numWalletsToGenerate := 0;
  fundAmount := 0;
  minWalletCooldownMs := 0;
  maxWalletCooldownMs := 0;
  autoScale := false;
  concurrency := 3;
  batchSize := 2;
  sinkPrivateKey := None;
  relayerPrivateKeys := None;
|}.

(** With [enableCircuitBreaker] off, reported outcomes leave the object
    as it is, and [checkCircuitBreakers] fulfils at once with
    [{ tripped: false, reason: '' }]: no check runs, the check counter
    stays, and no balance is queried, whatever the counters hold. *)
Theorem disabled_breaker_is_inert {constants : Constants}
    (this : CircuitBreaker) (outcomes : list bool) (sink : option Keypair)
    (env : oracle) (n : nat) :
  enableCircuitBreaker (config this) = false →
  recordAll outcomes this = this
  ∧ run env (checkCircuitBreakers sink this).2
      (checkCircuitBreakers sink this).1 n
    = (this, Fulfilled not_tripped, []).
Proof.
  intros disabled. split; [by apply recordAll_disabled|].
  unfold checkCircuitBreakers. by rewrite disabled.
Qed.

Lemma disabled_breaker_is_inert_witness :
  let this := {| config := switched_off; consecutiveFailures := 7;
                 recentTrades := [false; false]; initialSinkBalance := 100;
                 checkCounter := 9 |} in
  recordAll [false; true; false] this = this
  ∧ run calm (checkCircuitBreakers (constants := sample_constants)
                (Some {| publicKey := "S"; secretKey := [] |}) this).2
      (checkCircuitBreakers (constants := sample_constants)
         (Some {| publicKey := "S"; secretKey := [] |}) this).1 0
    = (this, Fulfilled not_tripped, []).
Proof.
  intros this.
  exact (disabled_breaker_is_inert (constants := sample_constants) this
           [false; true; false] (Some {| publicKey := "S"; secretKey := [] |})
           calm 0 eq_refl).
Defined.

(** ** The run of failures behind the counter *)

Lemma trailing_failures_nonneg (reversed : list bool) :
  0 ≤ trailing_failures reversed.
Proof. induction reversed as [|[] rest IH]; cbn; lia. Qed.

Lemma trailing_failures_take (reversed : list bool) (k : nat) :
  Z.of_nat k ≤ trailing_failures reversed
  ↔ (k ≤ length reversed)%nat ∧ take k reversed = replicate k false.
Proof.
  revert k. induction reversed as [|x rest IH]; intros k.
  - cbn. destruct k; cbn; [by split | split; [lia | intros []; lia]].
  - destruct k as [|k].
    { pose proof (trailing_failures_nonneg (x :: rest)).
      split; [intros; split; [lia | done] | intros; lia]. }
    destruct x; cbn [trailing_failures take replicate length].
    + split; [lia | intros [_ [=]]].
    + rewrite Nat2Z.inj_succ, <- Z.add_1_r, <- Z.add_le_mono_r, IH.
      split; intros [len same]; (split; [lia|]); [by rewrite same|].
      by injection same.
Qed.

(** From a new breaker that is enabled, the counter holds the length of
    the run of failures that ends the reported sequence: it has reached
    [k] exactly when the last [k] outcomes are all failures.  So, for a
    positive threshold [m], the consecutive-failure check trips exactly
    when the last [m] outcomes reported are failures (one success takes
    the check [m] outcomes away from tripping); a threshold that is not
    positive trips on every state, a new breaker included. *)
Theorem consecutive_check_trips_on_trailing_failures (cfg : Config)
    (outcomes : list bool) :
  enableCircuitBreaker cfg = true →
  let this := recordAll outcomes (constructor cfg) in
  let ends_with_failures (k : nat) :=
    (k ≤ length outcomes)%nat
    ∧ drop (length outcomes - k) outcomes = replicate k false in
  (∀ k : nat, Z.of_nat k ≤ consecutiveFailures this ↔ ends_with_failures k)
  ∧ (0 < maxConsecutiveFailures cfg →
     (tripped (checkConsecutiveFailures this) = true
      ↔ ends_with_failures (Z.to_nat (maxConsecutiveFailures cfg))))
  ∧ (maxConsecutiveFailures cfg ≤ 0 →
     tripped (checkConsecutiveFailures this) = true).
Proof.
  intros enabled this ends_with_failures.
  assert (∀ k : nat, Z.of_nat k ≤ consecutiveFailures this ↔ ends_with_failures k)
    as counted.
  { intros k. subst this ends_with_failures. cbv beta.
    rewrite consecutiveFailures_recordAll, trailing_failures_take by done.
    rewrite length_reverse, take_reverse.
    split; intros [len same]; (split; [done|]).
    - by rewrite <- (reverse_involutive (drop _ _)), same, reverse_replicate.
    - by rewrite same, reverse_replicate. }
  assert (tripped (checkConsecutiveFailures this) = true
          ↔ maxConsecutiveFailures cfg ≤ consecutiveFailures this) as trips.
  { unfold checkConsecutiveFailures. subst this. rewrite recordAll_config.
    cbn [config constructor].
    destruct (Z.leb_spec (maxConsecutiveFailures cfg)
                (consecutiveFailures (recordAll outcomes (constructor cfg))));
      cbn; split; (done || lia). }
  split; [exact counted|]. split.
  - intros positive. by rewrite trips, <- counted, Z2Nat.id by lia.
  - intros nonpositive. apply trips.
    assert (Z.of_nat 0 ≤ consecutiveFailures this); [|lia].
    apply counted. subst ends_with_failures. cbv beta. split; [lia|].
    by rewrite Nat.sub_0_r, drop_all.
Qed.

Lemma consecutive_check_trips_on_trailing_failures_witness :
  tripped (checkConsecutiveFailures
             (recordAll [false; false; true; false; false; false]
                (constructor (breaker_config 3 10 0.3)))) = true
  ∧ tripped (checkConsecutiveFailures
               (recordAll [false; false; false; true; false; false]
                  (constructor (breaker_config 3 10 0.3)))) = false.
Proof.
  pose proof (consecutive_check_trips_on_trailing_failures (breaker_config 3 10 0.3)
                [false; false; true; false; false; false] eq_refl) as ends.
  pose proof (consecutive_check_trips_on_trailing_failures (breaker_config 3 10 0.3)
                [false; false; false; true; false; false] eq_refl) as resets.
  cbv zeta in ends, resets.
  destruct ends as (_ & ends & _), resets as (_ & resets & _). split.
  - apply ends; [done|]. split; [cbn; lia | reflexivity].
  - apply not_true_is_false. intros trips.
    apply resets in trips as [_ same]; [|done]. discriminate same.
Defined.

(** ** Options that switch the failure-rate check off *)

Lemma recentTrades_no_window (cfg : Config) (outcomes : list bool) :
  failureRateWindow cfg = 0%nat →
  recentTrades (recordAll outcomes (constructor cfg)) = [].
Proof.
  intros no_window. destruct (enableCircuitBreaker cfg) eqn:enabled.
  - rewrite recentTrades_recordAll, no_window, Nat.sub_0_r by done.
    apply drop_all.
  - by rewrite recordAll_disabled.
Qed.

Lemma rate_at_most_one (f n : nat) :
  (f ≤ S n)%nat → (inject_Z (Z.of_nat f) / inject_Z (Z.of_nat (S n)) <= 1)%Q.
Proof.
  intros below. apply Qle_shift_div_r.
  - change 0%Q with (inject_Z 0). rewrite <- Zlt_Qlt. lia.
  - rewrite Qmult_1_l, <- Zle_Qle. lia.
Qed.

(** Two settings of the options under which the failure-rate check
    cannot trip.  With [failureRateWindow] at 0 the buffer of a breaker
    stays empty, the rate is [0 / 0], which is [NaN], and [NaN] is above
    no threshold.  With [maxFailureRate] at 1 or more no rate is above
    the threshold, since the failures are among the trades. *)
Theorem failure_rate_check_cannot_trip (cfg : Config) (outcomes : list bool)
    (this : CircuitBreaker) :
  (failureRateWindow cfg = 0%nat →
   failureRate (recordAll outcomes (constructor cfg)) = JS.NaN
   ∧ tripped (checkFailureRate (recordAll outcomes (constructor cfg))) = false)
  ∧ ((1 <= maxFailureRate (config this))%Q →
     tripped (checkFailureRate this) = false).
Proof.
  split.
  - intros no_window. unfold checkFailureRate, failureRate.
    rewrite (recentTrades_no_window cfg outcomes no_window). split; [done|].
    by destruct (_ <=? _)%nat.
  - intros lenient. unfold checkFailureRate, failureRate.
    destruct (_ <=? _)%nat; [|done]. rewrite div_by_length.
    pose proof (failures_le_length (recentTrades this)) as among.
    destruct (length (recentTrades this)) as [|len].
    + case_decide; [done | lia].
    + destruct (JS.gtb _ _) eqn:above; [|done].
      apply gtb_Num in above. pose proof (rate_at_most_one _ _ among). lra.
Qed.

Lemma failure_rate_check_cannot_trip_witness :
  tripped (checkFailureRate
             (recordAll [false; false; false]
                (constructor (breaker_config 100 0 0.3)))) = false
  ∧ tripped (checkFailureRate
               (recordAll [false; false; false]
                  (constructor (breaker_config 100 3 1)))) = false.
Proof.
  destruct (failure_rate_check_cannot_trip (breaker_config 100 0 0.3)
              [false; false; false]
              (recordAll [false; false; false]
                 (constructor (breaker_config 100 3 1))))
    as [no_window lenient].
  split.
  - by apply no_window.
  - apply lenient. vm_compute. discriminate.
Defined.

(** ** The stop-loss check *)

(** Whether the call of [checkEmergencyStopLoss] that finds the counter
    at [counter] queries the balance of the sink. *)
Definition polls {constants : Constants} (sink : option Keypair)
    (initial counter : Z) : bool :=
  bool_decide (is_Some sink) && (0 <? initial)
  && negb (SINK_BALANCE_CHECK_INTERVAL =? 0)
  && (Z.rem (counter + 1) SINK_BALANCE_CHECK_INTERVAL =? 0).

(** The operations of one call: the balance query, or none. *)
Definition polled (sink : option Keypair) (queried : bool) : list event :=
  match sink with
  | Some kp => if queried then [Ev (GetBalance (publicKey kp))] else []
  | None => []
  end.

Lemma checkEmergencyStopLoss_run {constants : Constants}
    (sink : option Keypair) (this : CircuitBreaker) (env : oracle) (n : nat) :
  let result :=
    run env (checkEmergencyStopLoss sink this).2
      (checkEmergencyStopLoss sink this).1 n in
  result.1.1 = bump_checkCounter this
  ∧ result.2
    = polled sink (polls sink (initialSinkBalance this) (checkCounter this))
  ∧ ∀ r, result.1.2 = Fulfilled r → tripped r = false → r = not_tripped.
Proof.
  assert (∀ r, Fulfilled (A := CheckResult) not_tripped = Fulfilled r →
               tripped r = false → r = not_tripped) as passed.
  { by intros r [= <-]. }
  unfold checkEmergencyStopLoss, polls, polled, due, JS.rem.
  cbn [bump_checkCounter initialSinkBalance checkCounter].
  destruct sink as [kp|]; [|by cbn].
  assert (bool_decide (is_Some (Some kp)) = true) as ->
    by by apply bool_decide_eq_true.
  destruct (0 <? initialSinkBalance this); [|by cbn].
  destruct (SINK_BALANCE_CHECK_INTERVAL =? 0); [by cbn|].
  cbn [andb negb].
  destruct (Z.rem (checkCounter this + 1) SINK_BALANCE_CHECK_INTERVAL =? 0);
    [|by cbn].
  cbn [fst snd]. unfold Await. cbn [run fst snd completed app].
  destruct (env n _ (GetBalance (publicKey kp))) as [balance|e];
    cbn [fst snd bump_checkCounter initialSinkBalance config]; [|by cbn].
  destruct (JS.gtb _ _); cbn; [|done].
  split; [done|]. split; [done|]. by intros r [= <-].
Qed.

(** [m] calls of [checkEmergencyStopLoss], each awaited before the next
    is made: the object they leave and the operations of each call.
    The [k]-th call is answered by the environment [envs k]. *)
Fixpoint stopLossChecks {constants : Constants} (m : nat)
    (sink : option Keypair) (envs : nat → oracle) (this : CircuitBreaker)
  : CircuitBreaker * list (list event) :=
  match m with
  | O => (this, [])
  | S m' =>
      let '(this, traces) := stopLossChecks m' sink envs this in
      let call := checkEmergencyStopLoss sink this in
      let result := run (envs m') call.2 call.1 0 in
      (result.1.1, traces ++ [result.2])
  end.

(** Every call of [checkEmergencyStopLoss] advances the check counter by
    one, whether or not it queries anything, and touches nothing else.
    The [k]-th of a series of calls (counting from 0) queries the
    balance of the sink exactly when a sink key pair is given, the
    initial balance is positive, and the counter it leaves is a multiple
    of [SINK_BALANCE_CHECK_INTERVAL]; otherwise it completes no
    operation.  However the queries are answered, this schedule stays.
    A breaker whose initial balance was never set (the constructor
    leaves it at 0) never queries. *)
Theorem stop_loss_polls_every_interval {constants : Constants} (m : nat)
    (sink : option Keypair) (envs : nat → oracle) (this : CircuitBreaker) :
  let result := stopLossChecks m sink envs this in
  result.1
  = {| config := config this;
       consecutiveFailures := consecutiveFailures this;
       recentTrades := recentTrades this;
       initialSinkBalance := initialSinkBalance this;
       checkCounter := checkCounter this + Z.of_nat m |}
  ∧ result.2
    = map (λ k : nat,
             polled sink (polls sink (initialSinkBalance this)
                            (checkCounter this + Z.of_nat k)))
          (seq 0 m)
  ∧ (initialSinkBalance this ≤ 0 → result.2 = replicate m []).
Proof.
  cbv zeta.
  assert ((stopLossChecks m sink envs this).1
          = {| config := config this;
               consecutiveFailures := consecutiveFailures this;
               recentTrades := recentTrades this;
               initialSinkBalance := initialSinkBalance this;
               checkCounter := checkCounter this + Z.of_nat m |}
          ∧ (stopLossChecks m sink envs this).2
            = map (λ k : nat,
                     polled sink (polls sink (initialSinkBalance this)
                                    (checkCounter this + Z.of_nat k)))
                  (seq 0 m)) as [object traces].
  { induction m as [|m [object traces]].
    - cbn. rewrite Z.add_0_r. by destruct this.
    - cbn [stopLossChecks].
      destruct (stopLossChecks m sink envs this) as [this' traces'].
      cbn [fst snd] in *. subst this' traces'.
      destruct (checkEmergencyStopLoss_run sink
                  {| config := config this;
                     consecutiveFailures := consecutiveFailures this;
                     recentTrades := recentTrades this;
                     initialSinkBalance := initialSinkBalance this;
                     checkCounter := checkCounter this + Z.of_nat m |}
                  (envs m) 0) as (object & trace & _).
      cbn [fst snd]. rewrite object, trace. split.
      + unfold bump_checkCounter. cbn. f_equal. lia.
      + by rewrite seq_S, map_app. }
  split; [exact object|]. split; [exact traces|].
  intros unset. rewrite traces. clear object traces.
  assert (∀ ks : list nat,
            map (λ k : nat,
                   polled sink (polls sink (initialSinkBalance this)
                                  (checkCounter this + Z.of_nat k))) ks
            = replicate (length ks) []) as quiet.
  { induction ks as [|k ks IH]; [done|]. cbn [map length replicate].
    rewrite IH. f_equal. unfold polls, polled.
    destruct (Z.ltb_spec 0 (initialSinkBalance this)); [lia|].
    rewrite andb_false_r. cbn. by destruct sink. }
  by rewrite quiet, length_seq.
Qed.




(** A breaker whose sink held 1000 lamports at the start, before its
    first stop-loss check. *)
Definition first_check : CircuitBreaker := {|
  config := breaker_config 3 10 0.3;
  consecutiveFailures := 0;
  recentTrades := [];
  initialSinkBalance := 1000;
  checkCounter := 0;
|}.

(** With an interval of 10, the tenth and the twentieth of 25 calls
    query the balance. *)
Lemma stop_loss_polls_every_interval_witness :
  let sink := {| publicKey := "S"; secretKey := [] |} in
  let result :=
    stopLossChecks (constants := sample_constants) 25 (Some sink)
      (λ _, calm) first_check in
  checkCounter result.1 = 25
  ∧ result.2
    = map (λ k, if bool_decide (k = 9 ∨ k = 19)%nat
                then [Ev (GetBalance "S")] else [])
        (seq 0 25).
Proof.
  intros sink result.
  destruct (stop_loss_polls_every_interval (constants := sample_constants) 25
              (Some sink) (λ _, calm) first_check) as (object & traces & _).
  fold result in object, traces. split.
  - by rewrite object.
  - rewrite traces. vm_compute. reflexivity.
Defined.


(** ** The order of the checks *)

(** A call awaited by a caller that only transforms its outcome. *)
Lemma run_await_call_settled {W A B} (env : oracle) (t : task W B)
    (seg : settled B → W → W * task W A) (g : settled B → settled A)
    (w : W) (n : nat) :
  (∀ r w, seg r w = (w, Done (g r))) →
  run env (await_call t seg) w n
  = ((run env t w n).1.1, g (run env t w n).1.2, (run env t w n).2).
Proof.
  intros settles. revert w n.
  induction t as [r|R rq upd next IH]; intros w n; cbn.
  - by rewrite settles.
  - rewrite IH. by destruct (run env _ _ (S n)) as [[w' r] tr].
Qed.

(** The [await] of a value that is there: the call goes on in the next
    turn of the job queue, on the object as it is then. *)
Lemma run_Await_Microtask {W A} (env : oracle) (seg : unit → W → W * task W A)
    (w : W) (n : nat) :
  run env (Await Microtask seg) w n = run env (seg tt w).2 (seg tt w).1 (S n).
Proof.
  unfold Await. cbn [run]. destruct (env n unit Microtask).
  by destruct (run env _ _ (S n)) as [[w' r] tr].
Qed.

(** [checkCircuitBreakers] reports the first check that trips, in the
    order consecutive failures, failure rate, stop loss.  When the
    consecutive-failure check passes and the failure-rate check trips,
    the call fulfils with the result of the failure-rate check; the
    stop-loss check is not run: the check counter stays and no balance
    is queried.  When both pass, the call is the stop-loss check, made
    two turns of the job queue later: the same object, outcome (a
    rejection included) and operations. *)
Theorem checks_run_in_order {constants : Constants} (sink : option Keypair)
    (this : CircuitBreaker) (env : oracle) (n : nat) :
  enableCircuitBreaker (config this) = true →
  tripped (checkConsecutiveFailures this) = false →
  let result :=
    run env (checkCircuitBreakers sink this).2
      (checkCircuitBreakers sink this).1 n in
  (tripped (checkFailureRate this) = true →
   result = (this, Fulfilled (checkFailureRate this), []))
  ∧ (tripped (checkFailureRate this) = false →
     result
     = run env (checkEmergencyStopLoss sink this).2
         (checkEmergencyStopLoss sink this).1 (n + 2)
     ∧ result.1.1 = bump_checkCounter this).
Proof.
  intros enabled streak. cbv zeta. unfold checkCircuitBreakers.
  rewrite enabled. cbn [negb fst snd]. rewrite run_Await_Microtask.
  cbv beta. rewrite streak. cbn [fst snd]. rewrite run_Await_Microtask.
  cbv beta. destruct (tripped (checkFailureRate this)) eqn:rate.
  - split; [done|]. intros [=].
  - split; [intros [=]|]. intros _.
    destruct (checkEmergencyStopLoss_run sink this env (S (S n)))
      as (object & _ & passed).
    destruct (checkEmergencyStopLoss sink this) as [this' call] eqn:check.
    cbn [fst snd] in *.
    replace (n + 2)%nat with (S (S n)) by lia.
    rewrite (run_await_call_settled env call _
               (λ r, match r with
                     | Fulfilled result =>
                         if tripped result then Fulfilled result
                         else Fulfilled not_tripped
                     | Rejected e => Rejected e
                     end)).
    2: { intros [r|e] w; [|done]. by destruct (tripped r). }
    destruct (run env call this' (S (S n))) as [[final outcome] trace].
    cbn [fst snd] in *. split; [|done]. f_equal. f_equal.
    destruct outcome as [r|e]; [|done].
    destruct (tripped r) eqn:trips; [done|]. by rewrite (passed r).
Qed.

(** A window of three with two failures in it, and a threshold of 0.3
    for the rate and of 3 for the run of failures. *)
Definition two_of_three : CircuitBreaker :=
  recordAll [false; true; false] (constructor (breaker_config 3 3 0.3)).

Lemma checks_run_in_order_witness :
  run calm (checkCircuitBreakers (constants := sample_constants) None
              two_of_three).2
    (checkCircuitBreakers (constants := sample_constants) None two_of_three).1 0
  = (two_of_three,
     Fulfilled {| tripped := true;
                  reason := "Circuit Breaker: 66.7% failure rate (last 3 trades)" |},
     []).
Proof.
  destruct (checks_run_in_order (constants := sample_constants) None
              two_of_three calm 0 eq_refl eq_refl) as [rate _].
  exact (rate eq_refl).
Defined.

End CircuitBreakerFacts.

(* ================================================================== *)
(** * Reasoning about asynchronous computations *)
(* ================================================================== *)

Module AsyncFacts.
Import Async.

Section Tasks.
Context {W : Type}.

(** [wp Q t w]: however the environment answers, the call [t] resumed on
    the object [w], with no other call of the object in flight, ends in
    an object, an outcome and a sequence of completed operations that
    satisfy [Q]. *)
Fixpoint wp {A} (Q : W → settled A → list event → Prop) (t : task W A) (w : W)
  : Prop :=
  match t with
  | Done r => Q w r []
  | Suspend rq upd next =>
      ∀ a, wp (λ w' r tr, Q w' r (completed rq a ++ tr)) (next a w) (upd a w)
  end.

Lemma wp_mono {A} (Q Q' : W → settled A → list event → Prop) t w :
  (∀ w r tr, Q w r tr → Q' w r tr) → wp Q t w → wp Q' t w.
Proof.
  revert Q Q' w. induction t as [r|R rq upd next IH]; intros Q Q' w HQ; cbn.
  - apply HQ.
  - intros Hwp a. eapply IH; [|apply Hwp]. cbn. intros. by apply HQ.
Qed.

Lemma wp_run {A} (Q : W → settled A → list event → Prop) t w env n :
  wp Q t w →
  Q (run env t w n).1.1 (run env t w n).1.2 (run env t w n).2.
Proof.
  revert Q w n. induction t as [r|R rq upd next IH]; intros Q w n Hwp; cbn.
  - done.
  - specialize (IH _ _ _ _ (S n) (Hwp (env n _ rq))).
    by destruct (run env _ _ (S n)) as [[w' r] tr].
Qed.

Lemma wp_Await {A R} (Q : W → settled A → list event → Prop)
    (rq : request R) seg w :
  wp Q (Await rq seg) w
  ↔ ∀ a, wp (λ w' r tr, Q w' r (completed rq a ++ tr))
           (seg a w).2 (seg a w).1.
Proof. done. Qed.

Lemma wp_then {A B} (Q : W → settled B → list event → Prop)
    (f : settled A → settled B) t w :
  wp Q (then_ f t) w ↔ wp (λ w' r tr, Q w' (f r) tr) t w.
Proof.
  revert Q w. induction t as [r|R rq upd next IH]; intros Q w; cbn; [done|].
  split; intros Hwp a;
    apply (IH a w (λ w' r tr, Q w' r (completed rq a ++ tr))), Hwp.
Qed.

Lemma wp_both_Done_r {A B}
    (Q : W → settled (settled A * settled B) → list event → Prop)
    (t : task W A) (r2 : settled B) w :
  wp Q (both t (Done r2)) w ↔ wp (λ w' r tr, Q w' (Fulfilled (r, r2)) tr) t w.
Proof.
  revert Q w. induction t as [r|R rq upd next IH]; intros Q w; cbn; [done|].
  split; intros Hwp a;
    apply (IH a w (λ w' r tr, Q w' r (completed rq a ++ tr))), Hwp.
Qed.

Lemma wp_await_call {A B} (Q : W → settled A → list event → Prop)
    (t : task W B) seg w :
  wp (λ w1 r tr1,
        wp (λ w2 r2 tr2, Q w2 r2 (tr1 ++ tr2)) (seg r w1).2 (seg r w1).1) t w →
  wp Q (await_call t seg) w.
Proof.
  revert Q w. induction t as [r|R rq upd next IH]; intros Q w; cbn.
  - intros Hwp _. exact Hwp.
  - intros Hwp a. apply IH. eapply wp_mono; [|apply Hwp]. cbn.
    intros w1 r tr1. apply wp_mono. intros w2 r2 tr2. by rewrite app_assoc.
Qed.

Lemma wp_and {A} (Q1 Q2 : W → settled A → list event → Prop) t w :
  wp Q1 t w → wp Q2 t w → wp (λ w' r tr, Q1 w' r tr ∧ Q2 w' r tr) t w.
Proof.
  revert Q1 Q2 w. induction t as [r|R rq upd next IH]; intros Q1 Q2 w; cbn.
  - done.
  - intros H1 H2 a.
    apply (IH a w (λ w' r tr, Q1 w' r (completed rq a ++ tr))
             (λ w' r tr, Q2 w' r (completed rq a ++ tr))); [apply H1 | apply H2].
Qed.

(** [requests P t]: every operation that the call [t] can complete, in
    whatever object it resumes, satisfies [P]. *)
Fixpoint requests {A} (P : event → Prop) (t : task W A) : Prop :=
  match t with
  | Done _ => True
  | Suspend rq upd next =>
      (∀ a, Forall P (completed rq a)) ∧ ∀ a w, requests P (next a w)
  end.

Lemma requests_Await {A X} (P : event → Prop) (rq : request X)
    (seg : X → W → W * task W A) :
  (∀ a, Forall P (completed rq a)) → (∀ a w, requests P (seg a w).2) →
  requests P (Await rq seg).
Proof. by split. Qed.

Lemma requests_wp {A} (P : event → Prop) (t : task W A) w :
  requests P t → wp (λ _ _ tr, Forall P tr) t w.
Proof.
  intros Ht. cut (∀ done, Forall P done → wp (λ _ _ tr, Forall P (done ++ tr)) t w).
  { intros Hcut. apply (Hcut []). constructor. }
  revert w Ht. induction t as [r|X rq upd next IH]; intros w Ht done Hdone; cbn.
  - by rewrite app_nil_r.
  - intros a. destruct Ht as [Hrq Hnext].
    eapply wp_mono; [|apply (IH a w (upd a w) (Hnext a w) (done ++ completed rq a))].
    + cbn. intros _ _ tr. by rewrite app_assoc.
    + apply Forall_app. split; [done | apply Hrq].
Qed.

(** [respects R t]: every segment of the call [t], run on whatever
    object it finds when it resumes, takes the object to an [R]-related
    one.  This holds however other calls in flight interleave. *)
Fixpoint respects {A} (R : relation W) (t : task W A) : Prop :=
  match t with
  | Done _ => True
  | Suspend rq upd next => ∀ a w, R w (upd a w) ∧ respects R (next a w)
  end.

(** The same for a method: its first segment, and the rest of the call. *)
Definition method_respects {A} (R : relation W) (f : W → W * task W A) : Prop :=
  ∀ w, R w (f w).1 ∧ respects R (f w).2.

Lemma respects_Await {A X} (R : relation W) (rq : request X)
    (seg : X → W → W * task W A) :
  (∀ a, method_respects R (seg a)) → respects R (Await rq seg).
Proof. intros Hseg a w. apply Hseg. Qed.

Lemma respects_then {A B} (R : relation W) (f : settled A → settled B) t :
  respects R t → respects R (then_ f t).
Proof.
  induction t as [r|X rq upd next IH]; cbn; [done|].
  intros Ht a w. split; [apply Ht | apply IH, Ht].
Qed.

Lemma respects_both {A B} (R : relation W) (t1 : task W A) (t2 : task W B) :
  respects R t1 → respects R t2 → respects R (both t1 t2).
Proof.
  revert t2. induction t1 as [r1|X1 rq1 upd1 next1 IH1]; intros t2 H1;
    induction t2 as [r2|X2 rq2 upd2 next2 IH2]; intros H2; cbn; [done|..].
  - intros a w. split; [apply H2 | apply IH2, H2].
  - intros a w. split; [apply H1 | apply IH1; [apply H1 | done]].
  - intros [a1|a2] w.
    + split; [apply H1 | apply IH1; [apply H1 | done]].
    + split; [apply H2 | apply IH2, H2].
Qed.

Lemma respects_allSettled {A} (R : relation W) (calls : list (task W A)) :
  Forall (respects R) calls → respects R (allSettled calls).
Proof.
  induction 1 as [|t rest Ht _ IH]; cbn; [done|].
  by apply respects_then, respects_both.
Qed.

Lemma respects_await_call {A B} (R : relation W) (t : task W B)
    (seg : settled B → W → W * task W A) :
  respects R t → (∀ r, method_respects R (seg r)) →
  respects R (await_call t seg).
Proof.
  intros Ht Hseg. induction t as [r|X rq upd next IH]; cbn.
  - intros _ w. apply Hseg.
  - intros a w. split; [apply Ht | apply IH, Ht].
Qed.

Lemma callAll_respects {A X} (R : relation W) `{!PreOrder R}
    (f : X → W → W * task W A) (batch : list X) (w : W) :
  (∀ x, method_respects R (f x)) →
  R w (callAll f batch w).2 ∧ Forall (respects R) (callAll f batch w).1.
Proof.
  intros Hf. revert w. induction batch as [|x rest IH]; intros w; cbn.
  - done.
  - destruct (Hf x w) as [Hw Ht]. destruct (f x w) as [w1 t]. cbn in *.
    destruct (IH w1) as [Hw1 Hts]. destruct (callAll f rest w1) as [ts w2].
    cbn in *. split; [by etrans | by constructor].
Qed.

(** What every segment respects holds between the object a call starts
    on and the object it ends on. *)
Lemma respects_wp {A} (R : relation W) `{!PreOrder R} (t : task W A) w :
  respects R t → wp (λ w' _ _, R w w') t w.
Proof.
  intros Ht. cut (∀ w0, R w0 w → wp (λ w' _ _, R w0 w') t w).
  { intros Hcut. by apply Hcut. }
  revert w Ht. induction t as [r|X rq upd next IH]; intros w Ht w0 Hw0; cbn.
  - done.
  - intros a. destruct (Ht a w) as [Hupd Hnext].
    apply IH; [done | by etrans].
Qed.

End Tasks.
End AsyncFacts.

(* ================================================================== *)
(** * Properties of the wallet manager *)
(* ================================================================== *)

Module WalletManagerFacts.
Import Async AsyncFacts WalletManager Scenarios.

(** ** Random indices *)

(** [Math.floor(Math.random() * n)] is an index below [n]. *)
Lemma random_index_range (r : Q) (n : Z) :
  unit_interval r → 0 < n →
  0 ≤ JS.Math_floor (r * inject_Z n)%Q < n.
Proof.
  intros [nonneg below] positive. unfold JS.Math_floor. split.
  - change 0 with (Qfloor 0). apply Qfloor_resp_le.
    apply Qmult_le_0_compat; [done|]. change 0%Q with (inject_Z 0).
    rewrite <- Zle_Qle. lia.
  - rewrite Zlt_Qlt. eapply Qle_lt_trans; [apply Qfloor_le|].
    rewrite <- (Qmult_1_l (inject_Z n)) at 2.
    apply Qmult_lt_compat_r; [|done].
    change 0%Q with (inject_Z 0). rewrite <- Zlt_Qlt. lia.
Qed.

Lemma index_in_range {A} (l : list A) (j : Z) :
  0 ≤ j < Z.of_nat (length l) → is_Some (index l j).
Proof.
  intros range. unfold index.
  destruct (Z.ltb_spec j 0); [lia|]. apply lookup_lt_is_Some. lia.
Qed.

(** ** Cooldowns *)


(** An account that has traded three times, with both cooldown bounds at
    1000 ms. *)
Definition three_trades : WalletManager :=
  let wallet := {|
    keypair := {| publicKey := "A"; secretKey := [] |};
    activeName := "Wallet1";
    activePubkey := "A";
  |} in
  markWalletUsed wallet 30 (markWalletUsed wallet 20 (markWalletUsed wallet 10
    (constructor (pool_config 1 1 1000 1000 None)))).


(** ** Shuffling *)

Lemma swap_permutes {A} (a : list A) (i : nat) (j : Z) :
  (i < length a)%nat → 0 ≤ j ≤ Z.of_nat i →
  ∃ a', swap a i j = Some a' ∧ a' ≡ₚ a ∧ length a' = length a.
Proof.
  intros inside range. unfold swap, index.
  destruct (lookup_lt_is_Some_2 a i inside) as [x at_i].
  destruct (lookup_lt_is_Some_2 a (Z.to_nat j)) as [y at_j]; [lia|].
  rewrite at_i. cbn. destruct (Z.ltb_spec j 0); [lia|]. rewrite at_j. cbn.
  eexists. split; [done|]. split.
  - by apply Permutation_insert_swap.
  - by rewrite !length_insert.
Qed.

Lemma shuffleFrom_S {runtime : Runtime} {A} (i shuffled : nat)
    (arrays : store A)
    (this : WalletManager) :
  shuffleFrom (S i) shuffled arrays this
  = let j := JS.Math_floor (Math_random (randomCalls this)
                            * inject_Z (Z.of_nat (S i) + 1))%Q in
    let this := set_randomCalls (S (randomCalls this)) this in
    match arrays !! shuffled ≫= λ a, swap a (S i) j with
    | Some a => shuffleFrom i shuffled (<[shuffled := a]> arrays) this
    | None => (None, this)
    end.
Proof. reflexivity. Qed.

(** The loop touches the array at [shuffled] only, and permutes it. *)
Lemma shuffleFrom_permutes {runtime : Runtime} {A} (i shuffled : nat)
    (arrays : store A)
    (s : list A) (this : WalletManager) :
  (∀ k, unit_interval (Math_random k)) →
  arrays !! shuffled = Some s → (i < length s ∨ i = 0)%nat →
  ∃ arrays' s',
    (shuffleFrom i shuffled arrays this).1 = Some arrays'
    ∧ arrays' !! shuffled = Some s' ∧ s' ≡ₚ s ∧ length s' = length s
    ∧ ∀ x, x ≠ shuffled → arrays' !! x = arrays !! x.
Proof.
  intros draws. revert arrays s this.
  induction i as [|i IH]; intros arrays s this at_shuffled inside.
  - by exists arrays, s.
  - rewrite shuffleFrom_S. cbv zeta. rewrite at_shuffled.
    change (Some s ≫= ?f) with (f s). cbv beta.
    destruct (swap_permutes s (S i)
                (JS.Math_floor (Math_random (randomCalls this)
                                * inject_Z (Z.of_nat (S i) + 1))))
      as (s1 & -> & perm1 & len1); [lia| |].
    { pose proof (random_index_range (Math_random (randomCalls this))
                    (Z.of_nat (S i) + 1) (draws _)). lia. }
    destruct (IH (<[shuffled := s1]> arrays) s1
                (set_randomCalls (S (randomCalls this)) this))
      as (arrays' & s' & -> & at' & perm' & len' & others).
    { apply lookup_insert_eq. }
    { lia. }
    exists arrays', s'. repeat split; [done | by etrans | congruence |].
    intros x different. rewrite others by done. by apply lookup_insert_ne.
Qed.

(** C10: for every array in the store and every sequence of draws of
    [Math.random()], [shuffleArray] returns a new array (at an address
    that was not in use) whose elements are a permutation of the
    elements of its argument (same length, same elements with the same
    multiplicities), and leaves every array that was in the store, the
    argument among them, as it was. *)
Theorem shuffleArray_permutes_copy {runtime : Runtime} {A} (array : nat)
    (arrays : store A) (a : list A) (this : WalletManager) :
  (∀ k, unit_interval (Math_random k)) →
  arrays !! array = Some a →
  ∃ shuffled arrays' s,
    (shuffleArray array arrays this).1 = Some (shuffled, arrays')
    ∧ arrays !! shuffled = None
    ∧ arrays' !! shuffled = Some s ∧ s ≡ₚ a ∧ length s = length a
    ∧ arrays' !! array = Some a
    ∧ ∀ x, x ≠ shuffled → arrays' !! x = arrays !! x.
Proof.
  intros draws at_array. unfold shuffleArray. rewrite at_array.
  set (shuffled := fresh (dom arrays)).
  assert (arrays !! shuffled = None) as unused.
  { apply not_elem_of_dom. apply is_fresh. }
  destruct (shuffleFrom_permutes (length a - 1) shuffled
              (<[shuffled := a]> arrays) a this draws)
    as (arrays' & s & run & at' & perm & len & others).
  { apply lookup_insert_eq. }
  { lia. }
  destruct (shuffleFrom _ _ _ _) as [[?|] this']; cbn in run; [|done].
  injection run as ->. exists shuffled, arrays', s.
  assert (∀ x, x ≠ shuffled → arrays' !! x = arrays !! x) as untouched.
  { intros x different. rewrite others by done. by apply lookup_insert_ne. }
  repeat split; try done.
  rewrite untouched; [done|]. intros ->. congruence.
Qed.

Lemma shuffleArray_permutes_copy_witness :
  ∃ shuffled arrays' s,
    (shuffleArray (runtime := constant_runtime 0.5 "A") 0
       {[ 0%nat := [1; 2; 3; 4] ]} (constructor (pool_config 1 1 1000 1000 None))).1
    = Some (shuffled, arrays')
    ∧ ({[ 0%nat := [1; 2; 3; 4] ]} : store Z) !! shuffled = None
    ∧ arrays' !! shuffled = Some s ∧ s ≡ₚ [1; 2; 3; 4]
    ∧ length s = length [1; 2; 3; 4]
    ∧ arrays' !! 0%nat = Some [1; 2; 3; 4]
    ∧ ∀ x, x ≠ shuffled → arrays' !! x = ({[ 0%nat := [1; 2; 3; 4] ]} : store Z) !! x.
Proof.
  apply (shuffleArray_permutes_copy (runtime := constant_runtime 0.5 "A")).
  - intros k. split; cbn; lra.
  - reflexivity.
Defined.

(** ** Personalities *)

(** The tag that the [i]-th known key gets from a call that starts when
    [calls] draws have been made. *)
Definition drawn_tag {constants : Constants} {runtime : Runtime} (calls i : nat)
    : option string :=
  index PERSONALITIES
    (JS.Math_floor (Math_random (calls + i)
                    * inject_Z (Z.of_nat (length PERSONALITIES)))%Q).

Lemma assignPersonality_unfold {constants : Constants} {runtime : Runtime}
    (this : WalletManager)
    (pk : string) :
  assignPersonality this pk
  = set_walletPersonalities
      (<[pk := drawn_tag (randomCalls this) 0]> (walletPersonalities this))
      (set_randomCalls (S (randomCalls this)) this).
Proof. unfold assignPersonality, drawn_tag. cbn. by rewrite Nat.add_0_r. Qed.

Lemma assignPersonalities_fold {constants : Constants} {runtime : Runtime}
    (keys : list string)
    (this : WalletManager) :
  NoDup keys →
  let this' := foldl assignPersonality this keys in
  randomCalls this' = (randomCalls this + length keys)%nat
  ∧ (∀ i pk, keys !! i = Some pk →
       walletPersonalities this' !! pk = Some (drawn_tag (randomCalls this) i))
  ∧ (∀ pk, pk ∉ keys →
       walletPersonalities this' !! pk = walletPersonalities this !! pk).
Proof.
  induction keys as [|x keys IH] using rev_ind; intros distinct; cbn zeta.
  - cbn. split; [lia|]. split; [intros ??; by rewrite lookup_nil | done].
  - apply NoDup_app in distinct as (distinct & fresh & _).
    destruct (IH distinct) as (calls & assigned & others).
    rewrite foldl_app. cbn [foldl]. rewrite assignPersonality_unfold.
    cbn [randomCalls walletPersonalities set_walletPersonalities set_randomCalls].
    rewrite calls, length_app. cbn [length]. split; [lia|]. split.
    + intros i pk at_i. destruct (decide (i < length keys)%nat) as [old|new].
      * rewrite lookup_app_l in at_i by done.
        rewrite lookup_insert_ne; [by apply assigned|].
        intros ->. apply (fresh pk); [|apply list_elem_of_here].
        by eapply list_elem_of_lookup_2.
      * apply lookup_lt_Some in at_i as bound. rewrite length_app in bound.
        cbn in bound. assert (i = length keys) as -> by lia.
        rewrite lookup_app_r, Nat.sub_diag in at_i by done.
        injection at_i as ->. rewrite lookup_insert_eq.
        unfold drawn_tag. by rewrite Nat.add_0_r.
    + intros pk absent. apply not_elem_of_app in absent as [absent other].
      rewrite lookup_insert_ne; [by apply others|].
      intros ->. apply other, list_elem_of_here.
Qed.

(** Two draws: 0.1, then 0.9 for ever. *)
Definition low_then_high : Runtime := {|
  Math_random := λ k, match k with O => 0.1%Q | S _ => 0.9%Q end;
  Keypair_generate := λ k : nat,
    {| publicKey := "key" +:+ pretty k; secretKey := [] |};
  Keypair_fromSecretKey := λ key, Some {| publicKey := "A"; secretKey := key |};
  getRandomNumberBetween := λ lo hi calls, (lo, calls);
|}.

(** A manager that knows one key. *)
Definition one_key : WalletManager :=
  set_allPubkeys ["A"] (constructor (pool_config 1 1 1000 1000 None)).

(** C6, as stated, fails: the key that holds the tag [flipper] after a
    first call holds the tag [hodler] after a second call. *)
Lemma assignPersonalities_reassigns :
  let first := assignPersonalities (constants := sample_constants) (runtime := low_then_high)
                 one_key in
  let second := assignPersonalities (constants := sample_constants) (runtime := low_then_high)
                  first in
  allPubkeys first = ["A"]
  ∧ walletPersonalities first !! "A" = Some (Some "flipper")
  ∧ walletPersonalities second !! "A" = Some (Some "hodler").
Proof. vm_compute. done. Qed.

(** C6, amended: [assignPersonalities] gives every known key a tag of
    the fixed table, whether or not the key already holds one: the
    [i]-th key in insertion order gets [PERSONALITIES[floor(r * n)]] for
    the [i]-th draw [r] of the call and the size [n] of the table, and a
    tag the key held before is overwritten.  Keys that are not known
    keep what they had. *)
Theorem assignPersonalities_overwrites {constants : Constants}
    {runtime : Runtime}
    (this : WalletManager) :
  (∀ k, unit_interval (Math_random k)) →
  PERSONALITIES ≠ [] →
  NoDup (allPubkeys this) →
  let this' := assignPersonalities this in
  (∀ i pk, allPubkeys this !! i = Some pk →
     walletPersonalities this' !! pk = Some (drawn_tag (randomCalls this) i)
     ∧ ∃ tag, drawn_tag (randomCalls this) i = Some tag ∧ tag ∈ PERSONALITIES)
  ∧ (∀ pk, pk ∉ allPubkeys this →
       walletPersonalities this' !! pk = walletPersonalities this !! pk)
  ∧ randomCalls this' = (randomCalls this + length (allPubkeys this))%nat.
Proof.
  intros draws nonempty distinct this'.
  destruct (assignPersonalities_fold (allPubkeys this) this distinct)
    as (calls & assigned & others).
  split; [|by split]. intros i pk at_i. split; [by apply assigned|].
  unfold drawn_tag.
  destruct (index_in_range PERSONALITIES
              (JS.Math_floor (Math_random (randomCalls this + i)
                              * inject_Z (Z.of_nat (length PERSONALITIES)))))
    as [tag at_tag].
  { apply random_index_range; [apply draws|]. destruct PERSONALITIES; [done|].
    cbn. lia. }
  exists tag. split; [done|]. unfold index in at_tag.
  destruct (_ <? 0); [done|]. by eapply list_elem_of_lookup_2.
Qed.

Lemma assignPersonalities_overwrites_witness :
  let first := assignPersonalities (constants := sample_constants) (runtime := low_then_high)
                 one_key in
  walletPersonalities
    (assignPersonalities (constants := sample_constants) (runtime := low_then_high) first)
    !! "A"
  = Some (Some "hodler").
Proof.
  intros first.
  destruct (assignPersonalities_overwrites (constants := sample_constants)
              (runtime := low_then_high) first) as (assigned & _ & _).
  - intros [|k]; split; cbn; lra.
  - done.
  - vm_compute. apply NoDup_singleton.
  - destruct (assigned 0%nat "A" eq_refl) as [-> _]. vm_compute. reflexivity.
Defined.

(** ** Funding parts *)

(** The amounts of the transfers among completed operations. *)
Definition transfers (trace : list event) : list Z := omap sent trace.

(** Parts sent one after the other out of a shortfall of [remaining]:
    each is sent while the shortfall is above the minimum buffer, is at
    least the minimum buffer and at most the shortfall left. *)
Fixpoint parts_within {constants : Constants} (remaining : Z) (parts : list Z)
    : Prop :=
  match parts with
  | [] => True
  | part :: rest =>
      MIN_SOL_BUFFER_LAMPORTS_BN < remaining
      ∧ MIN_SOL_BUFFER_LAMPORTS_BN ≤ part ≤ remaining
      ∧ parts_within (remaining - part) rest
  end.

Lemma parts_within_bounds {constants : Constants} (remaining : Z)
    (parts : list Z) :
  parts_within remaining parts →
  Forall (λ part, MIN_SOL_BUFFER_LAMPORTS_BN ≤ part) parts
  ∧ (0 ≤ remaining → 0 ≤ remaining - foldr Z.add 0 parts).
Proof.
  revert remaining. induction parts as [|part rest IH]; intros remaining; cbn.
  - intros _. split; [constructor | lia].
  - intros (guard & bounds & within). destruct (IH _ within) as [least total].
    split; [constructor; [lia | done] | lia].
Qed.

(** The same on the call itself: every transfer that the call can
    request, in whatever object it resumes, is within the shortfall
    left by the transfers requested before it. *)
Fixpoint within_budget {constants : Constants} {A} (remaining : Z)
    (t : task WalletManager A)
  : Prop :=
  match t with
  | Done _ => True
  | Suspend rq upd next =>
      match rq with
      | SendTransaction tx _ =>
          MIN_SOL_BUFFER_LAMPORTS_BN < remaining
          ∧ MIN_SOL_BUFFER_LAMPORTS_BN ≤ lamports tx ≤ remaining
          ∧ ∀ a w, within_budget (remaining - lamports tx) (next a w)
      | Select _ _ => False
      | _ => ∀ a w, within_budget remaining (next a w)
      end
  end.

Lemma within_budget_run {constants : Constants} {A} (remaining : Z)
    (t : task WalletManager A) env w n :
  within_budget remaining t →
  parts_within remaining (transfers (run env t w n).2).
Proof.
  revert remaining w n.
  induction t as [r|R rq upd next IH]; intros remaining w n; cbn; [done|].
  pose proof (IH (env n R rq) w) as IH'.
  destruct (run env (next (env n R rq) w) (upd (env n R rq) w) (S n))
    as [[w' r] tr] eqn:rest.
  specialize (IH' (remaining - match rq with
                                | SendTransaction tx _ => lamports tx
                                | _ => 0
                                end) (upd (env n R rq) w) (S n)).
  rewrite rest in IH'. cbn in *. unfold transfers in *.
  destruct rq; cbn; try (intros budget; rewrite Z.sub_0_r in IH';
                         by apply IH', budget); [|done].
  intros (guard & bounds & budget). repeat split; try lia.
  by apply IH', budget.
Qed.

Lemma calculateFundingPart_bounds {constants : Constants} {runtime : Runtime}
    (remaining remainingParts : Z) (this : WalletManager) :
  MIN_SOL_BUFFER_LAMPORTS_BN < remaining →
  MIN_SOL_BUFFER_LAMPORTS_BN
  ≤ (calculateFundingPart remaining remainingParts this).1 ≤ remaining.
Proof. unfold calculateFundingPart. cbn. lia. Qed.

Lemma fundParts_within_budget {constants : Constants} {runtime : Runtime}
    (wallet : Wallet)
    (kp : Keypair) (left : nat) (remaining : Z) (this : WalletManager) :
  within_budget remaining (fundParts wallet kp left remaining this).2.
Proof.
  revert remaining this. induction left as [|left IH]; intros remaining this.
  - done.
  - cbn [fundParts].
    destruct (Z.ltb_spec MIN_SOL_BUFFER_LAMPORTS_BN remaining) as [guard|]; [|done].
    pose proof (calculateFundingPart_bounds remaining (Z.of_nat (S left)) this guard)
      as bounds.
    destruct (calculateFundingPart remaining (Z.of_nat (S left)) this)
      as [cappedPart this1]. cbn in bounds.
    unfold random. cbn [fst snd].
    destruct (index _ _) as [relayer|]; [|done].
    cbn. split; [done|]. split; [done|].
    intros [sig|e] w; [|done]. cbn.
    intros [[]|e'] w'; [|done]. cbn.
    destruct (2 ^ 53 <=? Z.abs cappedPart); [done|]. cbn.
    intros _ w''. apply IH.
Qed.

(** The segment of [fundSingleWallet] that runs when the balance query
    has settled. *)
Definition afterBalance {constants : Constants} {runtime : Runtime}
    (wallet : Wallet) (kp : Keypair)
    (answer : settled Z) (this : WalletManager)
  : WalletManager * task WalletManager unit :=
  match answer with
  | Rejected e => failedToFund wallet e this
  | Fulfilled balance =>
      let threshold := (fundAmountLamports this * 8) ÷ 10 in
      if threshold <=? balance then (this, Done (Fulfilled tt))
      else
        let remaining := fundAmountLamports this - balance in
        let '(r, this) := random this in
        let parts := JS.Math_floor (r * 4)%Q + 1 in
        fundParts wallet kp (Z.to_nat parts) remaining this
  end.

Lemma fundSingleWallet_unfold {constants : Constants} {runtime : Runtime}
    (wallet : Wallet)
    (this : WalletManager) :
  fundSingleWallet wallet this
  = if decide (pubkey wallet ∈ funded this) then (this, Done (Fulfilled tt))
    else
      let claimed := set_funded ({[pubkey wallet]} ∪ funded this) this in
      match Keypair_fromSecretKey (privateKey wallet) with
      | None => (claimed, Done (Rejected bad_secret_key))
      | Some kp =>
          (claimed, Await (GetBalance (publicKey kp)) (afterBalance wallet kp))
      end.
Proof. reflexivity. Qed.

Lemma transfers_GetBalance (pk : string) (trace : list event) :
  transfers (Ev (GetBalance pk) :: trace) = transfers trace.
Proof. reflexivity. Qed.

Lemma threshold_below_target (target balance : Z) :
  0 ≤ balance → balance < (target * 8) ÷ 10 → 0 < target - balance.
Proof.
  intros nonneg below.
  assert ((target * 8) ÷ 10 ≤ Z.max 0 target).
  { apply Z.quot_le_upper_bound; lia. }
  lia.
Qed.

Lemma afterBalance_within_budget {constants : Constants} {runtime : Runtime}
    (wallet : Wallet)
    (kp : Keypair) (balance : Z) (this : WalletManager) :
  within_budget (fundAmountLamports this - balance)
    (afterBalance wallet kp (Fulfilled balance) this).2.
Proof.
  unfold afterBalance. destruct (_ <=? balance); [done|].
  unfold random. cbn [fst snd]. apply fundParts_within_budget.
Qed.

(** C8: whenever the shortfall left is above the minimum buffer, the
    part that [calculateFundingPart] returns is at least the minimum
    buffer and at most the shortfall left; the parts that a funding
    attempt sends are sent under that guard, so each is at least the
    minimum buffer and their sum is at most the initial shortfall (for
    a shortfall of 1000 and a minimum buffer of 10: every part is at
    least 10 and the total at most 1000).  The amounts are integers. *)
Theorem funding_parts_within_shortfall {constants : Constants}
    {runtime : Runtime} (wallet : Wallet)
    (this : WalletManager) (env : oracle) (n : nat) :
  (∀ remaining remainingParts w,
     MIN_SOL_BUFFER_LAMPORTS_BN < remaining →
     MIN_SOL_BUFFER_LAMPORTS_BN
     ≤ (calculateFundingPart remaining remainingParts w).1 ≤ remaining)
  ∧ (∀ kp left remaining,
       let parts :=
         transfers (run env (fundParts wallet kp left remaining this).2
                      (fundParts wallet kp left remaining this).1 n).2 in
       parts_within remaining parts
       ∧ Forall (λ part, MIN_SOL_BUFFER_LAMPORTS_BN ≤ part) parts
       ∧ (0 ≤ remaining → foldr Z.add 0 parts ≤ remaining)
       ∧ (MIN_SOL_BUFFER_LAMPORTS_BN = 10 → remaining = 1000 →
          Forall (λ part, 10 ≤ part) parts ∧ foldr Z.add 0 parts ≤ 1000))
  ∧ (let parts :=
       transfers (run env (fundSingleWallet wallet this).2
                    (fundSingleWallet wallet this).1 n).2 in
     Forall (λ part, MIN_SOL_BUFFER_LAMPORTS_BN ≤ part) parts
     ∧ ∀ kp balance,
         Keypair_fromSecretKey (privateKey wallet) = Some kp →
         env n _ (GetBalance (publicKey kp)) = Fulfilled balance →
         0 ≤ balance →
         parts_within (fundAmountLamports this - balance) parts
         ∧ foldr Z.add 0 parts ≤ Z.max 0 (fundAmountLamports this - balance)).
Proof.
  split; [intros; by apply calculateFundingPart_bounds|]. split.
  - intros kp left remaining parts.
    pose proof (within_budget_run remaining _ env
                  (fundParts wallet kp left remaining this).1 n
                  (fundParts_within_budget wallet kp left remaining this))
      as within.
    fold parts in within. destruct (parts_within_bounds _ _ within) as [least total].
    split; [done|]. split; [done|]. split; [lia|].
    intros minimum ->. rewrite minimum in least. split; [done | lia].
  - cbv zeta. rewrite fundSingleWallet_unfold.
    destruct (decide (pubkey wallet ∈ funded this)) as [claimed|unclaimed].
    { cbn -[Z.max fundAmountLamports]. split; [constructor|]. intros.
      split; [done | apply Z.le_max_l]. }
    cbv zeta. destruct (Keypair_fromSecretKey (privateKey wallet)) as [kp|].
    2: { cbn -[Z.max fundAmountLamports]. split; [constructor|].
         intros; discriminate. }
    cbn [fst snd]. unfold Await. cbn [run completed].
    set (claim := set_funded _ this).
    set (answer := env n _ (GetBalance (publicKey kp))).
    destruct (run env _ _ (S n)) as [[final outcome] trace] eqn:rest.
    cbn [fst snd app]. rewrite transfers_GetBalance.
    assert (trace = (run env (afterBalance wallet kp answer claim).2
                       (afterBalance wallet kp answer claim).1 (S n)).2) as ->.
    { by rewrite rest. }
    split.
    + destruct answer as [balance|e]; [|by constructor].
      eapply parts_within_bounds, within_budget_run.
      apply afterBalance_within_budget.
    + intros kp' balance [= <-] answered nonneg. fold answer in answered.
      rewrite answered.
      pose proof (within_budget_run _ _ env
                    (afterBalance wallet kp (Fulfilled balance) claim).1 (S n)
                    (afterBalance_within_budget wallet kp balance claim))
        as within.
      change (fundAmountLamports claim) with (fundAmountLamports this) in within.
      split; [done|].
      destruct (Z.leb_spec ((fundAmountLamports this * 8) ÷ 10) balance)
        as [enough|short].
      * unfold afterBalance.
        change (fundAmountLamports claim) with (fundAmountLamports this).
        destruct (Z.leb_spec ((fundAmountLamports this * 8) ÷ 10) balance);
          [|lia].
        apply Z.le_max_l.
      * pose proof (threshold_below_target _ _ nonneg short).
        destruct (parts_within_bounds _ _ within) as [_ total]. lia.
Qed.

(** A funding target of 1000 lamports, one relayer, nothing funded. *)
Definition one_relayer : WalletManager :=
  set_relayerKeypairs [{| publicKey := "R"; secretKey := [] |}]
    (constructor (pool_config 1 (1 # 1000000) 1000 1000 None)).

Definition wallet_A : Wallet :=
  {| pubkey := "A"; privateKey := []; name := "Wallet1"; isSeasoned := false |}.

Lemma funding_parts_within_shortfall_witness :
  let parts :=
    transfers (run calm
      (fundSingleWallet (constants := sample_constants) (runtime := constant_runtime 0.5 "A")
         wallet_A one_relayer).2
      (fundSingleWallet (constants := sample_constants) (runtime := constant_runtime 0.5 "A")
         wallet_A one_relayer).1 0).2 in
  parts = [333; 333; 334]
  ∧ Forall (λ part, 10 ≤ part) parts
  ∧ foldr Z.add 0 parts ≤ 1000.
Proof.
  intros parts.
  destruct (funding_parts_within_shortfall (constants := sample_constants)
              (runtime := constant_runtime 0.5 "A") wallet_A one_relayer calm 0)
    as (_ & _ & least & total).
  split; [vm_compute; reflexivity|]. split; [exact least|].
  destruct (total {| publicKey := "A"; secretKey := [] |} 0) as [_ sum];
    [reflexivity | reflexivity | lia |].
  exact sum.
Defined.

(** ** The funded set *)

(** What a step of a funding call may do to the object: the funded set
    only grows, and the pool and the configuration stay as they are. *)
Definition grows : relation WalletManager := λ w w',
  funded w ⊆ funded w'
  ∧ walletData w' = walletData w
  ∧ config w' = config w.

#[local] Instance grows_preorder : PreOrder grows.
Proof.
  split.
  - intros w. by unfold grows.
  - intros w1 w2 w3 (sub12 & pool12 & cfg12) (sub23 & pool23 & cfg23).
    unfold grows. split; [set_solver | split; congruence].
Qed.

(** Operations other than the balance query. *)
Definition not_balance_query (e : event) : Prop := is_GetBalance e = false.

(** The number of balance queries among completed operations. *)
Definition balance_queries (trace : list event) : nat :=
  length (filter (λ e, is_GetBalance e = true) trace).

Lemma balance_queries_none (trace : list event) :
  Forall not_balance_query trace → balance_queries trace = 0%nat.
Proof.
  unfold balance_queries, not_balance_query.
  induction 1 as [|e rest quiet _ IH]; [done|].
  rewrite filter_cons_False; [done | congruence].
Qed.

Lemma calculateFundingPart_grows {constants : Constants} {runtime : Runtime}
    (remaining remainingParts : Z) (this : WalletManager) :
  grows this (calculateFundingPart remaining remainingParts this).2.
Proof. by unfold grows. Qed.

Lemma failedToFund_respects (wallet : Wallet) (e : string) :
  method_respects grows (failedToFund wallet e).
Proof. intros w. split; [by unfold grows | done]. Qed.

Lemma fundParts_respects {constants : Constants} {runtime : Runtime}
    (wallet : Wallet) (kp : Keypair)
    (left : nat) (remaining : Z) :
  method_respects grows (fundParts wallet kp left remaining).
Proof.
  revert remaining. induction left as [|left IH]; intros remaining this.
  - split; [reflexivity | done].
  - cbn [fundParts].
    destruct (_ <? remaining); [|split; [reflexivity | done]].
    pose proof (calculateFundingPart_grows remaining (Z.of_nat (S left)) this)
      as same.
    destruct (calculateFundingPart remaining (Z.of_nat (S left)) this)
      as [cappedPart this1]. cbn [snd] in same.
    unfold random. cbn [fst snd].
    destruct (index _ _) as [relayer|].
    2: { split; [exact same | done]. }
    cbn [fst snd]. split; [exact same|].
    apply respects_Await.
    intros [sig|e]; [|apply failedToFund_respects].
    intros w. split; [reflexivity|].
    apply respects_Await.
    intros [[]|e]; [|apply failedToFund_respects].
    destruct (2 ^ 53 <=? Z.abs cappedPart); [apply failedToFund_respects|].
    intros w'. split; [by unfold grows|].
    apply respects_Await. intros _. apply IH.
Qed.

Lemma fundParts_requests {constants : Constants} {runtime : Runtime}
    (wallet : Wallet) (kp : Keypair)
    (left : nat) (remaining : Z) (this : WalletManager) :
  requests not_balance_query (fundParts wallet kp left remaining this).2.
Proof.
  revert remaining this. induction left as [|left IH]; intros remaining this.
  - done.
  - cbn [fundParts].
    destruct (_ <? remaining); [|done].
    destruct (calculateFundingPart remaining (Z.of_nat (S left)) this)
      as [cappedPart this1].
    unfold random. cbn [fst snd].
    destruct (index _ _) as [relayer|]; [|done].
    apply requests_Await; [intros; by repeat constructor|].
    intros [sig|e] w; [|done].
    apply requests_Await; [intros; by repeat constructor|].
    intros [[]|e] w'; [|done].
    destruct (2 ^ 53 <=? Z.abs cappedPart); [done|].
    apply requests_Await; [intros; by repeat constructor|].
    intros _ w''. apply IH.
Qed.

Lemma afterBalance_respects {constants : Constants} {runtime : Runtime}
    (wallet : Wallet)
    (kp : Keypair) (answer : settled Z) :
  method_respects grows (afterBalance wallet kp answer).
Proof.
  destruct answer as [balance|e]; [|apply failedToFund_respects].
  intros w. unfold afterBalance.
  destruct (_ <=? balance); [split; [reflexivity | done]|].
  unfold random. cbn [fst snd].
  destruct (fundParts_respects wallet kp
              (Z.to_nat (JS.Math_floor (Math_random (randomCalls w) * 4) + 1))
              (fundAmountLamports w - balance)
              (set_randomCalls (S (randomCalls w)) w)) as [first rest].
  by split.
Qed.

Lemma afterBalance_requests {constants : Constants} {runtime : Runtime}
    (wallet : Wallet)
    (kp : Keypair) (answer : settled Z) (this : WalletManager) :
  requests not_balance_query (afterBalance wallet kp answer this).2.
Proof.
  destruct answer as [balance|e]; [|done].
  unfold afterBalance. destruct (_ <=? balance); [done|].
  unfold random. cbn [fst snd]. apply fundParts_requests.
Qed.

Lemma fundSingleWallet_respects {constants : Constants} {runtime : Runtime}
    (wallet : Wallet) :
  method_respects grows (fundSingleWallet wallet).
Proof.
  intros w. rewrite fundSingleWallet_unfold.
  case_decide; [split; [reflexivity | done]|].
  cbv zeta. destruct (Keypair_fromSecretKey _) as [kp|]; cbn [fst snd].
  - split; [unfold grows; cbn; split; [set_solver | done]|].
    apply respects_Await, afterBalance_respects.
  - split; [unfold grows; cbn; split; [set_solver | done] | done].
Qed.

(** A call for a key of the funded set does nothing. *)
Lemma fundSingleWallet_noop {constants : Constants} {runtime : Runtime}
    (wallet : Wallet)
    (this : WalletManager) :
  pubkey wallet ∈ funded this →
  fundSingleWallet wallet this = (this, Done (Fulfilled tt)).
Proof. intros claimed. rewrite fundSingleWallet_unfold. by case_decide. Qed.

(** However a call goes, it ends with the key in the funded set, with
    at most one balance query among its operations. *)
Lemma fundSingleWallet_wp {constants : Constants} {runtime : Runtime}
    (wallet : Wallet)
    (this : WalletManager) :
  pubkey wallet ∉ funded this →
  wp (λ final _ trace,
        pubkey wallet ∈ funded final
        ∧ (balance_queries trace ≤ 1)%nat)
     (fundSingleWallet wallet this).2 (fundSingleWallet wallet this).1.
Proof.
  intros unclaimed. rewrite fundSingleWallet_unfold. case_decide; [done|].
  cbv zeta. set (claimed := set_funded _ this).
  assert (pubkey wallet ∈ funded claimed) as held.
  { subst claimed. cbn. set_solver. }
  destruct (Keypair_fromSecretKey _) as [kp|]; cbn [fst snd];
    [|split; [done | cbn; lia]].
  apply wp_Await. intros answer. cbn [completed app].
  eapply wp_mono;
    [|apply wp_and;
       [apply (respects_wp grows), afterBalance_respects
       |apply (requests_wp not_balance_query), afterBalance_requests]].
  cbn beta. intros final _ trace [grown quiet]. split.
  - apply grown.
    destruct (afterBalance_respects wallet kp answer claimed) as [first _].
    by apply first.
  - unfold balance_queries. rewrite filter_cons_True by done. cbn [length].
    fold (balance_queries trace). by rewrite balance_queries_none.
Qed.

Lemma callAll_cons {W A B} (f : A → W → W * task W B) (x : A)
    (rest : list A) (w : W) :
  callAll f (x :: rest) w
  = ((f x w).2 :: (callAll f rest (f x w).1).1, (callAll f rest (f x w).1).2).
Proof.
  cbn [callAll]. destruct (f x w) as [w1 t]. cbn [fst snd].
  by destruct (callAll f rest w1).
Qed.

Lemma fundSingleWallet_claimed {constants : Constants} {runtime : Runtime}
    (wallet : Wallet)
    (this : WalletManager) :
  pubkey wallet ∈ funded (fundSingleWallet wallet this).1.
Proof.
  rewrite fundSingleWallet_unfold. case_decide as claimed; [exact claimed|].
  cbv zeta.
  destruct (Keypair_fromSecretKey _); cbn [fst]; unfold set_funded;
    cbn [funded]; set_solver.
Qed.

Lemma callAll_noop {constants : Constants} {runtime : Runtime}
    (batch : list Wallet)
    (this : WalletManager) :
  Forall (λ wallet, pubkey wallet ∈ funded this) batch →
  callAll fundSingleWallet batch this
  = (map (λ _, Done (Fulfilled tt)) batch, this).
Proof.
  induction 1 as [|wallet rest claimed _ IH]; [done|].
  cbn [callAll map]. by rewrite fundSingleWallet_noop, IH.
Qed.

Lemma allSettled_Done {W A} (outcomes : list (settled A)) :
  allSettled (W := W) (map Done outcomes) = Done (Fulfilled outcomes).
Proof. induction outcomes as [|r rest IH]; [done|]. cbn. by rewrite IH. Qed.

(** C3: a call of [fundSingleWallet] for a key of the funded set does
    nothing: no request, no change of the object.  A call for another
    key puts the key into the funded set in its first segment, before
    anything is awaited; the first operation it then waits for is the
    balance query (unless the private key is malformed); no segment of
    the call takes the key out again; and among any number of
    concurrent calls for records with that key, however they
    interleave, at most one balance query is made. *)
Theorem fundSingleWallet_claims_before_work {constants : Constants}
    {runtime : Runtime}
    (wallet : Wallet) (this : WalletManager) :
  (pubkey wallet ∈ funded this →
   fundSingleWallet wallet this = (this, Done (Fulfilled tt)))
  ∧ (pubkey wallet ∉ funded this →
     (fundSingleWallet wallet this).1
     = set_funded ({[pubkey wallet]} ∪ funded this) this
     ∧ pubkey wallet ∈ funded (fundSingleWallet wallet this).1
     ∧ match (fundSingleWallet wallet this).2 with
       | Done outcome =>
           Keypair_fromSecretKey (privateKey wallet) = None
           ∧ outcome = Rejected bad_secret_key
       | Suspend rq _ _ =>
           ∃ kp, Keypair_fromSecretKey (privateKey wallet) = Some kp
                 ∧ Ev rq = Ev (GetBalance (publicKey kp))
       end
     ∧ respects grows (fundSingleWallet wallet this).2
     ∧ ∀ (others : list Wallet) env n,
         Forall (λ other, pubkey other = pubkey wallet) others →
         let calls := callAll fundSingleWallet (wallet :: others) this in
         let result := run env (allSettled calls.1) calls.2 n in
         (balance_queries result.2 ≤ 1)%nat
         ∧ pubkey wallet ∈ funded result.1.1).
Proof.
  split; [apply fundSingleWallet_noop|]. intros unclaimed.
  assert (∀ (others : list Wallet) env n,
            Forall (λ other, pubkey other = pubkey wallet) others →
            let calls := callAll fundSingleWallet (wallet :: others) this in
            let result := run env (allSettled calls.1) calls.2 n in
            (balance_queries result.2 ≤ 1)%nat
            ∧ pubkey wallet ∈ funded result.1.1) as duplicates.
  { intros others env n same. rewrite callAll_cons. cbn [fst snd].
    rewrite callAll_noop.
    2: { eapply Forall_impl; [exact same|]. intros other ->.
         apply fundSingleWallet_claimed. }
    cbn [fst snd]. rewrite <- (map_map (λ _, Fulfilled tt) Done).
    cbn [allSettled]. rewrite allSettled_Done.
    apply (wp_run (λ final _ trace,
                     (balance_queries trace ≤ 1)%nat
                     ∧ pubkey wallet ∈ funded final)).
    apply wp_then, wp_both_Done_r.
    eapply wp_mono; [|by apply fundSingleWallet_wp]. cbn. tauto. }
  pose proof (fundSingleWallet_claimed wallet this) as held.
  pose proof (fundSingleWallet_respects wallet this) as [_ keeps].
  revert held keeps.
  rewrite fundSingleWallet_unfold. case_decide; [done|]. cbv zeta.
  destruct (Keypair_fromSecretKey (privateKey wallet)) as [kp|];
    cbn [fst snd]; intros held keeps.
  - split; [done|]. split; [done|]. split; [by exists kp|]. by split.
  - split; [done|]. split; [done|]. split; [done|]. by split.
Qed.

Lemma fundSingleWallet_claims_before_work_witness :
  let calls :=
    callAll (fundSingleWallet (constants := sample_constants)
               (runtime := constant_runtime 0.5 "A"))
      [wallet_A; wallet_A; wallet_A] one_relayer in
  let result := run calm (allSettled calls.1) calls.2 0 in
  balance_queries result.2 = 1%nat
  ∧ (balance_queries result.2 ≤ 1)%nat
  ∧ pubkey wallet_A ∈ funded result.1.1.
Proof.
  intros calls result. split; [vm_compute; reflexivity|].
  destruct (fundSingleWallet_claims_before_work (constants := sample_constants)
              (runtime := constant_runtime 0.5 "A") wallet_A one_relayer)
    as [_ claims].
  destruct claims as (_ & _ & _ & _ & duplicates).
  { vm_compute. set_solver. }
  apply (duplicates [wallet_A; wallet_A] calm 0%nat).
  repeat constructor.
Defined.

(** ** Failed attempts *)







(** ** The pool *)

(** The public keys of the key pairs that [count] calls of
    [Keypair.generate()] return, from the [first]-th call on. *)
Definition generated_keys {runtime : Runtime} (first count : nat)
    : list string :=
  map (λ k, publicKey (Keypair_generate k)) (seq first count).

Lemma newWallets_spec {runtime : Runtime} (size : nat) (walletName : string)
    (this : WalletManager) :
  map pubkey (newWallets size walletName this).1
  = generated_keys (keypairsGenerated this) size
  ∧ (newWallets size walletName this).2
    = set_keypairsGenerated (keypairsGenerated this + size) this.
Proof.
  revert this. induction size as [|size IH]; intros this.
  - cbn. rewrite Nat.add_0_r. by destruct this.
  - cbn [newWallets]. unfold generate.
    destruct (IH (set_keypairsGenerated (S (keypairsGenerated this)) this))
      as [keys after].
    destruct (newWallets size walletName _) as [rest this']. cbn in *.
    rewrite keys, after. split; [done|].
    unfold set_keypairsGenerated. cbn. do 2 f_equal. lia.
Qed.



Lemma generateBatches_S {runtime : Runtime} (fuel : nat) (i remaining : Z)
    (this : WalletManager) :
  generateBatches (S fuel) i remaining this
  = if i <? remaining then
      (generateBatch i remaining this, Await (Delay 10) (λ _ this,
        generateBatches fuel (i + 1000) remaining this))
    else writeWallets this.
Proof. reflexivity. Qed.



Lemma log_grows (entry : LogEntry) (this : WalletManager) :
  grows this (log entry this).
Proof. by unfold grows. Qed.

Lemma fundBatches_S {constants : Constants} {runtime : Runtime} (fuel i : nat)
    (toCheck : list Wallet) (this : WalletManager) :
  fundBatches (S fuel) i toCheck this
  = if (i <? length toCheck)%nat then
      ((fundBatch i toCheck this).2,
       await_call (allSettled (fundBatch i toCheck this).1) (λ _ this,
         let this :=
           log (FundingProgress (Nat.min (i + 50) (length toCheck))
                  (length toCheck)) this in
         fundBatches fuel (i + 50)%nat toCheck this))
    else (this, Done (Fulfilled tt)).
Proof. reflexivity. Qed.

Lemma fundBatches_respects {constants : Constants} {runtime : Runtime}
    (fuel i : nat) (toCheck : list Wallet) :
  method_respects grows (fundBatches fuel i toCheck).
Proof.
  revert i. induction fuel as [|fuel IH]; intros i this.
  - split; [reflexivity | done].
  - rewrite fundBatches_S.
    destruct (i <? length toCheck)%nat; [|split; [reflexivity | done]].
    destruct (callAll_respects grows fundSingleWallet
                (JS.slice i (i + 50) toCheck) this fundSingleWallet_respects)
      as [started calls].
    cbn [fst snd]. split; [done|].
    apply respects_await_call; [by apply respects_allSettled|].
    intros _ w. destruct (IH (i + 50)%nat (log (FundingProgress
      (Nat.min (i + 50) (length toCheck)) (length toCheck)) w)) as [first rest].
    split; [|done]. etrans; [apply log_grows | exact first].
Qed.

Lemma fundWalletsInParallel_respects {constants : Constants}
    {runtime : Runtime} :
  method_respects grows fundWalletsInParallel.
Proof.
  intros this. unfold fundWalletsInParallel.
  destruct (relayerKeypairs this); [split; [apply log_grows | done]|].
  cbv zeta.
  destruct (fundBatches_respects
              (length (filter (λ w, pubkey w ∉ funded
                         (log (CheckingFunding (length (walletData this))) this))
                       (walletData (log (CheckingFunding
                          (length (walletData this))) this))))
              0
              (filter (λ w, pubkey w ∉ funded
                         (log (CheckingFunding (length (walletData this))) this))
                 (walletData (log (CheckingFunding
                    (length (walletData this))) this)))
              (log (CheckingFunding (length (walletData this))) this))
    as [first rest].
  split; [|done]. etrans; [apply log_grows | exact first].
Qed.

Lemma loadSpecialWallets_pool {runtime : Runtime} (this : WalletManager) :
  walletData (loadSpecialWallets this).1 = walletData this.
Proof.
  unfold loadSpecialWallets.
  destruct (sinkPrivateKey (config this)) as [key|];
    [destruct (Keypair_fromSecretKey key); [|done]|];
    cbn [fst snd config log set_sinkKeypair];
    (destruct (relayerPrivateKeys (config this)) as [[|key' keys]|]; [done| |done]);
    by destruct (mapM _ _).
Qed.


(** An environment that answers [loadWallets()] with [records], and
    otherwise succeeds. *)
Definition loads (records : list RawWallet) : oracle := λ _ R rq,
  match rq in request R return R with
  | LoadWallets => Fulfilled records
  | other => succeed other
  end.

(** A record of the wallet file with its public key. *)
Definition stored (pk : string) : RawWallet := {|
  raw_pubkey := Some pk;
  raw_publicKey := None;
  raw_privateKey := [];
  raw_name := None;
  raw_isSeasoned := None;
|}.


(** The segment of [loadOrGenerateWallets] that runs when [loadWallets()]
    has settled. *)
Definition afterLoad {constants : Constants} {runtime : Runtime}
    (answer : settled (list RawWallet))
    (this : WalletManager) : WalletManager * task WalletManager unit :=
  match answer with
  | Rejected e => failedToLoad e this
  | Fulfilled loaded =>
      match normalizeWalletData loaded this with
      | None => failedToLoad bad_secret_key this
      | Some this =>
          let this := set_allPubkeys (Set_of (map pubkey (walletData this))) this in
          let this := log (LoadedExisting (length (walletData this))) this in
          if (length (walletData this) <? numWalletsToGenerate (config this))%nat then
            let '(this, call) := generateWallets this in
            (this, await_call call (λ outcome this,
              match outcome with
              | Rejected e => failedToLoad e this
              | Fulfilled _ => loadRest this
              end))
          else loadRest this
      end
  end.

Lemma loadOrGenerateWallets_unfold {constants : Constants} {runtime : Runtime}
    (this : WalletManager) :
  loadOrGenerateWallets this = (this, Await LoadWallets afterLoad).
Proof. reflexivity. Qed.





(** ** Loop bounds *)

(** The bounds that the embedding puts on the two batch loops are never
    what ends them: from the bound that the method passes on, a larger
    bound changes nothing in any run. *)

Lemma run_await_call_ext {W A B} (env : oracle) (t : task W B)
    (seg1 seg2 : settled B → W → W * task W A) :
  (∀ r w n, run env (seg1 r w).2 (seg1 r w).1 n
            = run env (seg2 r w).2 (seg2 r w).1 n) →
  ∀ w n, run env (await_call t seg1) w n = run env (await_call t seg2) w n.
Proof.
  intros same. induction t as [r|R rq upd next IH]; intros w n; cbn.
  - by rewrite same.
  - by rewrite IH.
Qed.

Lemma generateBatches_fuel {runtime : Runtime} (env : oracle) (fuel : nat)
    (i remaining : Z) (this : WalletManager) (n : nat) :
  remaining - i ≤ 1000 * Z.of_nat fuel →
  run env (generateBatches (S fuel) i remaining this).2
    (generateBatches (S fuel) i remaining this).1 n
  = run env (generateBatches fuel i remaining this).2
      (generateBatches fuel i remaining this).1 n.
Proof.
  revert i this n. induction fuel as [|fuel IH]; intros i this n enough.
  - rewrite generateBatches_S. by destruct (Z.ltb_spec i remaining); [lia|].
  - rewrite (generateBatches_S (S fuel)), (generateBatches_S fuel).
    destruct (i <? remaining); [|done]. cbn [fst snd]. unfold Await.
    cbn [run]. rewrite IH by lia. done.
Qed.

Lemma fundBatches_fuel {constants : Constants} {runtime : Runtime}
    (env : oracle) (fuel i : nat) (toCheck : list Wallet)
    (this : WalletManager) (n : nat) :
  (length toCheck ≤ i + 50 * fuel)%nat →
  run env (fundBatches (S fuel) i toCheck this).2
    (fundBatches (S fuel) i toCheck this).1 n
  = run env (fundBatches fuel i toCheck this).2
      (fundBatches fuel i toCheck this).1 n.
Proof.
  revert i this n. induction fuel as [|fuel IH]; intros i this n enough.
  - rewrite fundBatches_S.
    by destruct (Nat.ltb_spec i (length toCheck)); [lia|].
  - rewrite (fundBatches_S (S fuel)), (fundBatches_S fuel).
    destruct (i <? length toCheck)%nat; [|done]. cbn [fst snd].
    apply run_await_call_ext. intros _ w m. apply IH. lia.
Qed.

(** ** Two calls in flight *)

(** A runtime that derives the key [A] from the empty secret key and the
    key [B] from any other, with all draws at 0 (one part per attempt). *)
Definition two_keys : Runtime := {|
  Math_random := λ _, 0%Q;
  Keypair_generate := λ k : nat,
    {| publicKey := "key" +:+ pretty k; secretKey := [] |};
  Keypair_fromSecretKey := λ key,
    Some {| publicKey := match key with [] => "A" | _ => "B" end;
            secretKey := key |};
  getRandomNumberBetween := λ lo hi calls, (lo, calls);
|}.

Definition wallet_B : Wallet :=
  {| pubkey := "B"; privateKey := [Byte.x01]; name := "Wallet2";
     isSeasoned := false |}.

(** An environment that serves two pending requests in turn, the second
    one first. *)
Definition in_turn : oracle := λ n R rq,
  match rq in request R return R with
  | Select a b => if Nat.even n then inr (succeed b) else inl (succeed a)
  | other => succeed other
  end.

(** What an operation is, and for which key. *)
Definition label (e : event) : string :=
  match projT2 e with
  | GetBalance pk => "balance " +:+ pk
  | SendTransaction tx _ => "send " +:+ toPubkey tx
  | ConfirmTransaction _ => "confirm"
  | Delay _ => "delay"
  | _ => "other"
  end.

(** The operations of two funding calls of one batch interleave, and
    each account gets its transfer. *)
Example two_calls_interleave :
  let calls :=
    callAll (fundSingleWallet (constants := sample_constants) (runtime := two_keys))
      [wallet_A; wallet_B] one_relayer in
  let result := run in_turn (allSettled calls.1) calls.2 0 in
  map label result.2
  = ["balance B"; "balance A"; "send B"; "send A"; "confirm"; "confirm";
     "delay"; "delay"]
  ∧ transfers result.2 = [600; 600]
  ∧ elements (funded result.1.1) ≡ₚ ["A"; "B"].
Proof.
  cbv zeta. split; [vm_compute; reflexivity|].
  split; [vm_compute; reflexivity|].
  apply (bool_decide_unpack _). vm_compute. exact I.
Qed.


(** ** Normalized records *)

(** A pool record as a record of the wallet file: the four fields that
    [normalizeWalletData] writes. *)
Definition asLoaded (w : Wallet) : RawWallet := {|
  raw_pubkey := Some (pubkey w);
  raw_publicKey := None;
  raw_privateKey := privateKey w;
  raw_name := Some (name w);
  raw_isSeasoned := Some (isSeasoned w);
|}.

Lemma or_string_nonempty (s : option string) (d : string) :
  d ≠ "" → JS.or_string s d ≠ "".
Proof. intros given. unfold JS.or_string. destruct s; [by case_decide | done]. Qed.

Lemma or_string_truthy (v d : string) : v ≠ "" → JS.or_string (Some v) d = v.
Proof. intros nonempty. unfold JS.or_string. by case_decide. Qed.

Lemma or_string_falsy (s : option string) (d : string) :
  JS.or_string s "" = "" → JS.or_string s d = d.
Proof. unfold JS.or_string. destruct s; [by case_decide | done]. Qed.

Lemma normalize_asLoaded {runtime : Runtime} (w : Wallet) :
  pubkey w ≠ "" → name w ≠ "" → normalize (asLoaded w) = Some w.
Proof.
  intros key named. unfold normalize, asLoaded, JS.or_string, JS.or_false.
  cbn. repeat case_decide; try done. by destruct w.
Qed.

(** [normalizeWalletData] keeps the number and the order of the records
    and the private key of each; it takes the public key from [pubkey],
    else from [publicKey], and derives it from the private key only when
    both are missing or empty (so a record that carries its public key
    is normalized whether or not its private key is well formed); every
    normalized record has a name.  Normalizing again changes nothing:
    the records that the method leaves are records that it accepts and
    returns as they are. *)
Theorem normalizeWalletData_is_idempotent {runtime : Runtime}
    (loaded : list RawWallet) (this this' : WalletManager) :
  normalizeWalletData loaded this = Some this' →
  length (walletData this') = length loaded
  ∧ (∀ i raw, loaded !! i = Some raw →
       ∃ w, walletData this' !! i = Some w
            ∧ privateKey w = raw_privateKey raw
            ∧ name w ≠ ""
            ∧ (∀ pk, raw_pubkey raw = Some pk → pk ≠ "" → pubkey w = pk)
            ∧ (∀ pk, JS.or_string (raw_pubkey raw) "" = "" →
                 raw_publicKey raw = Some pk → pk ≠ "" → pubkey w = pk))
  ∧ (Forall (λ w, pubkey w ≠ "") (walletData this') →
     normalizeWalletData (map asLoaded (walletData this')) this' = Some this').
Proof.
  unfold normalizeWalletData. intros normalized.
  destruct (mapM normalize loaded) as [ws|] eqn:each; [|done].
  injection normalized as <-. cbn [walletData set_walletData mbind option_bind].
  pose proof (length_mapM _ _ _ each) as same_length.
  assert (∀ i raw, loaded !! i = Some raw →
            ∃ w, ws !! i = Some w ∧ normalize raw = Some w) as pointwise.
  { apply mapM_Some_1 in each. intros i raw at_i.
    destruct (Forall2_lookup_l _ _ _ _ _ each at_i) as (w & at_i' & by_normalize).
    by exists w. }
  split; [done|]. split.
  - intros i raw at_i. destruct (pointwise i raw at_i) as (w & at_i' & by_normalize).
    exists w. split; [done|]. revert by_normalize. unfold normalize.
    set (first := JS.or_string (raw_pubkey raw) (JS.or_string (raw_publicKey raw) "")).
    assert (∀ pk, raw_pubkey raw = Some pk → pk ≠ "" → first = pk) as from_pubkey.
    { intros pk given nonempty. subst first. rewrite given.
      by apply or_string_truthy. }
    assert (∀ pk, JS.or_string (raw_pubkey raw) "" = "" →
                  raw_publicKey raw = Some pk → pk ≠ "" → first = pk)
      as from_publicKey.
    { intros pk none given nonempty. subst first.
      rewrite (or_string_falsy _ _ none), given. by apply or_string_truthy. }
    case_decide as empty.
    + destruct (Keypair_fromSecretKey _) as [kp|]; [|done]. cbn.
      intros [= <-]. cbn. split; [done|]. split; [by apply or_string_nonempty|].
      split.
      * intros pk given nonempty. by rewrite <- (from_pubkey pk) in nonempty.
      * intros pk none given nonempty.
        by rewrite <- (from_publicKey pk) in nonempty.
    + intros [= <-]. cbn. split; [done|]. split; [by apply or_string_nonempty|].
      by split.
  - intros keyed.
    assert (mapM normalize (map asLoaded ws) = Some ws) as ->; [|by destruct this].
    apply mapM_Some_2. apply Forall2_fmap_l, Forall_Forall2_diag.
    apply Forall_lookup_2. intros i w at_i.
    apply normalize_asLoaded; [by eapply Forall_lookup_1 in keyed|].
    apply mapM_Some_1 in each.
    destruct (Forall2_lookup_r _ _ _ _ _ each at_i) as (raw & _ & by_normalize).
    revert by_normalize. unfold normalize. case_decide.
    + destruct (Keypair_fromSecretKey _); [|done]. intros [= <-]. cbn.
      by apply or_string_nonempty.
    + intros [= <-]. cbn. by apply or_string_nonempty.
Qed.

(** A record with an empty name and the key under [publicKey]. *)
Definition legacy_record : RawWallet := {|
  raw_pubkey := None;
  raw_publicKey := Some "B";
  raw_privateKey := [Byte.x01];
  raw_name := Some "";
  raw_isSeasoned := None;
|}.

Lemma normalizeWalletData_is_idempotent_witness :
  let this := constructor (pool_config 2 1 1000 1000 None) in
  let normalized :=
    set_walletData
      [ {| pubkey := "A"; privateKey := []; name := "Wallet"; isSeasoned := false |};
        {| pubkey := "B"; privateKey := [Byte.x01]; name := "Wallet";
           isSeasoned := false |} ] this in
  normalizeWalletData (runtime := constant_runtime 0.5 "A")
    [stored "A"; legacy_record] this = Some normalized
  ∧ normalizeWalletData (runtime := constant_runtime 0.5 "A")
      (map asLoaded (walletData normalized)) normalized = Some normalized.
Proof.
  intros this normalized. split; [reflexivity|].
  destruct (normalizeWalletData_is_idempotent (runtime := constant_runtime 0.5 "A")
              [stored "A"; legacy_record] this normalized eq_refl)
    as (_ & _ & again).
  apply again. by repeat constructor.
Defined.

(** ** Scaling *)



(** ** Trade counts *)

(** [markWalletUsed(wallet)] called at each of the times [nows], in
    order. *)
Definition markAll (wallet : ActiveWallet) (nows : list Q)
    (this : WalletManager) : WalletManager :=
  foldl (λ this now, markWalletUsed wallet now this) this nows.

Lemma markAll_snoc (wallet : ActiveWallet) (nows : list Q) (now : Q)
    (this : WalletManager) :
  markAll wallet (nows ++ [now]) this
  = markWalletUsed wallet now (markAll wallet nows this).
Proof. unfold markAll. by rewrite foldl_app. Qed.

Lemma getWalletCooldown_count {runtime : Runtime} (walletKey : string)
    (this this' : WalletManager) :
  config this' = config this → randomCalls this' = randomCalls this →
  0 ≤ JS.or_zero (walletTradeCount this !! walletKey) →
  JS.or_zero (walletTradeCount this' !! walletKey)
  = JS.or_zero (walletTradeCount this !! walletKey) + 5 →
  (getWalletCooldown walletKey this').1 = (getWalletCooldown walletKey this).1.
Proof.
  intros same_config same_calls nonneg five. unfold getWalletCooldown.
  rewrite same_config, same_calls, five.
  destruct (getRandomNumberBetween _ _ _) as [baseCooldown calls]. cbn [fst].
  replace (Z.rem (JS.or_zero (walletTradeCount this !! walletKey) + 5) 5)
    with (Z.rem (JS.or_zero (walletTradeCount this !! walletKey)) 5); [done|].
  rewrite !Z.rem_mod_nonneg by lia.
  by rewrite <- (Z.mod_add _ 1 5) by lia.
Qed.

(** [markWalletUsed] counts under the public key of the key pair of the
    wallet: every call adds one to the count of that key (a key without
    a count starts from 0) and stamps the key with the time of the call;
    the counts and time stamps of other keys, the pool, the funded set
    and the random draws are left alone.  The cooldown multiplier runs
    through a cycle of five: after five more uses, [getWalletCooldown]
    returns what it returned before. *)
Theorem markWalletUsed_counts_uses (wallet : ActiveWallet) (nows : list Q)
    (this : WalletManager) :
  let key := publicKey (keypair wallet) in
  let this' := markAll wallet nows this in
  JS.or_zero (walletTradeCount this' !! key)
  = JS.or_zero (walletTradeCount this !! key) + Z.of_nat (length nows)
  ∧ walletCooldowns this' !! key
    = from_option Some (walletCooldowns this !! key) (last nows)
  ∧ (∀ other, other ≠ key →
       walletTradeCount this' !! other = walletTradeCount this !! other
       ∧ walletCooldowns this' !! other = walletCooldowns this !! other)
  ∧ walletData this' = walletData this
  ∧ funded this' = funded this
  ∧ config this' = config this
  ∧ randomCalls this' = randomCalls this
  ∧ ∀ runtime : Runtime,
      0 ≤ JS.or_zero (walletTradeCount this !! key) →
      length nows = 5%nat →
      (getWalletCooldown key this').1 = (getWalletCooldown key this).1.
Proof.
  cbv zeta. set (key := publicKey (keypair wallet)).
  assert (JS.or_zero (walletTradeCount (markAll wallet nows this) !! key)
          = JS.or_zero (walletTradeCount this !! key) + Z.of_nat (length nows)
          ∧ walletCooldowns (markAll wallet nows this) !! key
            = from_option Some (walletCooldowns this !! key) (last nows)
          ∧ (∀ other, other ≠ key →
               walletTradeCount (markAll wallet nows this) !! other
               = walletTradeCount this !! other
               ∧ walletCooldowns (markAll wallet nows this) !! other
                 = walletCooldowns this !! other)
          ∧ walletData (markAll wallet nows this) = walletData this
          ∧ funded (markAll wallet nows this) = funded this
          ∧ config (markAll wallet nows this) = config this
          ∧ randomCalls (markAll wallet nows this) = randomCalls this)
    as (count & stamp & others & pool & claims & options & draws).
  { induction nows as [|now nows IH] using rev_ind.
    - cbn. rewrite Z.add_0_r. by repeat split.
    - destruct IH as (count & stamp & others & pool & claims & options & draws).
      rewrite markAll_snoc, last_snoc, length_app. unfold markWalletUsed.
      fold key. cbn [walletTradeCount walletCooldowns set_walletTradeCount
                     set_walletCooldowns walletData funded config randomCalls
                     from_option length].
      rewrite !lookup_insert_eq. cbn [JS.or_zero]. rewrite count.
      split; [lia|]. split; [done|]. split; [|done].
      intros other different. rewrite !lookup_insert_ne by done.
      by apply others. }
  repeat (split; [done|]).
  intros runtime nonneg five. apply getWalletCooldown_count; try done.
  rewrite count, five. done.
Qed.

Lemma markWalletUsed_counts_uses_witness :
  let wallet := {| keypair := {| publicKey := "A"; secretKey := [] |};
                   activeName := "Wallet1"; activePubkey := "A" |} in
  let this' := markAll wallet [40; 50; 60; 70; 80]%Q three_trades in
  JS.or_zero (walletTradeCount this' !! "A") = 8
  ∧ walletCooldowns this' !! "A" = Some 80%Q
  ∧ (getWalletCooldown (runtime := constant_runtime 0.5 "A") "A" this').1 = 1600.
Proof.
  intros wallet this'.
  destruct (markWalletUsed_counts_uses wallet [40; 50; 60; 70; 80]%Q three_trades)
    as (count & stamp & _ & _ & _ & _ & _ & cycle).
  split; [exact count|]. split; [exact stamp|].
  transitivity
    (getWalletCooldown (runtime := constant_runtime 0.5 "A") "A" three_trades).1;
    [|reflexivity].
  apply (cycle (constant_runtime 0.5 "A")); [|reflexivity].
  vm_compute. discriminate.
Defined.

(** ** The range of the cooldown *)



(** ** Reading a personality *)

(** [getPersonality] answers with [flipper] for a key that holds no tag,
    and for a key whose tag is [undefined] or empty.  After
    [assignPersonalities], every known key reads as a tag of the table,
    provided the table is not empty and holds no empty tag; with an
    empty table every known key reads as [flipper].  Keys that are not
    known read as before. *)
Theorem getPersonality_after_assignPersonalities {constants : Constants}
    {runtime : Runtime} (this : WalletManager) :
  NoDup (allPubkeys this) →
  let this' := assignPersonalities this in
  ((∀ k, unit_interval (Math_random k)) → PERSONALITIES ≠ [] →
   "" ∉ PERSONALITIES →
   ∀ pk, pk ∈ allPubkeys this → getPersonality pk this' ∈ PERSONALITIES)
  ∧ (PERSONALITIES = [] →
     ∀ pk, pk ∈ allPubkeys this → getPersonality pk this' = "flipper")
  ∧ (∀ pk, pk ∉ allPubkeys this →
       getPersonality pk this' = getPersonality pk this)
  ∧ (∀ pk, walletPersonalities this !! pk = None →
       getPersonality pk this = "flipper").
Proof.
  intros distinct this'.
  destruct (assignPersonalities_fold (allPubkeys this) this distinct)
    as (_ & assigned & others).
  fold (assignPersonalities this) in assigned, others. fold this' in assigned, others.
  split; [|split; [|split]].
  - intros draws nonempty no_empty_tag pk known.
    apply list_elem_of_lookup_1 in known as [i at_i].
    unfold getPersonality. rewrite (assigned i pk at_i). cbn [mjoin option_join].
    unfold drawn_tag.
    destruct (index_in_range PERSONALITIES
                (JS.Math_floor (Math_random (randomCalls this + i)
                                * inject_Z (Z.of_nat (length PERSONALITIES)))))
      as [tag at_tag].
    { apply random_index_range; [apply draws|]. destruct PERSONALITIES; [done|].
      cbn. lia. }
    rewrite at_tag. unfold index in at_tag. destruct (_ <? 0); [done|].
    apply list_elem_of_lookup_2 in at_tag. rewrite or_string_truthy; [done|].
    by intros ->.
  - intros empty pk known. apply list_elem_of_lookup_1 in known as [i at_i].
    unfold getPersonality. rewrite (assigned i pk at_i). unfold drawn_tag, index.
    rewrite empty. cbn [length]. destruct (_ <? 0); [done|].
    by rewrite lookup_nil.
  - intros pk unknown. unfold getPersonality. by rewrite others.
  - intros pk absent. unfold getPersonality. by rewrite absent.
Qed.

Lemma getPersonality_after_assignPersonalities_witness :
  let this' := assignPersonalities (constants := sample_constants)
                 (runtime := low_then_high) one_key in
  getPersonality "A" this' ∈ ["flipper"; "hodler"]
  ∧ getPersonality "B" this' = "flipper".
Proof.
  intros this'.
  destruct (getPersonality_after_assignPersonalities
              (constants := sample_constants) (runtime := low_then_high) one_key)
    as (tagged & _ & unknown & untagged).
  { vm_compute. apply NoDup_singleton. }
  split.
  - apply tagged.
    + intros [|k]; split; cbn; lra.
    + done.
    + apply (bool_decide_unpack _). vm_compute. exact I.
    + apply (bool_decide_unpack _). vm_compute. exact I.
  - fold this' in unknown. rewrite unknown.
    + by apply untagged.
    + apply (bool_decide_unpack _). vm_compute. exact I.
Defined.

(** ** The operations of a funding call *)

(** What an operation of a funding call for the key pair [kp] can be,
    given the relayers: the balance query for the key; a transfer to
    the key that a relayer pays and signs, under the fixed compute
    budget; a confirmation; a pause. *)
Definition funding_operation {constants : Constants} (kp : Keypair)
    (relayers : list Keypair) (e : event) : Prop :=
  match projT2 e with
  | GetBalance pk => pk = publicKey kp
  | SendTransaction tx signer =>
      signer ∈ relayers
      ∧ fromPubkey tx = publicKey signer
      ∧ toPubkey tx = publicKey kp
      ∧ computeUnitLimit tx = 25000
      ∧ computeUnitPrice tx = PRIORITY_FEE_MICRO_LAMPORTS
  | ConfirmTransaction _ => True
  | Delay ms => (1000 <= ms)%Q ∧ (ms < 3000)%Q
  | _ => False
  end.

Lemma index_elem_of {A} (l : list A) (j : Z) (x : A) :
  index l j = Some x → x ∈ l.
Proof.
  unfold index. destruct (j <? 0); [done|]. apply list_elem_of_lookup_2.
Qed.

Lemma fundParts_operations {constants : Constants} {runtime : Runtime}
    (wallet : Wallet) (kp : Keypair) (relayers : list Keypair) (left : nat)
    (remaining : Z) (this : WalletManager) :
  (∀ k, unit_interval (Math_random k)) →
  relayerKeypairs this = relayers →
  wp (λ _ _ trace,
        Forall (funding_operation kp relayers) trace
        ∧ (length (transfers trace) ≤ left)%nat)
     (fundParts wallet kp left remaining this).2
     (fundParts wallet kp left remaining this).1.
Proof.
  intros draws. revert remaining this.
  induction left as [|left IH]; intros remaining this configured.
  - cbn. split; [constructor | lia].
  - cbn [fundParts].
    destruct (_ <? remaining); [|cbn; split; [constructor | lia]].
    assert (relayerKeypairs (calculateFundingPart remaining (Z.of_nat (S left)) this).2
            = relayers) as configured1 by done.
    destruct (calculateFundingPart remaining (Z.of_nat (S left)) this)
      as [cappedPart this1]. cbn [snd] in configured1.
    unfold random. cbn [fst snd].
    change (relayerKeypairs (set_randomCalls _ this1)) with (relayerKeypairs this1).
    rewrite configured1.
    destruct (index relayers _) as [relayer|] eqn:drawn;
      [|cbn; split; [constructor | lia]].
    apply index_elem_of in drawn. cbn [fst snd].
    apply wp_Await. intros [sig|e]; cbn [fst snd completed app failedToFund].
    2: { cbn. split; [by repeat constructor | lia]. }
    apply wp_Await. intros [[]|e]; cbn [fst snd completed app failedToFund].
    2: { cbn. split; [by repeat constructor | lia]. }
    destruct (2 ^ 53 <=? Z.abs cappedPart); cbn [fst snd failedToFund].
    { cbn. split; [by repeat constructor | lia]. }
    apply wp_Await. intros []. cbn [fst snd completed app].
    eapply wp_mono; [|apply IH; done].
    cbn beta. intros _ _ trace [operations count]. split.
    + repeat (constructor; [done|]). constructor; [|done].
      unfold funding_operation. cbn [projT2 Ev].
      match goal with
      | |- context [Math_random ?k] => destruct (draws k) as [nonneg below]
      end.
      split; lra.
    + cbn. unfold transfers in count. lia.
Qed.

(** Every operation of a funding call concerns the wallet it is made
    for: the balance queried is that of the key derived from the
    private key of the record; every transfer goes to that key, is paid
    and signed by one of the relayers, and carries a compute unit limit
    of 25000 and the configured priority fee; every pause lasts from
    one to three seconds.  A call makes at most four transfers. *)
Theorem fundSingleWallet_operations {constants : Constants}
    {runtime : Runtime} (wallet : Wallet) (kp : Keypair)
    (this : WalletManager) (env : oracle) (n : nat) :
  (∀ k, unit_interval (Math_random k)) →
  Keypair_fromSecretKey (privateKey wallet) = Some kp →
  let trace :=
    (run env (fundSingleWallet wallet this).2
       (fundSingleWallet wallet this).1 n).2 in
  Forall (funding_operation kp (relayerKeypairs this)) trace
  ∧ (length (transfers trace) ≤ 4)%nat.
Proof.
  intros draws derived. cbv zeta.
  apply (wp_run (λ _ _ trace,
                   Forall (funding_operation kp (relayerKeypairs this)) trace
                   ∧ (length (transfers trace) ≤ 4)%nat)).
  rewrite fundSingleWallet_unfold. case_decide; [cbn; split; [constructor | lia]|].
  cbv zeta. rewrite derived. cbn [fst snd].
  apply wp_Await. intros [balance|e]; cbn [completed app afterBalance failedToFund].
  2: { cbn. split; [by repeat constructor | lia]. }
  destruct (_ <=? balance); [cbn; split; [by repeat constructor | lia]|].
  unfold random. cbn [fst snd].
  eapply wp_mono; [|apply (fundParts_operations wallet kp (relayerKeypairs this));
                     done].
  cbn beta. intros _ _ trace [operations count]. split.
  - by constructor.
  - rewrite transfers_GetBalance.
    pose proof (random_index_range
                  (Math_random (randomCalls
                     (set_funded ({[pubkey wallet]} ∪ funded this) this)))
                  4 (draws _) ltac:(lia)) as range.
    change (inject_Z 4) with 4%Q in range. lia.
Qed.

Lemma fundSingleWallet_operations_witness :
  let fund := fundSingleWallet (constants := sample_constants)
                (runtime := constant_runtime 0.5 "A") wallet_A one_relayer in
  let trace := (run calm fund.2 fund.1 0).2 in
  Forall (funding_operation (constants := sample_constants)
            {| publicKey := "A"; secretKey := [] |}
            [{| publicKey := "R"; secretKey := [] |}]) trace
  ∧ (length (transfers trace) ≤ 4)%nat
  ∧ map label trace
    = ["balance A"; "send A"; "confirm"; "delay"; "send A"; "confirm"; "delay";
       "send A"; "confirm"; "delay"].
Proof.
  intros fund trace.
  destruct (fundSingleWallet_operations (constants := sample_constants)
              (runtime := constant_runtime 0.5 "A") wallet_A
              {| publicKey := "A"; secretKey := [] |} one_relayer calm 0)
    as [operations count].
  - intros k. split; cbn; lra.
  - reflexivity.
  - split; [exact operations|]. split; [exact count|]. vm_compute. reflexivity.
Defined.

(** ** Wallets that need no transfer *)

(** When the balance of the wallet is at least eight tenths of the
    funding target (in lamports, the quotient truncated), or the
    shortfall is not above the minimum buffer, the call ends after the
    balance query: nothing is transferred and nothing is logged, and
    the key stays in the funded set. *)
Theorem fundSingleWallet_leaves_funded_wallet {constants : Constants}
    {runtime : Runtime} (wallet : Wallet) (kp : Keypair) (balance : Z)
    (this : WalletManager) (env : oracle) (n : nat) :
  pubkey wallet ∉ funded this →
  Keypair_fromSecretKey (privateKey wallet) = Some kp →
  env n _ (GetBalance (publicKey kp)) = Fulfilled balance →
  (fundAmountLamports this * 8) ÷ 10 ≤ balance
  ∨ fundAmountLamports this - balance ≤ MIN_SOL_BUFFER_LAMPORTS_BN →
  let result :=
    run env (fundSingleWallet wallet this).2 (fundSingleWallet wallet this).1 n in
  result.2 = [Ev (GetBalance (publicKey kp))]
  ∧ result.1.2 = Fulfilled tt
  ∧ funded result.1.1 = {[pubkey wallet]} ∪ funded this
  ∧ logged result.1.1 = logged this
  ∧ ((fundAmountLamports this * 8) ÷ 10 ≤ balance →
     randomCalls result.1.1 = randomCalls this).
Proof.
  intros unclaimed derived answered enough. cbv zeta.
  rewrite fundSingleWallet_unfold. case_decide; [done|]. cbv zeta.
  rewrite derived. cbn [fst snd]. unfold Await. cbn [run fst snd].
  rewrite answered. unfold afterBalance.
  change (fundAmountLamports (set_funded _ this)) with (fundAmountLamports this).
  destruct (Z.leb_spec ((fundAmountLamports this * 8) ÷ 10) balance)
    as [funded_enough|short]; [by cbn|].
  destruct enough as [|small]; [lia|].
  unfold random. cbn [fst snd].
  destruct (Z.to_nat _) as [|left];
    [cbn -[fundAmountLamports Z.quot Z.mul]; repeat (split; [done|]); lia|].
  cbn [fundParts].
  change (fundAmountLamports (set_funded _ this)) with (fundAmountLamports this).
  destruct (Z.ltb_spec MIN_SOL_BUFFER_LAMPORTS_BN
              (fundAmountLamports this - balance)); [lia|].
  cbn -[fundAmountLamports Z.quot Z.mul]. repeat (split; [done|]). lia.
Qed.

(** An environment in which every wallet holds 900 lamports. *)
Definition balance_900 : oracle := λ _ R rq,
  match rq in request R return R with
  | GetBalance _ => Fulfilled 900
  | other => succeed other
  end.

Lemma fundSingleWallet_leaves_funded_wallet_witness :
  let fund := fundSingleWallet (constants := sample_constants)
                (runtime := constant_runtime 0.5 "A") wallet_A one_relayer in
  (run balance_900 fund.2 fund.1 0).2 = [Ev (GetBalance "A")]
  ∧ logged (run balance_900 fund.2 fund.1 0).1.1 = [].
Proof.
  intros fund.
  destruct (fundSingleWallet_leaves_funded_wallet (constants := sample_constants)
              (runtime := constant_runtime 0.5 "A") wallet_A
              {| publicKey := "A"; secretKey := [] |} 900 one_relayer
              balance_900 0)
    as (operations & _ & _ & quiet & _).
  - vm_compute. set_solver.
  - reflexivity.
  - reflexivity.
  - left. vm_compute. discriminate.
  - by split.
Defined.

(** ** A funding pass *)

(** When the calls for a batch have been made, every key of the batch
    is in the funded set. *)
Lemma callAll_claims {constants : Constants} {runtime : Runtime}
    (batch : list Wallet) (this : WalletManager) :
  Forall (λ w, pubkey w ∈ funded (callAll fundSingleWallet batch this).2) batch.
Proof.
  revert this. induction batch as [|wallet rest IH]; intros this; [done|].
  rewrite callAll_cons. cbn [snd]. constructor; [|apply IH].
  destruct (callAll_respects grows fundSingleWallet rest
              (fundSingleWallet wallet this).1 fundSingleWallet_respects)
    as [(kept & _) _].
  apply kept, fundSingleWallet_claimed.
Qed.

Lemma filter_unclaimed_nil (ws : list Wallet) (claimed : gset string) :
  Forall (λ w, pubkey w ∈ claimed) ws →
  filter (λ w, pubkey w ∉ claimed) ws = [].
Proof.
  induction 1 as [|w ws held _ IH]; [done|].
  rewrite filter_cons_False; [done|]. by intros absent.
Qed.

(** However the calls of the batches go, the loop ends with every key
    of [toCheck] in the funded set, and fulfils. *)
Lemma fundBatches_claims {constants : Constants} {runtime : Runtime}
    (fuel i : nat) (toCheck : list Wallet) (this : WalletManager) :
  (length toCheck ≤ i + 50 * fuel)%nat →
  Forall (λ w, pubkey w ∈ funded this) (take i toCheck) →
  wp (λ final outcome _,
        outcome = Fulfilled tt
        ∧ Forall (λ w, pubkey w ∈ funded final) toCheck)
     (fundBatches fuel i toCheck this).2 (fundBatches fuel i toCheck this).1.
Proof.
  revert i this. induction fuel as [|fuel IH]; intros i this enough checked.
  - cbn. split; [done|]. rewrite take_ge in checked by lia. done.
  - rewrite fundBatches_S.
    destruct (Nat.ltb_spec i (length toCheck)) as [more|all].
    2: { cbn. split; [done|]. rewrite take_ge in checked by lia. done. }
    cbn [fst snd]. unfold fundBatch. cbv zeta.
    assert (JS.slice i (i + 50) toCheck = take 50 (drop i toCheck)) as ->.
    { unfold JS.slice. f_equal. lia. }
    set (batch := take 50 (drop i toCheck)).
    pose proof (callAll_claims batch this) as claimed.
    destruct (callAll_respects grows fundSingleWallet batch this
                fundSingleWallet_respects) as [(kept & _) calls].
    apply wp_await_call.
    eapply wp_mono;
      [|apply (respects_wp grows), respects_allSettled, calls].
    cbn beta. intros resumed _ trace (kept' & _). cbn [fst snd].
    eapply wp_mono; [|apply IH; [lia|]].
    { cbn beta. by intros final outcome _. }
    cbn [funded log]. rewrite <- take_take_drop. apply Forall_app. split.
    + eapply Forall_impl; [exact checked|]. cbn beta.
      intros w held. by apply kept', kept.
    + eapply Forall_impl; [exact claimed|]. cbn beta.
      intros w held. by apply kept'.
Qed.

(** [fundWalletsInParallel] fulfils however the network answers: what
    goes wrong for one wallet stays with that wallet.  Without relayers
    the call does nothing but log.  With relayers, the key of every
    record of the pool is in the funded set when the call ends, whether
    its funding was completed, skipped or failed; so a second pass finds
    nothing to check and makes no request.  The pool stays as it is and
    no key leaves the funded set. *)
Theorem fundWalletsInParallel_claims_every_wallet {constants : Constants}
    {runtime : Runtime} (this : WalletManager) (env : oracle) (n : nat) :
  let result :=
    run env (fundWalletsInParallel this).2 (fundWalletsInParallel this).1 n in
  let final := result.1.1 in
  result.1.2 = Fulfilled tt
  ∧ walletData final = walletData this
  ∧ funded this ⊆ funded final
  ∧ (relayerKeypairs this = [] →
     result = (log SkippingFunding this, Fulfilled tt, []))
  ∧ (relayerKeypairs this ≠ [] →
     Forall (λ w, pubkey w ∈ funded final) (walletData final)
     ∧ (fundWalletsInParallel final).2 = Done (Fulfilled tt)).
Proof.
  cbv zeta.
  set (result := run env (fundWalletsInParallel this).2
                   (fundWalletsInParallel this).1 n).
  assert (grows this result.1.1) as (kept & pool & _).
  { destruct (fundWalletsInParallel_respects this) as [first rest].
    etrans; [exact first|].
    apply (wp_run (λ final _ _, grows (fundWalletsInParallel this).1 final)).
    by apply (respects_wp grows). }
  assert (result.1.2 = Fulfilled tt
          ∧ (relayerKeypairs this = [] →
             result = (log SkippingFunding this, Fulfilled tt, []))
          ∧ (relayerKeypairs this ≠ [] →
             Forall (λ w, pubkey w ∈ funded result.1.1)
               (filter (λ w, pubkey w ∉ funded this) (walletData this))))
    as (fulfils & idle & claimed).
  { subst result. unfold fundWalletsInParallel.
    destruct (relayerKeypairs this) as [|relayer relayers]; [by cbn|].
    cbv zeta.
    set (this1 := log (CheckingFunding (length (walletData this))) this).
    change (funded this1) with (funded this).
    change (walletData this1) with (walletData this).
    set (toCheck := filter (λ w, pubkey w ∉ funded this) (walletData this)).
    pose proof (wp_run _ _ _ env n
                  (fundBatches_claims (length toCheck) 0 toCheck this1
                     ltac:(lia) ltac:(by rewrite take_0))) as ended.
    cbn beta in ended. destruct ended as [fulfils claimed].
    split; [done|]. split; [done|]. by intros _. }
  split; [done|]. split; [done|]. split; [done|]. split; [done|].
  intros configured.
  assert (Forall (λ w, pubkey w ∈ funded result.1.1) (walletData result.1.1))
    as every.
  { rewrite pool. apply Forall_forall. intros w member.
    destruct (decide (pubkey w ∈ funded this)) as [held|unclaimed].
    - by apply kept.
    - specialize (claimed configured). rewrite Forall_forall in claimed.
      apply claimed. by apply list_elem_of_filter. }
  split; [exact every|].
  unfold fundWalletsInParallel. destruct (relayerKeypairs result.1.1); [done|].
  cbv zeta. cbn [funded walletData log].
  by rewrite (filter_unclaimed_nil _ _ every).
Qed.

(** An environment in which every balance query fails, also among
    several pending requests. *)
Fixpoint refuse {R} (rq : request R) : R :=
  match rq in request R return R with
  | GetBalance _ => Rejected "fetch failed"
  | Select a _ => inl (refuse a)
  | other => succeed other
  end.

Definition offline : oracle := λ _ R rq, refuse rq.

(** Two wallets, one relayer, and a network that fails every balance
    query: the pass fulfils and both keys are in the funded set. *)
Lemma fundWalletsInParallel_claims_every_wallet_witness :
  let this := set_walletData [wallet_A; wallet_B] one_relayer in
  let pass := fundWalletsInParallel (constants := sample_constants)
                (runtime := two_keys) this in
  let result := run offline pass.2 pass.1 0 in
  result.1.2 = Fulfilled tt
  ∧ Forall (λ w, pubkey w ∈ funded result.1.1) [wallet_A; wallet_B]
  ∧ logged result.1.1
    = [CheckingFunding 2; FailedToFund "Wallet1" "fetch failed";
       FailedToFund "Wallet2" "fetch failed"; FundingProgress 2 2].
Proof.
  intros this pass result.
  destruct (fundWalletsInParallel_claims_every_wallet
              (constants := sample_constants) (runtime := two_keys)
              this offline 0)
    as (fulfils & pool & _ & _ & claimed).
  fold pass in fulfils, pool, claimed. fold result in fulfils, pool, claimed.
  split; [exact fulfils|]. split.
  - destruct claimed as [every _]; [done|]. rewrite pool in every. exact every.
  - vm_compute. reflexivity.
Defined.

(** ** Generated records *)

(** The [j]-th record that [generateWallets] adds to a pool of [P]
    records when [g] key pairs have been generated before: the name
    counts in steps of 2000 from batch to batch, and is the same for
    the (up to 1000) records of one batch. *)
Definition generatedWallet {runtime : Runtime} (P g j : nat) : Wallet := {|
  pubkey := publicKey (Keypair_generate (g + j));
  privateKey := secretKey (Keypair_generate (g + j));
  name := "Wallet" +:+ JS.toString (Z.of_nat P + 2000 * (Z.of_nat j / 1000) + 1);
  isSeasoned := false;
|}.

Lemma newWallets_records {runtime : Runtime} (size : nat) (walletName : string)
    (this : WalletManager) :
  (newWallets size walletName this).1
  = map (λ k, {| pubkey := publicKey (Keypair_generate k);
                 privateKey := secretKey (Keypair_generate k);
                 name := walletName;
                 isSeasoned := false |})
        (seq (keypairsGenerated this) size).
Proof.
  revert this. induction size as [|size IH]; intros this; [done|].
  cbn [newWallets]. unfold generate.
  specialize (IH (set_keypairsGenerated (S (keypairsGenerated this)) this)).
  destruct (newWallets size walletName _) as [rest this']. cbn [fst] in *.
  by rewrite IH.
Qed.

(** One iteration, at the offset of the batch [b]. *)
Lemma generateBatch_records {runtime : Runtime} (P g b : nat) (remaining : Z)
    (this : WalletManager) :
  length (walletData this) = (P + 1000 * b)%nat →
  keypairsGenerated this = (g + 1000 * b)%nat →
  let size := Z.to_nat (Z.min 1000 (remaining - 1000 * Z.of_nat b)) in
  let next := generateBatch (1000 * Z.of_nat b) remaining this in
  walletData next
  = walletData this ++ map (generatedWallet P g) (seq (1000 * b) size)
  ∧ allPubkeys next
    = foldl (λ s pk, Set_add pk s) (allPubkeys this)
        (map (λ j, pubkey (generatedWallet P g j)) (seq (1000 * b) size))
  ∧ keypairsGenerated next = (g + 1000 * b + size)%nat
  ∧ config next = config this
  ∧ funded next = funded this.
Proof.
  intros pool keys size next. subst next. unfold generateBatch. cbv zeta.
  fold size. set (walletName := "Wallet" +:+ _).
  pose proof (newWallets_records size walletName this) as records.
  destruct (newWallets_spec size walletName this) as [_ after].
  destruct (newWallets size walletName this) as [batch this1].
  cbn [fst snd] in *. subst this1.
  assert (batch = map (generatedWallet P g) (seq (1000 * b) size)) as ->.
  { rewrite records, keys, <- fmap_add_seq, <- list_fmap_compose.
    apply list_fmap_ext. intros i j [-> bounds]%lookup_seq.
    unfold compose. cbv beta.
    unfold generatedWallet. f_equal. subst walletName. do 2 f_equal.
    rewrite pool. assert (size ≤ 1000)%nat by lia.
    assert (Z.of_nat (1000 * b + i) / 1000 = Z.of_nat b) as ->; [|lia].
    symmetry. apply (Z.div_unique _ _ _ (Z.of_nat i)); lia. }
  cbn. split; [done|]. split; [|by rewrite keys].
  by rewrite !foldl_fmap.
Qed.

Lemma batches_none (left : Z) :
  left ≤ 0 → Z.to_nat ((left + 999) / 1000) = 0%nat.
Proof.
  intros none. pose proof (Z.div_lt_upper_bound (left + 999) 1000 1). lia.
Qed.

Lemma batches_more (left : Z) :
  0 < left →
  Z.to_nat ((left + 999) / 1000) = S (Z.to_nat ((left - 1000 + 999) / 1000)).
Proof.
  intros more. replace (left + 999) with (left - 1000 + 999 + 1 * 1000) by lia.
  rewrite Z.div_add by lia.
  pose proof (Z.div_pos (left - 1000 + 999) 1000). lia.
Qed.

Lemma writeWallets_wp (Q : WalletManager → settled unit → list event → Prop)
    (this : WalletManager) :
  (∀ outcome, Q this outcome [Ev (WriteWallets (walletData this))]) →
  wp Q (writeWallets this).2 (writeWallets this).1.
Proof.
  intros written. unfold writeWallets. cbn [fst snd]. apply wp_Await.
  intros [[]|e]; cbn; apply written.
Qed.

(** The loop from the offset of batch [b] on, and the write after it. *)
Lemma generateBatches_records {runtime : Runtime} (fuel P g b : nat)
    (remaining : Z) (this : WalletManager) :
  let left := remaining - 1000 * Z.of_nat b in
  let new := seq (1000 * b) (Z.to_nat left) in
  left ≤ 1000 * Z.of_nat fuel →
  (0 < left → length (walletData this) = (P + 1000 * b)%nat
              ∧ keypairsGenerated this = (g + 1000 * b)%nat) →
  wp (λ final _ trace,
        walletData final = walletData this ++ map (generatedWallet P g) new
        ∧ allPubkeys final
          = foldl (λ s pk, Set_add pk s) (allPubkeys this)
              (map (λ j, pubkey (generatedWallet P g j)) new)
        ∧ trace
          = replicate (Z.to_nat ((left + 999) / 1000)) (Ev (Delay 10))
            ++ [Ev (WriteWallets (walletData final))]
        ∧ config final = config this
        ∧ funded final = funded this)
     (generateBatches fuel (1000 * Z.of_nat b) remaining this).2
     (generateBatches fuel (1000 * Z.of_nat b) remaining this).1.
Proof.
  cbv zeta. revert b this.
  assert (∀ b this, remaining - 1000 * Z.of_nat b ≤ 0 →
            wp (λ final _ trace,
                  walletData final
                  = walletData this
                    ++ map (generatedWallet P g)
                         (seq (1000 * b)
                            (Z.to_nat (remaining - 1000 * Z.of_nat b)))
                  ∧ allPubkeys final
                    = foldl (λ s pk, Set_add pk s) (allPubkeys this)
                        (map (λ j, pubkey (generatedWallet P g j))
                           (seq (1000 * b)
                              (Z.to_nat (remaining - 1000 * Z.of_nat b))))
                  ∧ trace
                    = replicate
                        (Z.to_nat ((remaining - 1000 * Z.of_nat b + 999) / 1000))
                        (Ev (Delay 10))
                      ++ [Ev (WriteWallets (walletData final))]
                  ∧ config final = config this
                  ∧ funded final = funded this)
               (writeWallets this).2 (writeWallets this).1) as complete.
  { intros b this none. apply writeWallets_wp. intros _.
    rewrite batches_none by done.
    replace (Z.to_nat (remaining - 1000 * Z.of_nat b)) with 0%nat by lia.
    cbn. by rewrite app_nil_r. }
  induction fuel as [|fuel IH]; intros b this enough invariant.
  - cbn [generateBatches]. apply complete. lia.
  - rewrite generateBatches_S.
    destruct (Z.ltb_spec (1000 * Z.of_nat b) remaining) as [more|none];
      [|apply complete; lia].
    destruct invariant as [pool keys]; [lia|].
    destruct (generateBatch_records P g b remaining this pool keys)
      as (records & known & generated & options & claims).
    set (size := Z.to_nat (Z.min 1000 (remaining - 1000 * Z.of_nat b))) in *.
    set (next := generateBatch (1000 * Z.of_nat b) remaining this) in *.
    cbn [fst snd]. apply wp_Await. intros []. cbn [fst snd completed app].
    replace (1000 * Z.of_nat b + 1000) with (1000 * Z.of_nat (S b)) by lia.
    eapply wp_mono; [|apply (IH (S b) next); [lia|]].
    + cbn beta. intros final _ trace (records' & known' & operations & options' & claims').
      assert (seq (1000 * b) (Z.to_nat (remaining - 1000 * Z.of_nat b))
              = seq (1000 * b) size
                ++ seq (1000 * S b)
                     (Z.to_nat (remaining - 1000 * Z.of_nat (S b)))) as ->.
      { destruct (decide (remaining - 1000 * Z.of_nat b < 1000)) as [last|full].
        - replace (Z.to_nat (remaining - 1000 * Z.of_nat (S b))) with 0%nat by lia.
          rewrite app_nil_r. f_equal. lia.
        - replace (1000 * S b)%nat with (1000 * b + size)%nat by lia.
          rewrite <- seq_app. f_equal. lia. }
      rewrite !map_app, foldl_app, app_assoc, <- records, <- known.
      split; [done|]. split; [done|]. split; [|split; congruence].
      rewrite batches_more by lia.
      replace (remaining - 1000 * Z.of_nat b - 1000)
        with (remaining - 1000 * Z.of_nat (S b)) by lia.
      by rewrite operations.
    + intros again. rewrite records, length_app, length_map, length_seq, generated.
      lia.
Qed.

(** The pool that [generateWallets] leaves: the records it found,
    followed by one record for each missing one, in the order of
    generation, each with the public and the private key of its key
    pair and unseasoned.  The name of a record is [Wallet] followed by
    a number that is the same for all the records of a batch of 1000
    (the size of the pool before the call, plus 1, for the first batch)
    and 2000 higher for the next batch: neither the index of the record
    within its batch nor its position in the pool enters the name. *)
Theorem generateWallets_names_by_batch {runtime : Runtime}
    (this : WalletManager) (env : oracle) (n : nat) :
  let P := length (walletData this) in
  let T := numWalletsToGenerate (config this) in
  let final := (run env (generateWallets this).2 (generateWallets this).1 n).1.1 in
  walletData final
  = walletData this
    ++ map (generatedWallet P (keypairsGenerated this)) (seq 0 (T - P))
  ∧ Forall (λ w, name w = "Wallet" +:+ JS.toString (Z.of_nat P + 1)
                 ∧ isSeasoned w = false)
      (take 1000 (drop P (walletData final)))
  ∧ Forall (λ w, name w = "Wallet" +:+ JS.toString (Z.of_nat P + 2001))
      (take 1000 (drop (P + 1000) (walletData final))).
Proof.
  cbv zeta.
  assert (walletData (run env (generateWallets this).2
                        (generateWallets this).1 n).1.1
          = walletData this
            ++ map (generatedWallet (length (walletData this))
                      (keypairsGenerated this))
                 (seq 0 (numWalletsToGenerate (config this)
                         - length (walletData this)))) as ->.
  { apply (wp_run (λ final _ _, walletData final = _)).
    unfold generateWallets. cbv zeta.
    eapply wp_mono;
      [|apply (generateBatches_records _ (length (walletData this))
                 (keypairsGenerated this) 0); [lia|]].
    - cbn beta. intros final _ _ (-> & _). cbn. do 3 f_equal. lia.
    - intros _. cbn. lia. }
  split; [done|].
  rewrite drop_app_length, drop_app_add.
  rewrite <- !fmap_drop, <- !fmap_take, !Forall_fmap, drop_seq, !take_seq.
  split; apply Forall_seq; intros j bounds; unfold compose, generatedWallet;
    cbn [name isSeasoned].
  - rewrite Z.div_small by lia. split; [|done]. do 2 f_equal. lia.
  - replace (Z.of_nat j / 1000) with 1; [do 2 f_equal; lia|].
    apply (Z.div_unique _ _ _ (Z.of_nat j - 1000)); lia.
Qed.

(** A target of 5 for an empty pool. *)
Definition five_wanted : WalletManager :=
  constructor (pool_config 5 1 1000 1000 None).

Lemma generateWallets_names_by_batch_witness :
  let call := generateWallets (runtime := constant_runtime 0.5 "A") five_wanted in
  map name (walletData (run calm call.2 call.1 0).1.1)
  = ["Wallet1"; "Wallet1"; "Wallet1"; "Wallet1"; "Wallet1"].
Proof.
  intros call.
  destruct (generateWallets_names_by_batch (runtime := constant_runtime 0.5 "A")
              five_wanted calm 0) as (records & _ & _).
  fold call in records. rewrite records. reflexivity.
Defined.

(** ** What is written to the wallet file *)

(** [generateWallets] pauses once per batch of up to 1000 records and
    then writes the pool, once: the records written are those of the
    pool that the call leaves, the generated ones included.  Whether
    the write succeeds or fails, the pool in memory is complete; the
    options and the funded set are as before. *)
Theorem generateWallets_writes_the_pool {runtime : Runtime}
    (this : WalletManager) (env : oracle) (n : nat) :
  let missing :=
    Z.of_nat (numWalletsToGenerate (config this))
    - Z.of_nat (length (walletData this)) in
  let result := run env (generateWallets this).2 (generateWallets this).1 n in
  result.2
  = replicate (Z.to_nat ((missing + 999) / 1000)) (Ev (Delay 10))
    ++ [Ev (WriteWallets (walletData result.1.1))]
  ∧ length (walletData result.1.1)
    = (length (walletData this) `max` numWalletsToGenerate (config this))%nat
  ∧ config result.1.1 = config this
  ∧ funded result.1.1 = funded this.
Proof.
  cbv zeta.
  apply (wp_run (λ final _ trace,
    trace
    = replicate
        (Z.to_nat ((Z.of_nat (numWalletsToGenerate (config this))
                    - Z.of_nat (length (walletData this)) + 999) / 1000))
        (Ev (Delay 10))
      ++ [Ev (WriteWallets (walletData final))]
    ∧ length (walletData final)
      = (length (walletData this) `max` numWalletsToGenerate (config this))%nat
    ∧ config final = config this
    ∧ funded final = funded this)).
  unfold generateWallets. cbv zeta.
  eapply wp_mono;
    [|apply (generateBatches_records _ (length (walletData this))
               (keypairsGenerated this) 0); [lia|]].
  - cbn beta. intros final _ trace (records & _ & operations & options & claims).
    cbn [Z.of_nat Z.mul] in operations. rewrite Z.sub_0_r in operations.
    split; [done|]. split; [|done].
    rewrite records, length_app, length_map, length_seq.
    cbn [walletData log]. lia.
  - intros _. cbn. lia.
Qed.

(** 2500 records are missing: three pauses, then the write. *)
Lemma generateWallets_writes_the_pool_witness :
  let this := constructor (pool_config 2500 1 1000 1000 None) in
  let call := generateWallets (runtime := constant_runtime 0.5 "A") this in
  let result := run calm call.2 call.1 0 in
  result.2
  = [Ev (Delay 10); Ev (Delay 10); Ev (Delay 10);
     Ev (WriteWallets (walletData result.1.1))]
  ∧ length (walletData result.1.1) = 2500%nat.
Proof.
  intros this call result.
  destruct (generateWallets_writes_the_pool (runtime := constant_runtime 0.5 "A")
              this calm 0) as (operations & size & _).
  fold call in operations, size. fold result in operations, size.
  split; [exact operations | exact size].
Defined.

(** ** What funding leaves alone *)

(** The fields that no step of a funding call assigns: all but the
    funded set, the number of draws made and the log. *)
Definition pool_fields (w : WalletManager) :=
  (config w, walletData w, allPubkeys w, activeWallets w, walletCooldowns w,
   walletTradeCount w, walletPersonalities w, sinkKeypair w,
   relayerKeypairs w, keypairsGenerated w).

Definition keeps_pool : relation WalletManager := λ w w',
  pool_fields w' = pool_fields w.

#[local] Instance keeps_pool_preorder : PreOrder keeps_pool.
Proof.
  split.
  - by intros w.
  - intros w1 w2 w3 same12 same23. unfold keeps_pool in *. congruence.
Qed.

Lemma failedToFund_keeps (wallet : Wallet) (e : string) :
  method_respects keeps_pool (failedToFund wallet e).
Proof. by intros w. Qed.

Lemma fundParts_keeps {constants : Constants} {runtime : Runtime}
    (wallet : Wallet) (kp : Keypair) (left : nat) (remaining : Z) :
  method_respects keeps_pool (fundParts wallet kp left remaining).
Proof.
  revert remaining. induction left as [|left IH]; intros remaining this.
  - split; [reflexivity | done].
  - cbn [fundParts].
    destruct (_ <? remaining); [|split; [reflexivity | done]].
    assert (keeps_pool this
              (calculateFundingPart remaining (Z.of_nat (S left)) this).2)
      as same by done.
    destruct (calculateFundingPart remaining (Z.of_nat (S left)) this)
      as [cappedPart this1]. cbn [snd] in same.
    unfold random. cbn [fst snd].
    destruct (index _ _) as [relayer|].
    2: { split; [exact same | done]. }
    cbn [fst snd]. split; [exact same|].
    apply respects_Await.
    intros [sig|e]; [|apply failedToFund_keeps].
    intros w. split; [reflexivity|].
    apply respects_Await.
    intros [[]|e]; [|apply failedToFund_keeps].
    destruct (2 ^ 53 <=? Z.abs cappedPart); [apply failedToFund_keeps|].
    intros w'. split; [done|].
    apply respects_Await. intros _. apply IH.
Qed.

Lemma afterBalance_keeps {constants : Constants} {runtime : Runtime}
    (wallet : Wallet) (kp : Keypair) (answer : settled Z) :
  method_respects keeps_pool (afterBalance wallet kp answer).
Proof.
  destruct answer as [balance|e]; [|apply failedToFund_keeps].
  intros w. unfold afterBalance.
  destruct (_ <=? balance); [split; [reflexivity | done]|].
  unfold random. cbn [fst snd].
  destruct (fundParts_keeps wallet kp
              (Z.to_nat (JS.Math_floor (Math_random (randomCalls w) * 4) + 1))
              (fundAmountLamports w - balance)
              (set_randomCalls (S (randomCalls w)) w)) as [first rest].
  by split.
Qed.

Lemma fundSingleWallet_keeps {constants : Constants} {runtime : Runtime}
    (wallet : Wallet) :
  method_respects keeps_pool (fundSingleWallet wallet).
Proof.
  intros w. rewrite fundSingleWallet_unfold.
  case_decide; [split; [reflexivity | done]|].
  cbv zeta. destruct (Keypair_fromSecretKey _) as [kp|]; cbn [fst snd].
  - split; [done|]. apply respects_Await, afterBalance_keeps.
  - by split.
Qed.

Lemma fundBatches_keeps {constants : Constants} {runtime : Runtime}
    (fuel i : nat) (toCheck : list Wallet) :
  method_respects keeps_pool (fundBatches fuel i toCheck).
Proof.
  revert i. induction fuel as [|fuel IH]; intros i this.
  - split; [reflexivity | done].
  - rewrite fundBatches_S.
    destruct (i <? length toCheck)%nat; [|split; [reflexivity | done]].
    destruct (callAll_respects keeps_pool fundSingleWallet
                (JS.slice i (i + 50) toCheck) this fundSingleWallet_keeps)
      as [started calls].
    cbn [fst snd]. split; [done|].
    apply respects_await_call; [by apply respects_allSettled|].
    intros _ w. destruct (IH (i + 50)%nat (log (FundingProgress
      (Nat.min (i + 50) (length toCheck)) (length toCheck)) w)) as [first rest].
    split; [|done]. by etrans; [|exact first].
Qed.

Lemma fundWalletsInParallel_keeps {constants : Constants} {runtime : Runtime} :
  method_respects keeps_pool fundWalletsInParallel.
Proof.
  intros this. unfold fundWalletsInParallel.
  destruct (relayerKeypairs this); [by split|].
  cbv zeta.
  set (this1 := log (CheckingFunding (length (walletData this))) this).
  destruct (fundBatches_keeps
              (length (filter (λ w, pubkey w ∉ funded this1) (walletData this1)))
              0 (filter (λ w, pubkey w ∉ funded this1) (walletData this1)) this1)
    as [first rest].
  split; [|done]. by etrans; [|exact first].
Qed.

(** A funding pass assigns nothing but the funded set, the count of
    draws and the log: the options, the pool, the known keys, the
    active wallets, the cooldown stamps, the trade counts, the
    personalities and the key pairs are, when the pass ends, what they
    were when it began, however the calls in flight interleave and
    however they end. *)
Theorem fundWalletsInParallel_leaves_the_pool {constants : Constants}
    {runtime : Runtime} (this : WalletManager) (env : oracle) (n : nat) :
  let final :=
    (run env (fundWalletsInParallel this).2
       (fundWalletsInParallel this).1 n).1.1 in
  config final = config this
  ∧ walletData final = walletData this
  ∧ allPubkeys final = allPubkeys this
  ∧ activeWallets final = activeWallets this
  ∧ walletCooldowns final = walletCooldowns this
  ∧ walletTradeCount final = walletTradeCount this
  ∧ walletPersonalities final = walletPersonalities this
  ∧ sinkKeypair final = sinkKeypair this
  ∧ relayerKeypairs final = relayerKeypairs this
  ∧ keypairsGenerated final = keypairsGenerated this.
Proof.
  cbv zeta.
  assert (keeps_pool this
            (run env (fundWalletsInParallel this).2
               (fundWalletsInParallel this).1 n).1.1) as same.
  { destruct (fundWalletsInParallel_keeps this) as [first rest].
    etrans; [exact first|].
    apply (wp_run (λ final _ _, keeps_pool (fundWalletsInParallel this).1 final)).
    by apply (respects_wp keeps_pool). }
  unfold keeps_pool, pool_fields in same.
  by injection same as -> -> -> -> -> -> -> -> -> ->.
Qed.

(** ** The known keys *)

(** What [allPubkeys] is to the pool: the keys of its records, each
    once. *)
Definition knows_the_pool (w : WalletManager) : Prop :=
  NoDup (allPubkeys w)
  ∧ ∀ pk, pk ∈ allPubkeys w ↔ pk ∈ map pubkey (walletData w).

Lemma Set_add_all (s xs : list string) :
  NoDup s →
  NoDup (foldl (λ s pk, Set_add pk s) s xs)
  ∧ ∀ pk, pk ∈ foldl (λ s pk, Set_add pk s) s xs ↔ pk ∈ s ∨ pk ∈ xs.
Proof.
  revert s. induction xs as [|x xs IH]; intros s distinct.
  - cbn. split; [done|]. intros pk. rewrite elem_of_nil. tauto.
  - cbn [foldl]. destruct (IH (Set_add x s)) as [distinct' members].
    { unfold Set_add. case_decide; [done|]. apply NoDup_app.
      split; [done|]. split; [|apply NoDup_singleton].
      intros pk held ->%list_elem_of_singleton. done. }
    split; [done|]. intros pk. rewrite members, elem_of_cons.
    unfold Set_add. case_decide as known.
    + split; [tauto|]. intros [|[->|]]; tauto.
    + rewrite elem_of_app, list_elem_of_singleton. tauto.
Qed.

Lemma loadSpecialWallets_keys {runtime : Runtime} (this : WalletManager) :
  allPubkeys (loadSpecialWallets this).1 = allPubkeys this
  ∧ keypairsGenerated (loadSpecialWallets this).1 = keypairsGenerated this.
Proof.
  unfold loadSpecialWallets.
  destruct (sinkPrivateKey (config this)) as [key|];
    [destruct (Keypair_fromSecretKey key); [|done]|];
    cbn [fst snd config log set_sinkKeypair];
    (destruct (relayerPrivateKeys (config this)) as [[|key' keys]|]; [done| |done]);
    by destruct (mapM _ _).
Qed.

(** From [loadSpecialWallets()] on, the pool and the known keys stay,
    and no key pair is generated. *)
Lemma loadRest_keeps {constants : Constants} {runtime : Runtime}
    (this : WalletManager) :
  wp (λ final _ _,
        walletData final = walletData this
        ∧ allPubkeys final = allPubkeys this
        ∧ keypairsGenerated final = keypairsGenerated this)
     (loadRest this).2 (loadRest this).1.
Proof.
  unfold loadRest. pose proof (loadSpecialWallets_pool this) as pool.
  pose proof (loadSpecialWallets_keys this) as [keys generated].
  destruct (loadSpecialWallets this) as [this1 [e|]];
    cbn [fst] in pool, keys, generated; [done|].
  set (this2 := if autoScale (config this1) then _ else _).
  assert (walletData this2 = walletData this
          ∧ allPubkeys this2 = allPubkeys this
          ∧ keypairsGenerated this2 = keypairsGenerated this)
    as (pool2 & keys2 & generated2).
  { subst this2. by destruct (autoScale _). }
  destruct (fundWalletsInParallel_keeps this2) as [first rest].
  destruct (fundWalletsInParallel this2) as [this3 call]. cbn [fst snd] in *.
  apply wp_await_call.
  eapply wp_mono; [|apply (respects_wp keeps_pool), rest].
  cbn beta. intros final outcome _ same.
  assert (keeps_pool this2 final) as same' by by etrans.
  unfold keeps_pool, pool_fields in same'.
  injection same' as _ pool3 keys3 _ _ _ _ _ _ generated3.
  destruct outcome as [[]|e]; cbn; repeat split; congruence.
Qed.

(** Once the wallet file has been loaded and normalized, the known keys
    are the keys of the pool, each once, and stay so to the end of
    [loadOrGenerateWallets]: after the generation of the missing
    records, and also when the call ends in a rejection (a failed
    write, a malformed sink or relayer key). *)
Theorem loadOrGenerateWallets_knows_the_pool {constants : Constants}
    {runtime : Runtime} (this : WalletManager) (env : oracle) (n : nat)
    (loaded : list RawWallet) (ws : list Wallet) :
  env n _ LoadWallets = Fulfilled loaded →
  mapM normalize loaded = Some ws →
  let final :=
    (run env (loadOrGenerateWallets this).2 (loadOrGenerateWallets this).1 n).1.1 in
  NoDup (allPubkeys final)
  ∧ ∀ pk, pk ∈ allPubkeys final ↔ pk ∈ map pubkey (walletData final).
Proof.
  intros answered normalized. cbv zeta.
  rewrite loadOrGenerateWallets_unfold. cbn [fst snd]. unfold Await.
  cbn [run]. rewrite answered.
  assert (wp (λ final _ _, knows_the_pool final)
            (afterLoad (Fulfilled loaded) this).2
            (afterLoad (Fulfilled loaded) this).1) as ended.
  { unfold afterLoad, normalizeWalletData. rewrite normalized.
    cbn [mbind option_bind]. cbv zeta.
    set (this1 := log _ _).
    assert (knows_the_pool this1) as known.
    { subst this1. unfold knows_the_pool. cbn.
      destruct (Set_add_all [] (map pubkey ws) (NoDup_nil_2)) as [distinct members].
      split; [done|]. intros pk. unfold Set_of. rewrite members, elem_of_nil.
      tauto. }
    assert (∀ w, walletData w = walletData this1
                 ∧ allPubkeys w = allPubkeys this1
                 ∧ keypairsGenerated w = keypairsGenerated this1 →
                 knows_the_pool w) as kept.
    { intros w (pool & keys & _). unfold knows_the_pool. by rewrite pool, keys. }
    destruct (_ <? _)%nat.
    2: { eapply wp_mono; [|apply loadRest_keeps]. cbn beta.
         intros final _ _. apply kept. }
    unfold generateWallets. cbv zeta.
    set (missing := Z.of_nat (numWalletsToGenerate (config this1))
                    - Z.of_nat (length (walletData this1))).
    set (this2 := log (Generating missing) this1).
    pose proof (generateBatches_records (Z.to_nat missing)
                  (length (walletData this2)) (keypairsGenerated this2) 0
                  missing this2 ltac:(lia) ltac:(cbn; lia)) as generated.
    cbv zeta in generated. change (1000 * Z.of_nat 0) with 0 in generated.
    destruct (generateBatches (Z.to_nat missing) 0 missing this2)
      as [this3 call]. cbn [fst snd] in *.
    apply wp_await_call. eapply wp_mono; [|exact generated].
    cbn beta. intros this4 outcome _ (pool & keys & _).
    assert (knows_the_pool this4) as known4.
    { destruct known as [distinct members].
      destruct (Set_add_all (allPubkeys this2)
                  (map (λ j, pubkey (generatedWallet (length (walletData this2))
                                       (keypairsGenerated this2) j))
                     (seq (1000 * 0) (Z.to_nat (missing - 0)))) distinct)
        as [distinct' members'].
      unfold knows_the_pool. rewrite keys, pool. split; [done|].
      intros pk. rewrite members', map_app, elem_of_app, <- list_fmap_compose.
      change (allPubkeys this2) with (allPubkeys this1).
      change (walletData this2) with (walletData this1).
      by rewrite members. }
    destruct outcome as [[]|e]; cbn [fst snd]; [|done].
    eapply wp_mono; [|apply loadRest_keeps]. cbn beta.
    intros final _ _ (pool5 & keys5 & _). unfold knows_the_pool.
    by rewrite pool5, keys5. }
  pose proof (wp_run _ _ _ env (S n) ended) as known. cbn beta in known.
  by destruct (run env _ _ (S n)) as [[final outcome] trace].
Qed.

Lemma loadOrGenerateWallets_knows_the_pool_witness :
  let rt := constant_runtime 0.5 "A" in
  let this := constructor (pool_config 3 1 1000 1000 None) in
  let call := loadOrGenerateWallets (constants := sample_constants) (runtime := rt) this in
  let final := (run (loads [stored "A"; stored "A"]) call.2 call.1 0).1.1 in
  map pubkey (walletData final) = ["A"; "A"; "key0"]
  ∧ allPubkeys final = ["A"; "key0"]
  ∧ NoDup (allPubkeys final).
Proof.
  intros rt this call final.
  destruct (loadOrGenerateWallets_knows_the_pool (constants := sample_constants)
              (runtime := rt) this (loads [stored "A"; stored "A"]) 0
              [stored "A"; stored "A"]
              [ {| pubkey := "A"; privateKey := []; name := "Wallet";
                   isSeasoned := false |};
                {| pubkey := "A"; privateKey := []; name := "Wallet";
                   isSeasoned := false |} ] eq_refl eq_refl)
    as [distinct _].
  split; [vm_compute; reflexivity|]. split; [vm_compute; reflexivity|].
  exact distinct.
Defined.

(** ** Rejections of [loadOrGenerateWallets] *)









(** ** The operations of loading *)

Lemma requests_then {W A B} (P : event → Prop) (f : settled A → settled B)
    (t : task W A) :
  requests P t → requests P (then_ f t).
Proof.
  induction t as [r|X rq upd next IH]; cbn; [done|].
  intros [now later]. split; [done|]. intros a w. apply IH, later.
Qed.

Lemma requests_both {W A B} (P : event → Prop) (t1 : task W A)
    (t2 : task W B) :
  requests P t1 → requests P t2 → requests P (both t1 t2).
Proof.
  revert t2. induction t1 as [r1|X1 rq1 upd1 next1 IH1]; intros t2 H1;
    induction t2 as [r2|X2 rq2 upd2 next2 IH2]; intros H2; cbn; [done|..].
  - destruct H2 as [now later]. split; [done|]. intros a w. apply IH2, later.
  - destruct H1 as [now later]. split; [done|]. intros a w.
    by apply IH1; [apply later|].
  - destruct H1 as [now1 later1], H2 as [now2 later2]. split.
    + intros [a1|a2]; [apply now1 | apply now2].
    + intros [a1|a2] w.
      * by apply IH1; [apply later1|].
      * apply IH2, later2.
Qed.

Lemma requests_allSettled {W A} (P : event → Prop) (calls : list (task W A)) :
  Forall (requests P) calls → requests P (allSettled calls).
Proof.
  induction 1 as [|t rest Ht _ IH]; cbn; [done|].
  by apply requests_then, requests_both.
Qed.

Lemma requests_await_call {W A B} (P : event → Prop) (t : task W B)
    (seg : settled B → W → W * task W A) :
  requests P t → (∀ r w, requests P (seg r w).2) →
  requests P (await_call t seg).
Proof.
  intros Ht Hseg. induction t as [r|X rq upd next IH]; cbn.
  - split; [by intros [] | intros _ w; apply Hseg].
  - destruct Ht as [now later]. split; [done|]. intros a w. apply IH, later.
Qed.

Lemma callAll_requests {W A X} (P : event → Prop) (f : X → W → W * task W A)
    (batch : list X) (w : W) :
  (∀ x w, requests P (f x w).2) → Forall (requests P) (callAll f batch w).1.
Proof.
  intros Hf. revert w. induction batch as [|x rest IH]; intros w; cbn; [done|].
  specialize (Hf x w). destruct (f x w) as [w1 t]. specialize (IH w1).
  destruct (callAll f rest w1) as [ts w2]. by constructor.
Qed.

(** The operations of funding: balance queries, transfers,
    confirmations and pauses.  The wallet file is neither read nor
    written. *)
Definition funding_request (e : event) : Prop :=
  match projT2 e with
  | GetBalance _ | SendTransaction _ _ | ConfirmTransaction _ | Delay _ => True
  | _ => False
  end.

Lemma fundParts_funding {constants : Constants} {runtime : Runtime}
    (wallet : Wallet) (kp : Keypair) (left : nat) (remaining : Z)
    (this : WalletManager) :
  requests funding_request (fundParts wallet kp left remaining this).2.
Proof.
  revert remaining this. induction left as [|left IH]; intros remaining this.
  - done.
  - cbn [fundParts].
    destruct (_ <? remaining); [|done].
    destruct (calculateFundingPart remaining (Z.of_nat (S left)) this)
      as [cappedPart this1].
    unfold random. cbn [fst snd].
    destruct (index _ _) as [relayer|]; [|done].
    apply requests_Await; [intros; by repeat constructor|].
    intros [sig|e] w; [|done].
    apply requests_Await; [intros; by repeat constructor|].
    intros [[]|e] w'; [|done].
    destruct (2 ^ 53 <=? Z.abs cappedPart); [done|].
    apply requests_Await; [intros; by repeat constructor|].
    intros _ w''. apply IH.
Qed.

Lemma fundSingleWallet_funding {constants : Constants} {runtime : Runtime}
    (wallet : Wallet) (this : WalletManager) :
  requests funding_request (fundSingleWallet wallet this).2.
Proof.
  rewrite fundSingleWallet_unfold. case_decide; [done|]. cbv zeta.
  destruct (Keypair_fromSecretKey _) as [kp|]; [|done]. cbn [snd].
  apply requests_Await; [intros; by repeat constructor|].
  intros [balance|e] w; [|done]. unfold afterBalance.
  destruct (_ <=? balance); [done|]. unfold random. cbn [fst snd].
  apply fundParts_funding.
Qed.

Lemma fundBatches_funding {constants : Constants} {runtime : Runtime}
    (fuel i : nat) (toCheck : list Wallet) (this : WalletManager) :
  requests funding_request (fundBatches fuel i toCheck this).2.
Proof.
  revert i this. induction fuel as [|fuel IH]; intros i this; [done|].
  rewrite fundBatches_S. destruct (i <? length toCheck)%nat; [|done].
  cbn [snd]. apply requests_await_call.
  - apply requests_allSettled, callAll_requests. intros wallet w.
    apply fundSingleWallet_funding.
  - intros _ w. apply IH.
Qed.

Lemma loadRest_funding {constants : Constants} {runtime : Runtime}
    (this : WalletManager) :
  requests funding_request (loadRest this).2.
Proof.
  unfold loadRest. destruct (loadSpecialWallets this) as [this1 [e|]]; [done|].
  set (this2 := if autoScale (config this1) then _ else _).
  assert (requests funding_request (fundWalletsInParallel this2).2) as funding.
  { unfold fundWalletsInParallel. destruct (relayerKeypairs this2); [done|].
    apply fundBatches_funding. }
  destruct (fundWalletsInParallel this2) as [this3 call]. cbn [fst snd] in *.
  apply requests_await_call; [done|]. by intros [[]|e] w.
Qed.

(** When the wallet file holds at least as many records as the target,
    [loadOrGenerateWallets] generates nothing and leaves the file as
    it is: the pool is the normalized file, no key pair is generated,
    and after the load the wallet file is neither read nor written
    (what follows are operations of funding). *)
Theorem loadOrGenerateWallets_keeps_a_full_file {constants : Constants}
    {runtime : Runtime} (this : WalletManager) (env : oracle) (n : nat)
    (loaded : list RawWallet) (ws : list Wallet) :
  env n _ LoadWallets = Fulfilled loaded →
  mapM normalize loaded = Some ws →
  (numWalletsToGenerate (config this) ≤ length loaded)%nat →
  let result :=
    run env (loadOrGenerateWallets this).2 (loadOrGenerateWallets this).1 n in
  walletData result.1.1 = ws
  ∧ keypairsGenerated result.1.1 = keypairsGenerated this
  ∧ ∃ funding, result.2 = Ev LoadWallets :: funding
               ∧ Forall funding_request funding.
Proof.
  intros answered normalized full. cbv zeta.
  rewrite loadOrGenerateWallets_unfold. cbn [fst snd]. unfold Await.
  cbn [run]. rewrite answered.
  pose proof (length_mapM _ _ _ normalized) as same_length.
  assert (wp (λ final _ trace,
                (walletData final = ws
                 ∧ keypairsGenerated final = keypairsGenerated this)
                ∧ Forall funding_request trace)
            (afterLoad (Fulfilled loaded) this).2
            (afterLoad (Fulfilled loaded) this).1) as ended.
  { unfold afterLoad, normalizeWalletData. rewrite normalized.
    cbn [mbind option_bind]. cbv zeta. set (this1 := log _ _).
    change (walletData this1) with ws. change (config this1) with (config this).
    destruct (Nat.ltb_spec (length ws) (numWalletsToGenerate (config this)));
      [lia|].
    apply wp_and.
    - eapply wp_mono; [|apply loadRest_keeps]. cbn beta.
      by intros final _ _ (-> & _ & ->).
    - apply requests_wp, loadRest_funding. }
  pose proof (wp_run _ _ _ env (S n) ended) as facts. cbn beta in facts.
  destruct (run env _ _ (S n)) as [[final outcome] trace]. cbn [fst snd] in *.
  destruct facts as [[pool generated] funding].
  split; [done|]. split; [done|]. by exists trace.
Qed.

Lemma loadOrGenerateWallets_keeps_a_full_file_witness :
  let call := loadOrGenerateWallets (constants := sample_constants)
                (runtime := constant_runtime 0.5 "A")
                (constructor (pool_config 2 1 1000 1000 None)) in
  let result := run (loads [stored "A"; stored "B"; stored "C"]) call.2 call.1 0 in
  map pubkey (walletData result.1.1) = ["A"; "B"; "C"]
  ∧ keypairsGenerated result.1.1 = 0%nat
  ∧ result.2 = [Ev LoadWallets].
Proof.
  intros call result.
  destruct (loadOrGenerateWallets_keeps_a_full_file
              (constants := sample_constants)
              (runtime := constant_runtime 0.5 "A")
              (constructor (pool_config 2 1 1000 1000 None))
              (loads [stored "A"; stored "B"; stored "C"]) 0
              [stored "A"; stored "B"; stored "C"]
              (map (λ pk, {| pubkey := pk; privateKey := []; name := "Wallet";
                             isSeasoned := false |}) ["A"; "B"; "C"])
              eq_refl eq_refl ltac:(cbn; lia))
    as (pool & generated & _).
  fold call in pool, generated. fold result in pool, generated.
  split; [by rewrite pool|]. split; [exact generated|].
  vm_compute. reflexivity.
Defined.

(** ** Cleaning up *)

Lemma above_true (a b : Q) : above a b = true ↔ (b < a)%Q.
Proof.
  unfold above. rewrite negb_true_iff, <- not_true_iff_false, Qle_bool_iff.
  split; [apply Qnot_le_lt | apply Qlt_not_le].
Qed.

Lemma above_false (a b : Q) : above a b = false ↔ (a <= b)%Q.
Proof. unfold above. by rewrite negb_false_iff, Qle_bool_iff. Qed.

Lemma elem_of_olderThan (threshold now : Q) (stamps : gmap string Q)
    (key : string) :
  key ∈ olderThan threshold now stamps
  ↔ ∃ stamp, stamps !! key = Some stamp ∧ (threshold < now - stamp)%Q.
Proof.
  unfold olderThan. rewrite list_elem_of_fmap. split.
  - intros ([key' stamp] & -> & [old member%elem_of_map_to_list]%list_elem_of_filter).
    exists stamp. split; [done|]. by apply above_true.
  - intros (stamp & held & old). exists (key, stamp). split; [done|].
    apply list_elem_of_filter. split; [by apply above_true|].
    by apply elem_of_map_to_list.
Qed.

Lemma length_olderThan (threshold now : Q) (stamps : gmap string Q) :
  (length (olderThan threshold now stamps) ≤ size stamps)%nat.
Proof.
  unfold olderThan. rewrite length_fmap, <- length_map_to_list.
  apply length_filter.
Qed.

Lemma lookup_deleteAll {V} (keys : list string) (m : gmap string V)
    (key : string) :
  deleteAll keys m !! key = if decide (key ∈ keys) then None else m !! key.
Proof.
  unfold deleteAll. revert m. induction keys as [|k keys IH]; intros m.
  - cbn. case_decide as member; [by apply elem_of_nil in member | done].
  - cbn [foldl]. rewrite IH. destruct (decide (key = k)) as [->|different].
    + rewrite lookup_delete_eq.
      rewrite (decide_True (P := k ∈ k :: keys)) by apply list_elem_of_here.
      by case_decide.
    + rewrite lookup_delete_ne by done.
      destruct (decide (key ∈ keys)) as [member|absent].
      * by rewrite decide_True by by apply list_elem_of_further.
      * rewrite decide_False; [done|]. by intros [|]%elem_of_cons.
Qed.

(** The loop over the trade counts caps every count at 1000 and counts
    the counts it has capped. *)
Lemma capTradeCounts_fold (entries : list (string * Z)) (m : gmap string Z)
    (cleaned : nat) :
  NoDup entries.*1 →
  let result :=
    foldl (λ '(m, cleanedCount) '(key, count),
             if 1000 <? count then (<[key := 1000]> m, S cleanedCount)
             else (m, cleanedCount))
          (m, cleaned) entries in
  (∀ key count, (key, count) ∈ entries → 1000 < count →
                result.1 !! key = Some 1000)
  ∧ (∀ key, (∀ count, (key, count) ∈ entries → count ≤ 1000) →
            result.1 !! key = m !! key)
  ∧ result.2
    = (cleaned + length (filter (λ entry, (1000 < entry.2)%Z) entries))%nat.
Proof.
  revert m cleaned. induction entries as [|[k c] entries IH];
    intros m cleaned distinct; cbv zeta.
  - cbn. split; [by intros ?? ?%elem_of_nil|]. split; [done | lia].
  - apply NoDup_cons in distinct as [fresh distinct]. cbn [foldl].
    set (m1 := if 1000 <? c then <[k := 1000]> m else m).
    set (cleaned1 := if 1000 <? c then S cleaned else cleaned).
    assert ((if 1000 <? c then (<[k:=1000]> m, S cleaned) else (m, cleaned))
            = (m1, cleaned1)) as -> by (subst m1 cleaned1; by destruct (1000 <? c)).
    destruct (IH m1 cleaned1 distinct) as (capped & others & counted).
    split; [|split].
    + intros key count [[= -> ->]|member]%elem_of_cons large.
      * rewrite others.
        -- subst m1. destruct (Z.ltb_spec 1000 c); [|lia].
           apply lookup_insert_eq.
        -- intros count' member. exfalso. apply fresh.
           by apply (list_elem_of_fmap_2 fst) in member.
      * by apply (capped key count).
    + intros key small. rewrite others.
      * subst m1. destruct (Z.ltb_spec 1000 c) as [large|]; [|done].
        apply lookup_insert_ne. intros <-.
        specialize (small c (list_elem_of_here _ _)). lia.
      * intros count member. apply small. by apply list_elem_of_further.
    + rewrite counted. subst cleaned1. rewrite filter_cons. cbn [snd].
      destruct (Z.ltb_spec 1000 c); case_decide; cbn [length]; lia.
Qed.

Lemma capTradeCounts_lookup (counts : gmap string Z) (key : string) :
  (capTradeCounts counts).1 !! key
  = (λ count, if 1000 <? count then 1000 else count) <$> counts !! key.
Proof.
  unfold capTradeCounts.
  destruct (capTradeCounts_fold (map_to_list counts) counts 0
              (NoDup_fst_map_to_list counts)) as (capped & others & _).
  destruct (counts !! key) as [count|] eqn:held; cbn [fmap option_fmap option_map].
  - destruct (Z.ltb_spec 1000 count) as [large|small].
    + apply (capped key count); [by apply elem_of_map_to_list | done].
    + rewrite others; [done|]. intros count' member%elem_of_map_to_list.
      by replace count' with count by congruence.
  - rewrite others; [done|]. intros count' member%elem_of_map_to_list.
    congruence.
Qed.

(** Seven days, in milliseconds. *)
Definition week : Q := 604800000.

(** What [cleanupOldCooldowns] leaves, in terms of the two draws it
    makes: whether the counts are capped, and whether the deep cleanup
    runs. *)
Lemma cleanupOldCooldowns_unfold {cleanup : CleanupConstants}
    {runtime : Runtime} (now : Q) (this : WalletManager) :
  let stamps := deleteAll (olderThan MAX_COOLDOWN_AGE_MS now (walletCooldowns this))
                  (walletCooldowns this) in
  let capped := below (Math_random (randomCalls this)) WALLET_CLEANUP_CHANCE in
  let counts :=
    if capped then (capTradeCounts (walletTradeCount this)).1
    else walletTradeCount this in
  let inactive := olderThan week now stamps in
  let deep :=
    below (Math_random (S (randomCalls this))) 0.001
    && (100 <? length inactive)%nat in
  let final := (cleanupOldCooldowns now this).1 in
  walletCooldowns final = (if deep then deleteAll inactive stamps else stamps)
  ∧ walletTradeCount final = (if deep then deleteAll inactive counts else counts)
  ∧ randomCalls final = S (S (randomCalls this))
  ∧ config final = config this
  ∧ walletData final = walletData this
  ∧ allPubkeys final = allPubkeys this
  ∧ funded final = funded this
  ∧ activeWallets final = activeWallets this
  ∧ walletPersonalities final = walletPersonalities this
  ∧ sinkKeypair final = sinkKeypair this
  ∧ relayerKeypairs final = relayerKeypairs this
  ∧ keypairsGenerated final = keypairsGenerated this
  ∧ logged final = logged this.
Proof.
  cbv zeta. unfold cleanupOldCooldowns, random. cbv zeta. cbn [fst snd].
  cbn [randomCalls set_walletCooldowns set_randomCalls walletTradeCount
       walletCooldowns].
  destruct (below (Math_random (randomCalls this)) WALLET_CLEANUP_CHANCE).
  - destruct (capTradeCounts (walletTradeCount this)) as [counts cleaned].
    cbn [fst snd randomCalls walletCooldowns walletTradeCount
         set_walletTradeCount set_randomCalls set_walletCooldowns].
    change (7 * 24 * 60 * 60 * 1000)%Q with week.
    destruct (below (Math_random (S (randomCalls this))) 0.001); [|by cbn].
    cbn [andb]. by destruct (100 <? _)%nat.
  - cbn [fst snd randomCalls walletCooldowns walletTradeCount
         set_walletTradeCount set_randomCalls set_walletCooldowns].
    change (7 * 24 * 60 * 60 * 1000)%Q with week.
    destruct (below (Math_random (S (randomCalls this))) 0.001); [|by cbn].
    cbn [andb]. by destruct (100 <? _)%nat.
Qed.

(** After [cleanupOldCooldowns(now)], no time stamp is older than
    [MAX_COOLDOWN_AGE_MS]; the stamps that stay are stamps that were
    there, unchanged; and a stamp that is neither older than
    [MAX_COOLDOWN_AGE_MS] nor older than seven days always stays.  The
    deep cleanup looks for stamps older than seven days among those
    that the first loop has left: when [MAX_COOLDOWN_AGE_MS] is at most
    seven days it finds none, and in any case it deletes nothing unless
    it finds more than 100.  Then the stamps left are exactly those not
    older than [MAX_COOLDOWN_AGE_MS], and no trade count is deleted.
    The method makes two draws and assigns nothing but the two maps. *)
Theorem cleanupOldCooldowns_drops_old_stamps {cleanup : CleanupConstants}
    {runtime : Runtime} (now : Q) (this : WalletManager) :
  let final := (cleanupOldCooldowns now this).1 in
  (∀ key stamp, walletCooldowns final !! key = Some stamp →
     walletCooldowns this !! key = Some stamp
     ∧ (now - stamp <= MAX_COOLDOWN_AGE_MS)%Q)
  ∧ (∀ key stamp, walletCooldowns this !! key = Some stamp →
       (now - stamp <= MAX_COOLDOWN_AGE_MS)%Q → (now - stamp <= week)%Q →
       walletCooldowns final !! key = Some stamp)
  ∧ ((MAX_COOLDOWN_AGE_MS <= week)%Q ∨ (size (walletCooldowns this) ≤ 100)%nat →
     (∀ key stamp, walletCooldowns this !! key = Some stamp →
        (now - stamp <= MAX_COOLDOWN_AGE_MS)%Q →
        walletCooldowns final !! key = Some stamp)
     ∧ dom (walletTradeCount final) = dom (walletTradeCount this))
  ∧ randomCalls final = (randomCalls this + 2)%nat
  ∧ walletData final = walletData this
  ∧ funded final = funded this
  ∧ activeWallets final = activeWallets this
  ∧ config final = config this.
Proof.
  intros final.
  destruct (cleanupOldCooldowns_unfold now this)
    as (stamps_final & counts_final & draws & options & pool & _ & claims
        & active & _).
  cbv zeta in stamps_final, counts_final.
  fold final in stamps_final, counts_final, draws, options, pool, claims, active.
  set (stamps := deleteAll (olderThan MAX_COOLDOWN_AGE_MS now (walletCooldowns this))
                   (walletCooldowns this)) in *.
  set (inactive := olderThan week now stamps) in *.
  set (deep := below (Math_random (S (randomCalls this))) 0.001
               && (100 <? length inactive)%nat) in *.
  set (counts := if below _ _ then _ else _) in *.
  assert (∀ key stamp, stamps !! key = Some stamp
            ↔ walletCooldowns this !! key = Some stamp
              ∧ (now - stamp <= MAX_COOLDOWN_AGE_MS)%Q) as first_loop.
  { intros key stamp. subst stamps. rewrite lookup_deleteAll.
    case_decide as old.
    - apply elem_of_olderThan in old as (stamp' & held & old). split; [done|].
      intros [held' young]. replace stamp' with stamp in old by congruence.
      by apply Qlt_not_le in old.
    - split; [|tauto]. intros held. split; [done|].
      destruct (Qlt_le_dec MAX_COOLDOWN_AGE_MS (now - stamp)) as [late|]; [|done].
      exfalso. apply old, elem_of_olderThan. by exists stamp. }
  assert (∀ key stamp, walletCooldowns final !! key = Some stamp →
                       stamps !! key = Some stamp) as second_loop.
  { intros key stamp. rewrite stamps_final. destruct deep; [|done].
    rewrite lookup_deleteAll. by case_decide. }
  split; [|split; [|split]].
  - intros key stamp held. by apply first_loop, second_loop.
  - intros key stamp held young recent. rewrite stamps_final.
    assert (stamps !! key = Some stamp) as kept by by apply first_loop.
    destruct deep; [|done]. rewrite lookup_deleteAll. case_decide as old; [|done].
    apply elem_of_olderThan in old as (stamp' & held' & old).
    replace stamp' with stamp in old by congruence.
    by apply Qlt_not_le in old.
  - intros shallow.
    assert (deep = true → False) as never.
    { subst deep. intros [_ many%Nat.ltb_lt]%andb_prop.
      destruct shallow as [short|few].
      - destruct inactive as [|key rest] eqn:found; [cbn in many; lia|].
        assert (key ∈ inactive) as member by (rewrite found; apply list_elem_of_here).
        subst inactive. apply elem_of_olderThan in member as (stamp & held & old).
        apply first_loop in held as [_ young].
        apply Qlt_not_le in old. apply old.
        by apply Qle_trans with MAX_COOLDOWN_AGE_MS.
      - pose proof (length_olderThan week now stamps) as bound.
        fold inactive in bound.
        assert (size stamps ≤ size (walletCooldowns this))%nat; [|lia].
        apply map_subseteq_size, map_subseteq_spec. intros key stamp held.
        by apply first_loop in held as [held _]. }
    destruct deep; [by destruct never|]. split.
    + intros key stamp held young. rewrite stamps_final. by apply first_loop.
    + rewrite counts_final. subst counts. destruct (below _ _); [|done].
      apply set_eq. intros key. rewrite !elem_of_dom, capTradeCounts_lookup.
      by rewrite fmap_is_Some.
  - repeat split; try done. rewrite draws. lia.
Qed.

(** A trade count that [cleanupOldCooldowns(now)] leaves is the count
    that was there, set to 1000 when the first draw is below
    [WALLET_CLEANUP_CHANCE] and the count was above 1000: the method
    adds no count and raises none, and after a capping pass no count is
    above 1000.  A count is deleted only together with a time stamp of
    its key that is more than seven days old. *)
Theorem cleanupOldCooldowns_caps_trade_counts {cleanup : CleanupConstants}
    {runtime : Runtime} (now : Q) (this : WalletManager) :
  let final := (cleanupOldCooldowns now this).1 in
  let capped := below (Math_random (randomCalls this)) WALLET_CLEANUP_CHANCE in
  (∀ key count', walletTradeCount final !! key = Some count' →
     ∃ count, walletTradeCount this !! key = Some count
              ∧ count' = if capped && (1000 <? count) then 1000 else count)
  ∧ (capped = true →
     ∀ key count', walletTradeCount final !! key = Some count' → count' ≤ 1000)
  ∧ (∀ key count, walletTradeCount this !! key = Some count →
       walletTradeCount final !! key = None →
       ∃ stamp, walletCooldowns this !! key = Some stamp
                ∧ (week < now - stamp)%Q).
Proof.
  intros final capped.
  destruct (cleanupOldCooldowns_unfold now this)
    as (_ & counts_final & _).
  cbv zeta in counts_final. fold final capped in counts_final.
  set (stamps := deleteAll (olderThan MAX_COOLDOWN_AGE_MS now (walletCooldowns this))
                   (walletCooldowns this)) in *.
  set (inactive := olderThan week now stamps) in *.
  set (deep := below (Math_random (S (randomCalls this))) 0.001
               && (100 <? length inactive)%nat) in *.
  set (counts := if capped then _ else _) in *.
  assert (∀ key, counts !! key
                 = (λ count, if capped && (1000 <? count) then 1000 else count)
                   <$> walletTradeCount this !! key) as pass.
  { intros key. subst counts. destruct capped.
    - by rewrite capTradeCounts_lookup.
    - cbn [andb]. by destruct (walletTradeCount this !! key). }
  assert (∀ key count', walletTradeCount final !! key = Some count' →
            ∃ count, walletTradeCount this !! key = Some count
                     ∧ count' = if capped && (1000 <? count) then 1000 else count)
    as sound.
  { intros key count'. rewrite counts_final.
    assert (counts !! key = Some count' →
            ∃ count, walletTradeCount this !! key = Some count
                     ∧ count' = if capped && (1000 <? count) then 1000 else count)
      as from_pass.
    { rewrite pass. destruct (walletTradeCount this !! key) as [count|]; [|done].
      cbn. intros [= <-]. by exists count. }
    destruct deep; [|done]. rewrite lookup_deleteAll. by case_decide. }
  split; [exact sound|]. split.
  - intros on key count' held. destruct (sound key count' held) as (count & _ & ->).
    rewrite on. cbn [andb]. destruct (Z.ltb_spec 1000 count); lia.
  - intros key count held. rewrite counts_final.
    assert (is_Some (counts !! key)) as [count' kept].
    { rewrite pass, held. by eexists. }
    destruct deep; [|congruence]. rewrite lookup_deleteAll.
    case_decide as old; [|congruence]. intros _. subst inactive.
    apply elem_of_olderThan in old as (stamp & at_key & old).
    exists stamp. split; [|done]. subst stamps.
    rewrite lookup_deleteAll in at_key. by case_decide.
Qed.

(** Two keys: [A], stamped at 0 and used 1003 times, and [B], stamped
    at 9000000 and used 7 times. *)
Definition two_stamps : WalletManager :=
  set_walletTradeCount {[ "A" := 1003; "B" := 7 ]}
    (set_walletCooldowns {[ "A" := 0%Q; "B" := 9000000%Q ]}
       (constructor (pool_config 1 1 1000 1000 None))).

(** Stamps are kept for an hour; the counts are capped when the draw is
    below one in a hundred. *)
Definition hourly_cleanup : CleanupConstants := {|
  MAX_COOLDOWN_AGE_MS := 3600000;
  WALLET_CLEANUP_CHANCE := 0.01;
|}.

Lemma cleanupOldCooldowns_drops_old_stamps_witness :
  let final :=
    (cleanupOldCooldowns (cleanup := hourly_cleanup)
       (runtime := constant_runtime 0.005 "A") 10000000 two_stamps).1 in
  walletCooldowns final !! "A" = None
  ∧ walletCooldowns final !! "B" = Some 9000000%Q.
Proof.
  intros final.
  destruct (cleanupOldCooldowns_drops_old_stamps (cleanup := hourly_cleanup)
              (runtime := constant_runtime 0.005 "A") 10000000 two_stamps)
    as (sound & stay & _).
  cbv zeta in sound, stay. fold final in sound, stay. split.
  - destruct (walletCooldowns final !! "A") as [stamp|] eqn:held; [|done].
    apply sound in held as [held young]. exfalso.
    assert (stamp = 0%Q) as -> by (vm_compute in held; congruence).
    vm_compute in young. by apply young.
  - apply stay; [reflexivity | |]; by vm_compute.
Defined.

Lemma cleanupOldCooldowns_caps_trade_counts_witness :
  let final :=
    (cleanupOldCooldowns (cleanup := hourly_cleanup)
       (runtime := constant_runtime 0.005 "A") 10000000 two_stamps).1 in
  walletTradeCount final !! "A" = Some 1000.
Proof.
  intros final.
  destruct (cleanupOldCooldowns_caps_trade_counts (cleanup := hourly_cleanup)
              (runtime := constant_runtime 0.005 "A") 10000000 two_stamps)
    as (sound & _ & deleted).
  cbv zeta in sound, deleted. fold final in sound, deleted.
  destruct (walletTradeCount final !! "A") as [count'|] eqn:held.
  - destruct (sound "A" count' held) as (count & at_A & ->).
    assert (count = 1003) as -> by (vm_compute in at_A; congruence).
    reflexivity.
  - exfalso. destruct (deleted "A" 1003 eq_refl held) as (stamp & at_A & old).
    assert (stamp = 0%Q) as -> by (vm_compute in at_A; congruence).
    by vm_compute in old.
Defined.

(** ** Active batches *)

(** Two objects that differ in the number of draws made only. *)
Definition draws_only (w w' : WalletManager) : Prop :=
  ∃ calls, w' = set_randomCalls calls w.

#[local] Instance draws_only_preorder : PreOrder draws_only.
Proof.
  split.
  - intros w. exists (randomCalls w). by destruct w.
  - intros w1 w2 w3 [calls1 ->] [calls2 ->]. by exists calls2.
Qed.

Lemma getWalletCooldown_draws {runtime : Runtime} (walletKey : string)
    (this : WalletManager) :
  draws_only this (getWalletCooldown walletKey this).2.
Proof.
  unfold getWalletCooldown.
  destruct (getRandomNumberBetween _ _ _) as [baseCooldown calls].
  by exists calls.
Qed.

(** The contract of [getRandomNumberBetween]: a number between its
    bounds. *)
Definition within_bounds {runtime : Runtime} : Prop :=
  ∀ lo hi calls, (lo <= hi)%Q →
    (lo <= (getRandomNumberBetween lo hi calls).1)%Q
    ∧ ((getRandomNumberBetween lo hi calls).1 <= hi)%Q.

Lemma getWalletCooldown_least {runtime : Runtime} (walletKey : string)
    (this : WalletManager) :
  within_bounds →
  (0 <= minWalletCooldownMs (config this))%Q →
  (minWalletCooldownMs (config this) <= maxWalletCooldownMs (config this))%Q →
  0 ≤ JS.or_zero (walletTradeCount this !! walletKey) →
  Qfloor (minWalletCooldownMs (config this)) ≤ (getWalletCooldown walletKey this).1.
Proof.
  intros range nonneg ordered counted. unfold getWalletCooldown.
  set (lo := minWalletCooldownMs (config this)) in *.
  set (hi := maxWalletCooldownMs (config this)) in *.
  set (count := JS.or_zero (walletTradeCount this !! walletKey)) in *.
  destruct (range lo hi (randomCalls this) ordered) as [above _].
  destruct (getRandomNumberBetween lo hi (randomCalls this))
    as [baseCooldown calls]. cbn [fst snd] in *.
  pose proof (Z.rem_bound_pos count 5 ltac:(lia) ltac:(lia)) as [least _].
  assert (1 <= 1 + inject_Z (Z.rem count 5) * 0.2)%Q as at_least.
  { rewrite Zle_Qle in least. change (inject_Z 0) with 0%Q in least. lra. }
  unfold JS.Math_floor. apply Qfloor_resp_le.
  apply Qle_trans with (1 * baseCooldown)%Q; [lra|].
  rewrite (Qmult_comm baseCooldown). apply Qmult_le_compat_r; [done | lra].
Qed.

(** What the callback of the filter finds true of a record it keeps:
    the record is seasoned if that is required, and the time since the
    stamp of its key is at least a cooldown drawn for the key. *)
Definition ready_at {runtime : Runtime} (requireSeasoning : bool) (now : Q)
    (this : WalletManager) (w : Wallet) : Prop :=
  (requireSeasoning = true → isSeasoned w = true)
  ∧ ∃ calls,
      atLeast (now - default 0%Q (walletCooldowns this !! pubkey w))
        (inject_Z (getWalletCooldown (pubkey w) (set_randomCalls calls this)).1)
      = true.

Lemma ready_at_draws {runtime : Runtime} (requireSeasoning : bool) (now : Q)
    (this this' : WalletManager) (w : Wallet) :
  draws_only this this' →
  ready_at requireSeasoning now this' w → ready_at requireSeasoning now this w.
Proof.
  intros [calls ->] [seasoned [calls' passed]]. split; [done|].
  by exists calls'.
Qed.

Lemma isReady_draws {runtime : Runtime} (requireSeasoning : bool) (now : Q)
    (w : Wallet) (this : WalletManager) :
  draws_only this (isReady requireSeasoning now w this).2.
Proof.
  unfold isReady. pose proof (getWalletCooldown_draws (pubkey w) this) as step.
  by destruct (getWalletCooldown (pubkey w) this).
Qed.

Lemma isReady_true {runtime : Runtime} (requireSeasoning : bool) (now : Q)
    (w : Wallet) (this : WalletManager) :
  (isReady requireSeasoning now w this).1 = true →
  ready_at requireSeasoning now this w.
Proof.
  unfold isReady, ready_at.
  assert ((getWalletCooldown (pubkey w)
             (set_randomCalls (randomCalls this) this)).1
          = (getWalletCooldown (pubkey w) this).1) as same by done.
  destruct (getWalletCooldown (pubkey w) this) as [cooldown this'].
  cbn [fst] in *. intros [passed seasoned]%andb_prop. split.
  - intros ->. by destruct (isSeasoned w).
  - exists (randomCalls this). by rewrite same.
Qed.

Lemma isReady_unseasoned {runtime : Runtime} (now : Q) (w : Wallet)
    (this : WalletManager) :
  isSeasoned w = false → (isReady true now w this).1 = false.
Proof.
  intros unseasoned. unfold isReady.
  destruct (getWalletCooldown (pubkey w) this) as [cooldown this'].
  cbn [fst]. rewrite unseasoned. apply andb_false_r.
Qed.

Lemma filterReady_spec {runtime : Runtime} (requireSeasoning : bool) (now : Q)
    (ws : list Wallet) (this : WalletManager) :
  draws_only this (filterReady requireSeasoning now ws this).2
  ∧ (filterReady requireSeasoning now ws this).1 `sublist_of` ws
  ∧ Forall (ready_at requireSeasoning now this)
      (filterReady requireSeasoning now ws this).1.
Proof.
  revert this. induction ws as [|w ws IH]; intros this.
  - cbn. split; [reflexivity|]. split; [apply sublist_nil_l | constructor].
  - cbn [filterReady].
    pose proof (isReady_draws requireSeasoning now w this) as step.
    pose proof (isReady_true requireSeasoning now w this) as ready.
    destruct (isReady requireSeasoning now w this) as [keep this1].
    cbn [fst snd] in *.
    destruct (IH this1) as (steps & sub & all).
    destruct (filterReady requireSeasoning now ws this1) as [kept this2].
    cbn [fst snd] in *.
    split; [by etrans|].
    assert (Forall (ready_at requireSeasoning now this) kept) as all'.
    { eapply Forall_impl; [exact all|]. intros w'.
      by apply ready_at_draws. }
    destruct keep.
    + split; [by apply sublist_skip|]. constructor; [by apply ready | done].
    + split; [by apply sublist_cons | done].
Qed.

Lemma filterReady_unseasoned {runtime : Runtime} (now : Q) (ws : list Wallet)
    (this : WalletManager) :
  Forall (λ w, isSeasoned w = false) ws →
  (filterReady true now ws this).1 = [].
Proof.
  intros unseasoned. revert this.
  induction unseasoned as [|w ws first rest IH]; intros this; [done|].
  cbn [filterReady].
  pose proof (isReady_unseasoned now w this first) as skipped.
  destruct (isReady true now w this) as [keep this1]. cbn [fst] in skipped.
  subst keep. specialize (IH this1).
  by destruct (filterReady true now ws this1).
Qed.

Lemma shuffleFrom_draws {runtime : Runtime} {A} (i shuffled : nat)
    (arrays : store A) (this : WalletManager) :
  draws_only this (shuffleFrom i shuffled arrays this).2.
Proof.
  revert arrays this. induction i as [|i IH]; intros arrays this.
  - reflexivity.
  - rewrite shuffleFrom_S. cbv zeta.
    destruct (arrays !! shuffled ≫= _) as [a|].
    + etrans; [|apply IH]. by exists (S (randomCalls this)).
    + by exists (S (randomCalls this)).
Qed.

Lemma shuffleArray_fresh {runtime : Runtime} {A} (a : list A)
    (this : WalletManager) :
  (∀ k, unit_interval (Math_random k)) →
  ∃ address arrays s this',
    shuffleArray 0 {[ 0%nat := a ]} this = (Some (address, arrays), this')
    ∧ arrays !! address = Some s ∧ s ≡ₚ a ∧ draws_only this this'.
Proof.
  intros draws. unfold shuffleArray. rewrite lookup_singleton_eq.
  set (shuffled := fresh _).
  destruct (shuffleFrom_permutes (length a - 1) shuffled
              (<[shuffled := a]> {[ 0%nat := a ]}) a this draws)
    as (arrays' & s & run & at' & perm & _ & _).
  { apply lookup_insert_eq. }
  { lia. }
  pose proof (shuffleFrom_draws (length a - 1) shuffled
                (<[shuffled := a]> {[ 0%nat := a ]}) this) as step.
  destruct (shuffleFrom _ _ _ _) as [[?|] this']; cbn in run; [|done].
  injection run as ->. by exists shuffled, arrays', s, this'.
Qed.

Lemma sliceTo_sublist {A} (e : Z) (l : list A) : sliceTo e l `sublist_of` l.
Proof. unfold sliceTo. destruct (e <? 0); apply sublist_take. Qed.

Lemma sliceTo_length {A} (e : Z) (l : list A) :
  0 ≤ e → (length (sliceTo e l) ≤ Z.to_nat e)%nat.
Proof.
  intros nonneg. unfold sliceTo. destruct (Z.ltb_spec e 0); [lia|].
  rewrite length_take. lia.
Qed.

Lemma activate_Some {runtime : Runtime} (w : Wallet) (a : ActiveWallet) :
  activate w = Some a →
  Keypair_fromSecretKey (privateKey w) = Some (keypair a)
  ∧ activePubkey a = pubkey w
  ∧ activeName a = JS.or_string (Some (name w)) (String.substring 0 6 (pubkey w)).
Proof.
  unfold activate. destruct (Keypair_fromSecretKey _); cbn; [|done].
  by intros [= <-].
Qed.

Lemma activate_None {runtime : Runtime} (w : Wallet) :
  activate w = None → Keypair_fromSecretKey (privateKey w) = None.
Proof. unfold activate. by destruct (Keypair_fromSecretKey _). Qed.

(** The three ways in which [loadActiveBatch] ends when the draws are
    in range: no record is ready; a batch is selected and activated; a
    private key of a selected record is refused. *)
Lemma loadActiveBatch_cases {cleanup : CleanupConstants} {runtime : Runtime}
    (options : BatchOptions) (now : Q) (this : WalletManager) :
  (∀ k, unit_interval (Math_random k)) →
  ∃ final outcome entries ready selected calls,
    loadActiveBatch options now this = Some (final, outcome, entries)
    ∧ final = set_activeWallets (activeWallets final)
                (set_randomCalls calls (cleanupOldCooldowns now this).1)
    ∧ ready `sublist_of` walletData this
    ∧ Forall (ready_at (enableSeasoning options) now
                (cleanupOldCooldowns now this).1) ready
    ∧ selected ⊆+ ready
    ∧ (0 ≤ batchSize (config this) →
       (length selected ≤ Z.to_nat (batchSize (config this)))%nat)
    ∧ ((ready = [] ∧ selected = [] ∧ outcome = Fulfilled []
        ∧ activeWallets final = activeWallets this)
       ∨ (∃ active, mapM activate selected = Some active
                    ∧ outcome = Fulfilled active
                    ∧ activeWallets final = active)
       ∨ (mapM activate selected = None
          ∧ (∃ e, outcome = Rejected e)
          ∧ activeWallets final = activeWallets this)).
Proof.
  intros draws.
  destruct (cleanupOldCooldowns_unfold now this)
    as (_ & _ & _ & options_kept & pool & _ & _ & active_kept & _).
  cbv zeta in options_kept, pool, active_kept.
  unfold loadActiveBatch.
  destruct (cleanupOldCooldowns now this) as [cleaned entries].
  cbn [fst] in *.
  destruct (filterReady_spec (enableSeasoning options) now (walletData cleaned)
              cleaned) as ([calls1 step1] & sub & all).
  destruct (filterReady _ now (walletData cleaned) cleaned) as [ready this1].
  cbn [fst snd] in *. subst this1. rewrite pool in sub.
  destruct ready as [|w ready'].
  - eexists _, _, _, [], [], calls1. split; [done|].
    split; [by destruct cleaned|]. split; [done|]. split; [done|].
    split; [done|]. split; [cbn; lia|]. left. by repeat split.
  - set (ready := w :: ready') in *.
    assert (∃ s calls2,
              (if shuffleWallets options then
                 match shuffleArray 0 {[ 0%nat := ready ]}
                         (set_randomCalls calls1 cleaned) with
                 | (Some (address, arrays), this) => (arrays !! address, this)
                 | (None, this) => (None, this)
                 end
               else (Some ready, set_randomCalls calls1 cleaned))
              = (Some s, set_randomCalls calls2 cleaned)
              ∧ s ≡ₚ ready) as (s & calls2 & -> & perm).
    { destruct (shuffleWallets options).
      - destruct (shuffleArray_fresh ready (set_randomCalls calls1 cleaned) draws)
          as (address & arrays & s & this' & -> & at_address & perm
              & [calls2 ->]).
        exists s, calls2. by rewrite at_address.
      - by exists ready, calls1. }
    cbn [mbind option_bind]. cbn [config set_randomCalls].
    rewrite options_kept.
    set (selected := sliceTo (batchSize (config this)) s).
    assert (selected ⊆+ ready) as chosen.
    { rewrite <- perm. apply sublist_submseteq, sliceTo_sublist. }
    assert (0 ≤ batchSize (config this) →
            (length selected ≤ Z.to_nat (batchSize (config this)))%nat)
      as bounded by apply sliceTo_length.
    destruct (mapM activate selected) as [active|] eqn:activated.
    + eexists _, _, _, ready, selected, calls2. split; [done|].
      split; [done|]. split; [done|]. split; [done|]. split; [done|].
      split; [done|]. right. left. by exists active.
    + eexists _, _, _, ready, selected, calls2. split; [done|].
      split; [by destruct cleaned|]. split; [done|]. split; [done|].
      split; [done|]. split; [done|]. right. right.
      split; [done|]. split; [by eexists | done].
Qed.

Lemma cleaned_frame {cleanup : CleanupConstants} {runtime : Runtime}
    (now : Q) (this final : WalletManager) (active : list ActiveWallet)
    (calls : nat) :
  final = set_activeWallets active
            (set_randomCalls calls (cleanupOldCooldowns now this).1) →
  walletData final = walletData this
  ∧ funded final = funded this
  ∧ config final = config this
  ∧ walletCooldowns final = walletCooldowns (cleanupOldCooldowns now this).1
  ∧ walletTradeCount final = walletTradeCount (cleanupOldCooldowns now this).1.
Proof.
  intros ->.
  destruct (cleanupOldCooldowns_unfold now this)
    as (_ & _ & _ & options & pool & _ & claims & _).
  by cbn.
Qed.

Lemma submseteq_NoDup {A} (l k : list A) : l ⊆+ k → NoDup k → NoDup l.
Proof.
  intros [rest ->]%submseteq_Permutation distinct.
  by apply NoDup_app in distinct as [distinct _].
Qed.

(** When the draws of [Math.random()] are in range, [loadActiveBatch]
    returns, and leaves the pool, the funded set and the configuration
    as they were.  A batch it fulfils with is made of records of the
    pool, each taken at most as often as the pool holds it (so no
    public key is taken twice from a pool of distinct keys), with the
    key pair that the library derives from the private key of the
    record; it has at most [batchSize] members when [batchSize] is not
    negative, only seasoned records when seasoning is required, and,
    unless it is empty, it is the new value of [activeWallets].  The
    promise is rejected only when the library refuses the private key
    of a record of the pool, and then [activeWallets] is as it was. *)
Theorem loadActiveBatch_selects_from_the_pool {cleanup : CleanupConstants}
    {runtime : Runtime} (options : BatchOptions) (now : Q)
    (this : WalletManager) :
  (∀ k, unit_interval (Math_random k)) →
  ∃ final outcome entries,
    loadActiveBatch options now this = Some (final, outcome, entries)
    ∧ walletData final = walletData this
    ∧ funded final = funded this
    ∧ config final = config this
    ∧ (∀ batch, outcome = Fulfilled batch →
         (batch ≠ [] → activeWallets final = batch)
         ∧ (0 ≤ batchSize (config this) →
            (length batch ≤ Z.to_nat (batchSize (config this)))%nat)
         ∧ (NoDup (pubkey <$> walletData this) →
            NoDup (activePubkey <$> batch))
         ∧ ∃ selected,
             selected ⊆+ walletData this
             ∧ Forall2 (λ a w, activePubkey a = pubkey w
                               ∧ Keypair_fromSecretKey (privateKey w)
                                 = Some (keypair a))
                 batch selected
             ∧ (enableSeasoning options = true →
                Forall (λ w, isSeasoned w = true) selected))
    ∧ (∀ e, outcome = Rejected e →
         activeWallets final = activeWallets this
         ∧ ∃ w, w ∈ walletData this
                ∧ Keypair_fromSecretKey (privateKey w) = None).
Proof.
  intros draws.
  destruct (loadActiveBatch_cases options now this draws)
    as (final & outcome & entries & ready & selected & calls & run & shape
        & sub & all & chosen & bounded & ending).
  destruct (cleaned_frame now this final _ calls shape)
    as (pool & claims & same_options & _).
  exists final, outcome, entries. do 4 (split; [done|]).
  assert (selected ⊆+ walletData this) as from_pool.
  { etrans; [exact chosen|]. by apply sublist_submseteq. }
  assert (∀ active, mapM activate selected = Some active →
            Forall2 (λ a w, activePubkey a = pubkey w
                            ∧ Keypair_fromSecretKey (privateKey w)
                              = Some (keypair a))
              active selected) as activation.
  { intros active activated%mapM_Some_1. apply Forall2_flip.
    eapply Forall2_impl; [exact activated|].
    intros w a (derived & key & _)%activate_Some. by split. }
  assert (enableSeasoning options = true →
          Forall (λ w, isSeasoned w = true) selected) as seasoned.
  { intros required. apply Forall_forall. intros w member.
    rewrite Forall_forall in all.
    destruct (all w) as [seasoned _]; [by eapply elem_of_submseteq|].
    by apply seasoned. }
  split.
  - intros batch ->.
    destruct ending as [(_ & -> & [= ->] & _) | [(active & activated & [= <-] & now_active)
                                                | (_ & [e [=]] & _)]].
    + split; [done|]. split; [intros _; apply Nat.le_0_l|]. split; [constructor|].
      exists []. split; [done|]. split; [constructor | done].
    + pose proof (activation batch activated) as paired.
      split; [done|]. split.
      { intros nonneg. rewrite (Forall2_length _ _ _ paired). by apply bounded. }
      split.
      { intros distinct.
        replace (activePubkey <$> batch) with (pubkey <$> selected).
        - apply (submseteq_NoDup _ (pubkey <$> walletData this)); [|done].
          by apply fmap_submseteq.
        - clear -paired. induction paired as [|a w batch selected [key _] _ IH];
            [done|]. cbn. by rewrite key, IH. }
      by exists selected.
  - intros e ->.
    destruct ending as [(_ & _ & [=] & _) | [(active & _ & [=] & _)
                                            | (refused & _ & stale)]].
    split; [done|].
    apply mapM_None_1, Exists_exists in refused as (w & member & refused).
    exists w. split; [by eapply elem_of_submseteq | by apply activate_None].
Qed.

(** A pool of two records, [A] seasoned and [B] not, and no time stamp. *)
Definition two_records : WalletManager :=
  set_walletData
    [{| pubkey := "A"; privateKey := []; name := "Wallet1"; isSeasoned := true |};
     {| pubkey := "B"; privateKey := []; name := "Wallet1"; isSeasoned := false |}]
    (constructor (pool_config 2 1 1000 1000 None)).

Lemma loadActiveBatch_selects_from_the_pool_witness :
  ∃ final batch entries,
    loadActiveBatch (cleanup := hourly_cleanup)
      (runtime := constant_runtime 0.5 "A")
      {| enableSeasoning := true; shuffleWallets := true |} 10000000 two_records
    = Some (final, Fulfilled batch, entries)
    ∧ activePubkey <$> batch = ["A"]
    ∧ activeWallets final = batch.
Proof.
  destruct (loadActiveBatch_selects_from_the_pool (cleanup := hourly_cleanup)
              (runtime := constant_runtime 0.5 "A")
              {| enableSeasoning := true; shuffleWallets := true |}
              10000000 two_records)
    as (final & outcome & entries & run & _).
  { intros k. split; cbn; lra. }
  exists final. vm_compute in run.
  injection run as <- <- <-. by eexists _, _.
Defined.

(** While seasoning is required and no record of the pool is seasoned
    (as in a pool that [generateWallets] has just made), whatever the
    draws and the time stamps, [loadActiveBatch] fulfils with the empty
    batch and logs that all wallets need seasoning; it does not assign
    [activeWallets], which keeps the batch loaded before. *)
Theorem loadActiveBatch_without_seasoned_wallets {cleanup : CleanupConstants}
    {runtime : Runtime} (options : BatchOptions) (now : Q)
    (this : WalletManager) :
  enableSeasoning options = true →
  Forall (λ w, isSeasoned w = false) (walletData this) →
  ∃ final,
    loadActiveBatch options now this
    = Some (final, Fulfilled [],
            (cleanupOldCooldowns now this).2
            ++ [NeedSeasoning (length (walletData this))
                  (length (walletData this)) 0])
    ∧ activeWallets final = activeWallets this
    ∧ walletData final = walletData this.
Proof.
  intros required unseasoned.
  destruct (cleanupOldCooldowns_unfold now this)
    as (_ & _ & _ & _ & pool & _ & _ & active_kept & _).
  cbv zeta in pool, active_kept.
  unfold loadActiveBatch.
  destruct (cleanupOldCooldowns now this) as [cleaned entries].
  cbn [fst snd] in *. rewrite required.
  rewrite <- pool in unseasoned.
  pose proof (filterReady_unseasoned now (walletData cleaned) cleaned unseasoned)
    as none.
  destruct (filterReady_spec true now (walletData cleaned) cleaned)
    as ([calls step] & _).
  destruct (filterReady true now (walletData cleaned) cleaned) as [ready this1].
  cbn [fst snd] in *. subst ready this1.
  exists (set_randomCalls calls cleaned). split; [|done].
  cbn [walletData set_randomCalls].
  replace (filter (λ w, isSeasoned w = false) (walletData cleaned))
    with (walletData cleaned).
  - by rewrite Nat.sub_diag, pool.
  - clear -unseasoned. induction unseasoned as [|w ws first rest IH]; [done|].
    rewrite filter_cons. rewrite decide_True by done. by rewrite <- IH.
Qed.

Lemma loadActiveBatch_without_seasoned_wallets_witness :
  ∃ final,
    loadActiveBatch (cleanup := hourly_cleanup)
      (runtime := constant_runtime 0.5 "A")
      {| enableSeasoning := true; shuffleWallets := true |} 10000000
      (set_walletData [wallet_A] one_relayer)
    = Some (final, Fulfilled [], [NeedSeasoning 1 1 0])
    ∧ activeWallets final = []
    ∧ walletData final = [wallet_A].
Proof.
  apply (loadActiveBatch_without_seasoned_wallets (cleanup := hourly_cleanup)
           (runtime := constant_runtime 0.5 "A")
           {| enableSeasoning := true; shuffleWallets := true |} 10000000
           (set_walletData [wallet_A] one_relayer)).
  - reflexivity.
  - by repeat constructor.
Defined.

Lemma cleaned_stamp {cleanup : CleanupConstants} {runtime : Runtime}
    (now : Q) (this : WalletManager) (key : string) (stamp : Q) :
  walletCooldowns this !! key = Some stamp →
  (now - stamp <= MAX_COOLDOWN_AGE_MS)%Q → (now - stamp <= week)%Q →
  walletCooldowns (cleanupOldCooldowns now this).1 !! key = Some stamp.
Proof.
  intros held young recent.
  destruct (cleanupOldCooldowns_unfold now this) as (-> & _).
  assert (∀ threshold stamps, stamps !! key = Some stamp →
            (now - stamp <= threshold)%Q →
            deleteAll (olderThan threshold now stamps) stamps !! key
            = Some stamp) as stays.
  { intros threshold stamps at_key within. rewrite lookup_deleteAll.
    case_decide as old; [|done].
    apply elem_of_olderThan in old as (stamp' & at_key' & old).
    replace stamp' with stamp in old by congruence.
    by apply Qlt_not_le in old. }
  destruct (_ && _); by repeat apply stays.
Qed.

Lemma cleaned_count {cleanup : CleanupConstants} {runtime : Runtime}
    (now : Q) (this : WalletManager) (key : string) :
  0 ≤ JS.or_zero (walletTradeCount this !! key) →
  0 ≤ JS.or_zero (walletTradeCount (cleanupOldCooldowns now this).1 !! key).
Proof.
  intros nonneg.
  destruct (cleanupOldCooldowns_unfold now this) as (_ & -> & _).
  assert (∀ counts : gmap string Z, 0 ≤ JS.or_zero (counts !! key) →
            ∀ keys, 0 ≤ JS.or_zero (deleteAll keys counts !! key)) as deleted.
  { intros counts counted keys. rewrite lookup_deleteAll. by case_decide. }
  assert (0 ≤ JS.or_zero ((capTradeCounts (walletTradeCount this)).1 !! key))
    as capped.
  { rewrite capTradeCounts_lookup.
    destruct (walletTradeCount this !! key) as [count|]; [|done]. cbn in *.
    destruct (1000 <? count); [lia | done]. }
  destruct (_ && _), (below _ _); try apply deleted; done.
Qed.

(** Every member of a batch that [loadActiveBatch] loads has passed
    the test of the filter: the time since the stamp that the cleanup
    has left for its key is at least a cooldown drawn for the key. *)
Lemma batch_passed_cooldown {cleanup : CleanupConstants} {runtime : Runtime}
    (options : BatchOptions) (now : Q) (this : WalletManager) :
  (∀ k, unit_interval (Math_random k)) →
  ∃ final outcome entries,
    loadActiveBatch options now this = Some (final, outcome, entries)
    ∧ walletCooldowns final
      = walletCooldowns (cleanupOldCooldowns now this).1
    ∧ ∀ batch key, outcome = Fulfilled batch → key ∈ activePubkey <$> batch →
        ∃ calls,
          (inject_Z (getWalletCooldown key
                       (set_randomCalls calls
                          (cleanupOldCooldowns now this).1)).1
           <= now - default 0 (walletCooldowns
                                 (cleanupOldCooldowns now this).1 !! key))%Q.
Proof.
  intros draws.
  destruct (loadActiveBatch_cases options now this draws)
    as (final & outcome & entries & ready & selected & calls & run & shape
        & sub & all & chosen & bounded & ending).
  destruct (cleaned_frame now this final _ calls shape)
    as (_ & _ & _ & stamps & _).
  exists final, outcome, entries. split; [done|]. split; [done|].
  intros batch key -> member.
  destruct ending as [(_ & _ & [= ->] & _) | [(active & activated & [= <-] & _)
                                            | (_ & [e [=]] & _)]].
  { by apply elem_of_nil in member. }
  apply list_elem_of_fmap in member as (a & -> & member).
  apply mapM_Some_1 in activated.
  apply list_elem_of_lookup_1 in member as [i at_i].
  destruct (Forall2_lookup_r _ _ _ _ _ activated at_i)
    as (w & at_w & (_ & key_w & _)%activate_Some).
  apply list_elem_of_lookup_2 in at_w.
  rewrite Forall_forall in all.
  destruct (all w) as [_ [calls' passed]]; [by eapply elem_of_submseteq|].
  exists calls'. rewrite key_w. by apply Qle_bool_iff.
Qed.

(** A key whose stamp the cleanup keeps, and which is younger than the
    least cooldown, does not pass that test. *)
Lemma too_early {cleanup : CleanupConstants} {runtime : Runtime}
    (now : Q) (this : WalletManager) (key : string) (stamp : Q) (calls : nat) :
  within_bounds →
  (0 <= minWalletCooldownMs (config this))%Q →
  (minWalletCooldownMs (config this) <= maxWalletCooldownMs (config this))%Q →
  0 ≤ JS.or_zero (walletTradeCount this !! key) →
  walletCooldowns this !! key = Some stamp →
  (now - stamp <= MAX_COOLDOWN_AGE_MS)%Q → (now - stamp <= week)%Q →
  (now - stamp < inject_Z (Qfloor (minWalletCooldownMs (config this))))%Q →
  ¬ (inject_Z (getWalletCooldown key
                 (set_randomCalls calls (cleanupOldCooldowns now this).1)).1
     <= now - default 0 (walletCooldowns
                           (cleanupOldCooldowns now this).1 !! key))%Q.
Proof.
  intros range nonneg ordered counted held young recent early passed.
  rewrite (cleaned_stamp now this key stamp held young recent) in passed.
  cbn [default] in passed.
  set (cleaned := (cleanupOldCooldowns now this).1) in *.
  assert (config cleaned = config this) as same_options.
  { by destruct (cleanupOldCooldowns_unfold now this) as (_ & _ & _ & same & _). }
  pose proof (getWalletCooldown_least key
                (set_randomCalls calls cleaned) range) as least.
  cbn [config set_randomCalls walletTradeCount] in least.
  rewrite same_options in least.
  specialize (least nonneg ordered (cleaned_count now this _ counted)).
  rewrite Zle_Qle in least.
  apply (Qlt_irrefl (now - stamp)).
  eapply Qlt_le_trans; [exact early|]. by eapply Qle_trans.
Qed.

(** A wallet that was used less than [floor(minWalletCooldownMs)]
    milliseconds ago is not in the batch that [loadActiveBatch] loads,
    whatever is drawn: provided the time stamp of its key is one that
    the cleanup keeps (not older than [MAX_COOLDOWN_AGE_MS] nor than
    seven days), the cooldown bounds are ordered and not negative, the
    count of the key is not negative, and [getRandomNumberBetween]
    stays within its bounds.  The stamp stays in place.  The key is the
    one under which the stamp is stored, which [loadActiveBatch]
    compares with the [pubkey] of the records. *)
Theorem loadActiveBatch_skips_recent_wallets {cleanup : CleanupConstants}
    {runtime : Runtime} (options : BatchOptions) (now : Q)
    (this : WalletManager) (key : string) (stamp : Q) :
  (∀ k, unit_interval (Math_random k)) →
  within_bounds →
  (0 <= minWalletCooldownMs (config this))%Q →
  (minWalletCooldownMs (config this) <= maxWalletCooldownMs (config this))%Q →
  0 ≤ JS.or_zero (walletTradeCount this !! key) →
  walletCooldowns this !! key = Some stamp →
  (now - stamp <= MAX_COOLDOWN_AGE_MS)%Q → (now - stamp <= week)%Q →
  (now - stamp < inject_Z (Qfloor (minWalletCooldownMs (config this))))%Q →
  ∃ final outcome entries,
    loadActiveBatch options now this = Some (final, outcome, entries)
    ∧ walletCooldowns final !! key = Some stamp
    ∧ ∀ batch, outcome = Fulfilled batch → key ∉ activePubkey <$> batch.
Proof.
  intros draws range nonneg ordered counted held young recent early.
  destruct (batch_passed_cooldown options now this draws)
    as (final & outcome & entries & run & stamps & passed).
  exists final, outcome, entries. split; [done|]. split.
  - rewrite stamps. by apply cleaned_stamp.
  - intros batch loaded member.
    destruct (passed batch key loaded member) as [calls late].
    by eapply too_early.
Qed.

(** The seasoned record of the pool was used 400 ms ago; the cooldown is
    1000 ms. *)
Lemma loadActiveBatch_skips_recent_wallets_witness :
  ∃ final outcome entries,
    loadActiveBatch (cleanup := hourly_cleanup)
      (runtime := constant_runtime 0.5 "A")
      {| enableSeasoning := false; shuffleWallets := true |} 10000000
      (set_walletCooldowns {[ "A" := 9999600%Q ]} two_records)
    = Some (final, outcome, entries)
    ∧ walletCooldowns final !! "A" = Some 9999600%Q
    ∧ ∀ batch, outcome = Fulfilled batch → "A" ∉ activePubkey <$> batch.
Proof.
  apply (loadActiveBatch_skips_recent_wallets (cleanup := hourly_cleanup)
           (runtime := constant_runtime 0.5 "A")
           {| enableSeasoning := false; shuffleWallets := true |} 10000000
           (set_walletCooldowns {[ "A" := 9999600%Q ]} two_records)
           "A" 9999600%Q).
  - intros k. split; cbn; lra.
  - intros lo hi calls ordered. cbn. split; lra.
  - cbn. lra.
  - cbn. lra.
  - by vm_compute.
  - reflexivity.
  - by vm_compute.
  - by vm_compute.
  - by vm_compute.
Defined.

(** A wallet that [markWalletUsed] has marked at time [now] is not in a
    batch that [loadActiveBatch] loads at a time [later] less than
    [floor(minWalletCooldownMs)] milliseconds after [now], whatever is
    drawn.  The wallet is known by the public key of its key pair, under
    which [markWalletUsed] stores the stamp: the batch holds no member
    whose [pubkey] is that key.  (The stamp has to be one that the
    cleanup at [later] keeps, and the contract of
    [getRandomNumberBetween] and the order of the bounds are as for the
    range of the cooldown.) *)
Theorem markWalletUsed_starts_cooldown {cleanup : CleanupConstants}
    {runtime : Runtime} (options : BatchOptions) (wallet : ActiveWallet)
    (now later : Q) (this : WalletManager) :
  (∀ k, unit_interval (Math_random k)) →
  within_bounds →
  (0 <= minWalletCooldownMs (config this))%Q →
  (minWalletCooldownMs (config this) <= maxWalletCooldownMs (config this))%Q →
  0 ≤ JS.or_zero (walletTradeCount this !! publicKey (keypair wallet)) →
  (later - now <= MAX_COOLDOWN_AGE_MS)%Q → (later - now <= week)%Q →
  (later - now < inject_Z (Qfloor (minWalletCooldownMs (config this))))%Q →
  ∃ final outcome entries,
    loadActiveBatch options later (markWalletUsed wallet now this)
    = Some (final, outcome, entries)
    ∧ ∀ batch, outcome = Fulfilled batch →
        publicKey (keypair wallet) ∉ activePubkey <$> batch.
Proof.
  intros draws range nonneg ordered counted young recent early.
  set (key := publicKey (keypair wallet)) in *.
  set (marked := markWalletUsed wallet now this).
  assert (walletCooldowns marked !! key = Some now
          ∧ JS.or_zero (walletTradeCount marked !! key)
            = JS.or_zero (walletTradeCount this !! key) + 1
          ∧ config marked = config this) as (stamped & counted' & same_options).
  { subst marked. unfold markWalletUsed. fold key.
    cbn [walletCooldowns walletTradeCount config set_walletCooldowns
         set_walletTradeCount].
    by rewrite !lookup_insert_eq. }
  destruct (batch_passed_cooldown options later marked draws)
    as (final & outcome & entries & run & _ & passed).
  exists final, outcome, entries. split; [done|].
  intros batch loaded member.
  destruct (passed batch key loaded member) as [calls late].
  revert late. apply (too_early later marked key now calls);
    rewrite ?same_options; try done.
  rewrite counted'. lia.
Qed.

Lemma markWalletUsed_starts_cooldown_witness :
  let wallet := {| keypair := {| publicKey := "A"; secretKey := [] |};
                   activeName := "Wallet1"; activePubkey := "A" |} in
  ∃ final outcome entries,
    loadActiveBatch (cleanup := hourly_cleanup)
      (runtime := constant_runtime 0.5 "A")
      {| enableSeasoning := false; shuffleWallets := true |} 10000000
      (markWalletUsed wallet 9999600 two_records)
    = Some (final, outcome, entries)
    ∧ ∀ batch, outcome = Fulfilled batch → "A" ∉ activePubkey <$> batch.
Proof.
  intros wallet.
  apply (markWalletUsed_starts_cooldown (cleanup := hourly_cleanup)
           (runtime := constant_runtime 0.5 "A")
           {| enableSeasoning := false; shuffleWallets := true |} wallet
           9999600 10000000 two_records).
  - intros k. split; cbn; lra.
  - intros lo hi calls ordered. cbn. split; lra.
  - cbn. lra.
  - cbn. lra.
  - by vm_compute.
  - by vm_compute.
  - by vm_compute.
  - by vm_compute.
Defined.

(** ** Sink and relayer keys *)

(** [loadSpecialWallets] throws exactly when the library refuses a key
    of the configuration (the relayer keys are not looked at when the
    sink key is refused).  When it returns, the sink key pair is the
    one derived from the sink key, or is left alone when no sink key is
    configured, and the relayer key pairs are those derived from the
    relayer keys, one for one and in order, or are left alone when no
    relayer key is configured.  When it throws, the relayer key pairs
    are as before; the sink key pair is already the new one if the
    refused key is a relayer key.  It never touches the pool, the known
    keys, the funded set or the configuration. *)
Theorem loadSpecialWallets_derives_configured_keys {runtime : Runtime}
    (this : WalletManager) :
  let final := (loadSpecialWallets this).1 in
  let error := (loadSpecialWallets this).2 in
  let sink := sinkPrivateKey (config this) in
  let relayers := default [] (relayerPrivateKeys (config this)) in
  let derived :=
    from_option (λ key, Keypair_fromSecretKey key) (sinkKeypair this) sink in
  (is_Some error
   ↔ (∃ key, sink = Some key ∧ Keypair_fromSecretKey key = None)
     ∨ Exists (λ key, Keypair_fromSecretKey key = None) relayers)
  ∧ (error = None →
     sinkKeypair final = derived
     ∧ if decide (relayers = []) then relayerKeypairs final = relayerKeypairs this
       else Forall2 (λ kp key, Keypair_fromSecretKey key = Some kp)
              (relayerKeypairs final) relayers)
  ∧ (is_Some error →
     relayerKeypairs final = relayerKeypairs this
     ∧ (sinkKeypair final = sinkKeypair this ∨ sinkKeypair final = derived))
  ∧ walletData final = walletData this
  ∧ allPubkeys final = allPubkeys this
  ∧ funded final = funded this
  ∧ config final = config this.
Proof.
  cbv zeta. unfold loadSpecialWallets.
  destruct (sinkPrivateKey (config this)) as [key|] eqn:sink_key;
    cbn [from_option].
  - destruct (Keypair_fromSecretKey key) as [kp|] eqn:sink_derived.
    + cbn [config log set_sinkKeypair].
      destruct (relayerPrivateKeys (config this)) as [[|k ks]|] eqn:relayer_keys;
        cbn [from_option id fst snd].
      * split; [split; [by intros [? [=]]|]|].
        { intros [(?&[= <-]&?)|none%Exists_nil]; [congruence | done]. }
        by repeat split; try (intros [? [=]]).
      * destruct (mapM Keypair_fromSecretKey (k :: ks)) as [kps|] eqn:derived;
          cbn [fst snd].
        -- split; [split; [by intros [? [=]]|]|].
           { intros [(?&[= <-]&?)|refused%mapM_None_2]; congruence. }
           split; [|by repeat split; try (intros [? [=]])].
           intros _. split; [done|]. rewrite decide_False by done.
           cbn [relayerKeypairs log set_relayerKeypairs].
           by apply Forall2_flip, mapM_Some_1.
        -- split; [split; [intros _; right; by apply mapM_None_1 | by eexists]|].
           split; [done|]. split; [|done]. intros _. split; [done|]. by right.
      * split; [split; [by intros [? [=]]|]|].
        { intros [(?&[= <-]&?)|none%Exists_nil]; [congruence | done]. }
        by repeat split; try (intros [? [=]]).
    + cbn [fst snd]. split; [split; [intros _; left; by exists key | by eexists]|].
      split; [done|]. split; [|done]. intros _. split; [done|]. by left.
  - cbn [config log].
    destruct (relayerPrivateKeys (config this)) as [[|k ks]|] eqn:relayer_keys;
      cbn [from_option id fst snd].
    + split; [split; [by intros [? [=]]|]|].
      { intros [(?&[=]&?)|none%Exists_nil]; done. }
      by repeat split; try (intros [? [=]]).
    + destruct (mapM Keypair_fromSecretKey (k :: ks)) as [kps|] eqn:derived;
        cbn [fst snd].
      * split; [split; [by intros [? [=]]|]|].
        { intros [(?&[=]&?)|refused%mapM_None_2]; congruence. }
        split; [|by repeat split; try (intros [? [=]])].
        intros _. split; [done|]. rewrite decide_False by done.
        cbn [relayerKeypairs log set_relayerKeypairs].
        by apply Forall2_flip, mapM_Some_1.
      * split; [split; [intros _; right; by apply mapM_None_1 | by eexists]|].
        split; [done|]. split; [|done]. intros _. split; [done|]. by left.
    + split; [split; [by intros [? [=]]|]|].
      { intros [(?&[=]&?)|none%Exists_nil]; done. }
      by repeat split; try (intros [? [=]]).
Qed.

End WalletManagerFacts.

(* ================================================================== *)
(** * The worked examples in binary64 *)
(* ================================================================== *)

(** The embedding computes rates and cooldowns on exact rationals, where
    JavaScript computes on binary64 numbers.  On the two worked examples
    of the specification the binary64 results are the same: the
    products below are exact, so that [toFixed(1)] and [Math.floor] see
    40 and 1600.  The literals are the binary64 values of 0.3 and 0.2. *)

Module Binary64.

(** Four failures among ten outcomes against a threshold of 0.3. *)
Example failure_rate_40_percent :
  (0x1.3333333333333p-2 <? 4 / 10)%float = true
  ∧ (4 / 10 * 100 =? 40)%float = true.
Proof. split; vm_compute; reflexivity. Qed.

(** Three failures among ten do not exceed the threshold of 0.3. *)
Example failure_rate_30_percent :
  (0x1.3333333333333p-2 <? 3 / 10)%float = false.
Proof. vm_compute. reflexivity. Qed.

(** A trade count of 3 with a base cooldown of 1000 ms. *)
Example cooldown_1600_ms :
  (1000 * (1 + 3 * 0x1.999999999999ap-3) =? 1600)%float = true.
Proof. vm_compute. reflexivity. Qed.

End Binary64.
